(** * lektra: scripts/generate_large_pdf.py

    A shallow embedding of the stress-test PDF generator, and the
    properties of its text layout, page geometry, caches and page
    assembly.

    The embedding comes first: [Text] ([str.split], [str.join],
    [wrap_lines]), [Py] (numbers and exceptions), [Random] (CPython's
    generator), [Reportlab] (units, page sizes, the canvas commands) and
    [Script] (the script itself).  [TextProps] and [ScriptProps] define
    the vocabulary of the statements; [TextFacts] and [ScriptFacts] hold
    the proofs.

    Conventions
    - Python [int] is [Z]; [%] on a positive modulus is [Z.modulo].
    - Python [str] is a list of Unicode code points ([N]); [len] counts
      code points.
    - Python [float] is IEEE binary64, i.e. Rocq's primitive [float].
      An [int] that meets a [float] is converted as Python converts
      it: to the nearest float, with [OverflowError] beyond the range
      of binary64.  [math.sin] and [math.cos] raise [ValueError] on an
      infinity.
    - A generator function is embedded as the list of values it yields.
    - The [Canvas] is a sink: drawing is embedded as the sequence of
      commands it receives.
    - The caches of [functools.lru_cache] and the number of times each
      wrapped function body runs are explicit state.
    - A loop without a bound in the code ([_randbelow]'s rejection loop,
      the [while] loops over floats) runs on fuel; running out is an
      outcome of its own, never a result. *)

From Stdlib Require Import ZArith NArith List Bool Lia String Ascii Floats.
Import ListNotations.

(* Decimal float literals are written as in the script; they denote the
   nearest binary64 value, as they do in Python. *)
Set Warnings "-inexact-float".

Local Open Scope Z_scope.

(* ================================================================== *)
(** * Text: [str.split], [str.join] and [wrap_lines] *)
(* ================================================================== *)

Module Text.

Definition char := N.
Definition str := list char.

(** The code points at which [str.isspace] holds for a one-character
    string; [str.split()] without arguments separates on exactly these. *)
Definition isspace (c : char) : bool :=
  ((9 <=? c) && (c <=? 13) || (28 <=? c) && (c <=? 32) ||
   (c =? 133) || (c =? 160) || (c =? 5760) ||
   (8192 <=? c) && (c <=? 8202) ||
   (c =? 8232) || (c =? 8233) || (c =? 8239) || (c =? 8287) ||
   (c =? 12288))%N.

Definition space : char := 32%N.

(** [len(s)] *)
Definition len (s : str) : Z := Z.of_nat (List.length s).

(** A string literal of the script as a [str]. *)
Definition lit (s : string) : str :=
  map N_of_ascii (list_ascii_of_string s).

(** [sep.join(parts)] *)
Fixpoint join (sep : str) (parts : list str) : str :=
  match parts with
  | [] => []
  | p :: rest =>
      match rest with
      | [] => p
      | _ :: _ => p ++ sep ++ join sep rest
      end
  end.

(** [" ".join(line)] *)
Definition unwords (line : list str) : str := join [space] line.

(** [s.split()]: [cur] is the word being scanned. *)
Fixpoint split_from (cur : str) (s : str) : list str :=
  match s with
  | [] => match cur with [] => [] | _ :: _ => [cur] end
  | c :: s' =>
      if isspace c then
        match cur with
        | [] => split_from [] s'
        | _ :: _ => cur :: split_from [] s'
        end
      else split_from (cur ++ [c]) s'
  end.

Definition split (s : str) : list str := split_from [] s.

(** Truth value of a Python list. *)
Definition truthy {A} (l : list A) : bool :=
  match l with [] => false | _ :: _ => true end.

(** The loop of [wrap_lines]: [line] and [n] are the loop variables,
    the result is the sequence of yielded lines (the final
    [if line: yield] included). *)
Fixpoint wrap_loop (max_chars : Z) (words : list str)
         (line : list str) (n : Z) : list str :=
  match words with
  | [] => if truthy line then [unwords line] else []
  | w :: ws =>
      let add := len w + (if truthy line then 1 else 0) in
      if n + add >? max_chars then
        unwords line :: wrap_loop max_chars ws [w] (len w)
      else if truthy line then
        wrap_loop max_chars ws (line ++ [w]) (n + add)
      else
        wrap_loop max_chars ws [w] (len w)
  end.

Definition wrap_lines (text : str) (max_chars : Z) : list str :=
  wrap_loop max_chars (split text) [] 0.

End Text.


(* ================================================================== *)
(** * Python numbers *)
(* ================================================================== *)

Module Py.

(** Exceptions that the embedded code can raise. *)
Inductive Exn :=
| ZeroDivisionError
| OverflowError
| ValueError
| IndexError
| SystemExit (msg : string).

(** How a call ends: it returns, it raises, or a loop that has no bound
    in the code reached the bound this embedding puts on it. *)
Inductive Outcome (A : Type) :=
| Ok (a : A)
| Raise (e : Exn)
| OutOfFuel.
Arguments Ok {A} a.
Arguments Raise {A} e.
Arguments OutOfFuel {A}.

(** [range(n)] and [range(a, b)] *)
Definition range (n : Z) : list Z := map Z.of_nat (seq 0 (Z.to_nat n)).
Definition range2 (a b : Z) : list Z :=
  map (fun k => a + Z.of_nat k) (seq 0 (Z.to_nat (b - a))).

(** [zip(l, l[1:])] *)
Definition pairs {A} (l : list A) : list (A * A) := combine l (tl l).

(** Outcomes in sequence: the first that does not return ends the
    computation. *)
Definition and_then {A B} (o : Outcome A) (f : A -> Outcome B) : Outcome B :=
  match o with
  | Ok a => f a
  | Raise e => Raise e
  | OutOfFuel => OutOfFuel
  end.

Notation "x <~ o ;; k" := (and_then o (fun x => k))
  (at level 61, o at next level, right associativity).

(** A loop that computes one element for each [a] in [l], in order, and
    collects them in a list. *)
Fixpoint for_all {A B} (f : A -> Outcome B) (l : list A) : Outcome (list B) :=
  match l with
  | [] => Ok []
  | a :: l' => b <~ f a ;; bs <~ for_all f l' ;; Ok (b :: bs)
  end.

(** The binary64 value nearest to an integer, ties to even. *)
Definition nearest (z : Z) : float :=
  SF2Prim (binary_normalize prec emax z 0 false).

(** The integers from [2^1024 - 2^970] on are nearer to [2^1024] than to
    the largest finite float (or halfway, and tie to it). *)
Definition float_limit : Z := Eval vm_compute in 2 ^ 1024 - 2 ^ 970.

(** [float(z)], the conversion applied when an [int] meets a [float]:
    the nearest float, and [OverflowError] (int too large to convert to
    float) where that would not be finite. *)
Definition of_int (z : Z) : Outcome float :=
  if Z.abs z <? float_limit then Ok (nearest z) else Raise OverflowError.

(** The argument of [math.sin] and [math.cos]: an infinity is a
    [ValueError] (math domain error), a NaN is passed on. *)
Definition math_domain (x : float) : Outcome float :=
  if PrimFloat.eqb (PrimFloat.abs x) PrimFloat.infinity
  then Raise ValueError else Ok x.

(** [a / b] on two [int]s with [b] nonzero: the quotient of the integers
    rounded once, to nearest even.  (Where the quotient is beyond the
    binary64 range this is an infinity.) *)
Definition Z2SF (z : Z) : spec_float :=
  match z with
  | Z0 => S754_zero false
  | Zpos p => S754_finite false p 0
  | Zneg p => S754_finite true p 0
  end.

Definition int_truediv (a b : Z) : float :=
  SF2Prim (SFdiv prec emax (Z2SF a) (Z2SF b)).

(** [int(x)]: truncation toward zero; Python raises [OverflowError] for
    an infinity and [ValueError] for a NaN. *)
Definition int_of_float (x : float) : Exn + Z :=
  match Prim2SF x with
  | S754_zero _ => inr 0
  | S754_finite s m e =>
      let v := if 0 <=? e then Z.shiftl (Zpos m) e
               else Z.shiftr (Zpos m) (- e) in
      inr (if s then - v else v)
  | S754_infinity _ => inl OverflowError
  | S754_nan => inl ValueError
  end.

(** [max(a, b)] and [min(a, b)] on floats: the second argument is taken
    only when it compares strictly greater (smaller). *)
Definition fmax (a b : float) : float := if PrimFloat.ltb a b then b else a.
Definition fmin (a b : float) : float := if PrimFloat.ltb b a then b else a.

(** [math.pi] *)
Definition pi : float := 0x1.921fb54442d18p+1%float.

End Py.

(* ================================================================== *)
(** * [random.Random]: CPython's Mersenne Twister

    The script draws all its randomness from [random.Random(seed)]
    objects.  This is CPython's generator (MT19937 seeded through
    [init_by_array], [getrandbits], [_randbelow] by rejection, and the
    53-bit [random()]), with 32-bit words as [N] and the wrap-around
    written out. *)
(* ================================================================== *)

Module Random.
Local Open Scope N_scope.

Definition w32 (x : N) : N := N.land x 0xffffffff.

Record state := { mt : list N; mti : nat }.

Definition get (a : list N) (i : nat) : N := nth i a 0.

Fixpoint set (a : list N) (i : nat) (v : N) : list N :=
  match a, i with
  | [], _ => []
  | _ :: a', O => v :: a'
  | x :: a', S i' => x :: set a' i' v
  end.

Definition NN : nat := 624.
Definition MM : nat := 397.

Fixpoint init_genrand_from (prev : N) (i : N) (count : nat) : list N :=
  match count with
  | O => []
  | S c =>
      let x := w32 (1812433253 * N.lxor prev (N.shiftr prev 30) + i) in
      x :: init_genrand_from x (i + 1) c
  end.

Definition init_genrand (s : N) : list N :=
  w32 s :: init_genrand_from (w32 s) 1 (NN - 1).

Definition mix (a : list N) (i : nat) (c : N) : N :=
  let prev := get a (i - 1) in
  N.lxor (get a i) (w32 (N.lxor prev (N.shiftr prev 30) * c)).

Definition advance (a : list N) (i : nat) : list N * nat :=
  if (NN <=? S i)%nat then (set a 0 (get a (NN - 1)), 1%nat) else (a, S i).

Fixpoint key_loop (k : nat) (key : list N) (a : list N) (i j : nat)
  : list N * nat :=
  match k with
  | O => (a, i)
  | S k' =>
      let a1 := set a i (w32 (mix a i 1664525 + get key j + N.of_nat j)) in
      let '(a2, i2) := advance a1 i in
      let j2 := if (List.length key <=? S j)%nat then O else S j in
      key_loop k' key a2 i2 j2
  end.

Fixpoint final_loop (k : nat) (a : list N) (i : nat) : list N :=
  match k with
  | O => a
  | S k' =>
      let a1 :=
        set a i (w32 (mix a i 1566083941 + 0x100000000 - N.of_nat i)) in
      let '(a2, i2) := advance a1 i in
      final_loop k' a2 i2
  end.

Definition init_by_array (key : list N) : state :=
  let a0 := init_genrand 19650218 in
  let '(a1, i1) := key_loop (Nat.max NN (List.length key)) key a0 1 0 in
  let a2 := final_loop (NN - 1) a1 i1 in
  {| mt := set a2 0 0x80000000; mti := NN |}.

(** The seed's absolute value as 32-bit words, least significant first. *)
Fixpoint key_words (fuel : nat) (n : N) : list N :=
  match fuel with
  | O => []
  | S f => if n =? 0 then [] else w32 n :: key_words f (N.shiftr n 32)
  end.

Definition key_of (n : N) : list N :=
  match key_words (S (N.to_nat (N.size n))) n with
  | [] => [0]
  | ws => ws
  end.

(** [random.Random(a)] for an [int] seed. *)
Definition seed (a : Z) : state := init_by_array (key_of (Z.abs_N a)).

Fixpoint twist (count : nat) (kk : nat) (a : list N) : list N :=
  match count with
  | O => a
  | S c =>
      let y := N.lor (N.land (get a kk) 0x80000000)
                     (N.land (get a ((kk + 1) mod NN)) 0x7fffffff) in
      let mag := if N.testbit y 0 then 0x9908b0df else 0 in
      let v := N.lxor (N.lxor (get a ((kk + MM) mod NN)) (N.shiftr y 1)) mag in
      twist c (S kk) (set a kk v)
  end.

Definition temper (y : N) : N :=
  let y := N.lxor y (N.shiftr y 11) in
  let y := N.lxor y (N.land (N.shiftl y 7) 0x9d2c5680) in
  let y := N.lxor y (N.land (N.shiftl y 15) 0xefc60000) in
  N.lxor y (N.shiftr y 18).

Definition genrand_uint32 (s : state) : N * state :=
  let '(a, i) := if (NN <=? mti s)%nat then (twist NN 0 (mt s), O)
                 else (mt s, mti s) in
  (temper (get a i), {| mt := a; mti := S i |}).

Fixpoint getrandbits_words (words : nat) (k : N) (s : state) : N * state :=
  match words with
  | O => (0, s)
  | S w' =>
      let '(r, s1) := genrand_uint32 s in
      let r := if k <? 32 then N.shiftr r (32 - k) else r in
      let '(hi, s2) := getrandbits_words w' (k - 32) s1 in
      (r + N.shiftl hi 32, s2)
  end.

Definition getrandbits (k : N) (s : state) : N * state :=
  if k =? 0 then (0, s)
  else getrandbits_words (S (N.to_nat ((k - 1) / 32))) k s.

(** [_randbelow(n)]: draw [n.bit_length()] bits until the value is below
    [n].  The loop has no bound in the code; [fuel] bounds the number of
    draws and [None] means the bound was reached. *)
Fixpoint randbelow_loop (fuel : nat) (n k : N) (s : state)
  : option (N * state) :=
  match fuel with
  | O => None
  | S f =>
      let '(r, s1) := getrandbits k s in
      if n <=? r then randbelow_loop f n k s1 else Some (r, s1)
  end.

Definition randbelow (fuel : nat) (n : N) (s : state) : option (N * state) :=
  if n =? 0 then Some (0, s) else randbelow_loop fuel n (N.size n) s.

(** A machine word as a [double]: the conversion is exact. *)
Definition float_of_N (n : N) : float := Py.nearest (Z.of_N n).

(** [random()] *)
Definition random (s : state) : float * state :=
  let '(a, s1) := genrand_uint32 s in
  let '(b, s2) := genrand_uint32 s1 in
  (((float_of_N (N.shiftr a 5) * 67108864 + float_of_N (N.shiftr b 6))
    * (1 / 9007199254740992))%float, s2).

(** [uniform(a, b)] *)
Definition uniform (a b : float) (s : state) : float * state :=
  let '(r, s1) := random s in ((a + (b - a) * r)%float, s1).

(** How many draws [randrange] may make before the embedding gives up. *)
Definition randbelow_fuel : nat := 256.

(** [randrange(n)]: [ValueError] for an empty range. *)
Definition randrange (n : Z) (s : state) : Py.Outcome (Z * state) :=
  if (0 <? n)%Z then
    match randbelow randbelow_fuel (Z.to_N n) s with
    | Some (r, s1) => Py.Ok (Z.of_N r, s1)
    | None => Py.OutOfFuel
    end
  else Py.Raise Py.ValueError.

End Random.

(* ================================================================== *)
(** * What the script uses of reportlab *)
(* ================================================================== *)

Module Reportlab.
Local Open Scope float_scope.

(** [reportlab.lib.units] *)
Definition inch : float := 72.0.
Definition cm : float := inch / 2.54.
Definition mm : float := cm * 0.1.

(** [reportlab.lib.pagesizes] *)
Definition A4 : float * float := (210 * mm, 297 * mm).
Definition LETTER : float * float := (8.5 * inch, 11 * inch).

Definition landscape (pagesize : float * float) : float * float :=
  let '(a, b) := pagesize in
  if a <? b then (b, a) else (a, b).

(** An [ImageReader] over a PNG rendered by Pillow.  The bitmap is
    outside the embedding: a reader carries the pixel size that
    [getSize()] reports and the arguments it was rendered from. *)
Record ImageReader := {
  reader_size : Z * Z;
  reader_source : Z * Z * Z
}.

Definition getSize (img : ImageReader) : Z * Z := reader_size img.

(** The strings that are drawn; the two f-strings are kept by their
    arguments. *)
Inductive Label :=
| TitleLabel (i : Z)
| SizeLabel (w h : float) (font_name : Text.str) (font_size : Z)
| Plain (s : Text.str).

(** The calls a [Canvas] receives. *)
Inductive Cmd :=
| Canvas (output : Text.str) (pagesize : float * float) (pageCompression : Z)
| setPageSize (size : float * float)
| setFont (name : Text.str) (size : Z)
| drawString (x y : float) (text : Label)
| rect (x y width height : float)
| line (x1 y1 x2 y2 : float)
| circle (x y r : float)
| saveState
| restoreState
| setLineWidth (width : float)
| setStrokeColorRGB (r g b : float)
| drawImage (img : ImageReader) (x y width height : float)
| showPage
| save.

End Reportlab.

(* ================================================================== *)
(** * The script *)
(* ================================================================== *)

Module Script.
Import Py Reportlab.

(** ** State and effects *)

(** A cache of [functools.lru_cache]: the stored results, most recently
    used first, and how many times the wrapped function was called. *)
Record Lru (K V : Type) := {
  entries : list (K * V);
  calls : nat
}.
Arguments entries {K V} _.
Arguments calls {K V} _.

Section LruCache.
Context {K V : Type} (keqb : K -> K -> bool).

Fixpoint lookup (k : K) (l : list (K * V)) : option V :=
  match l with
  | [] => None
  | (k', v) :: l' => if keqb k k' then Some v else lookup k l'
  end.

Fixpoint remove (k : K) (l : list (K * V)) : list (K * V) :=
  match l with
  | [] => []
  | (k', v) :: l' => if keqb k k' then l' else (k', v) :: remove k l'
  end.

(** A call through the cache: a hit moves the entry to the front; a
    miss calls [f], stores the result in front and drops the least
    recently used entry beyond [maxsize]. *)
Definition lru_cache (maxsize : nat) (f : K -> Outcome V) (k : K)
           (c : Lru K V) : Outcome V * Lru K V :=
  match lookup k (entries c) with
  | Some v =>
      (Ok v, {| entries := (k, v) :: remove k (entries c);
                calls := calls c |})
  | None =>
      match f k with
      | Ok v =>
          (Ok v, {| entries := firstn maxsize ((k, v) :: entries c);
                    calls := S (calls c) |})
      | Raise e => (Raise e, {| entries := entries c; calls := S (calls c) |})
      | OutOfFuel => (OutOfFuel, {| entries := entries c; calls := S (calls c) |})
      end
  end.
End LruCache.

Definition empty_cache {K V} : Lru K V := {| entries := []; calls := 0 |}.

Definition Point : Type := float * float.
Definition Color : Type := float * float * float.
Definition Rect : Type := float * float * float * float.

(** One element of the list [_figure_variants] returns. *)
Record FigureVariant := {
  colors : list Color;
  paths : list (list Point);
  grid_r : float;
  grid : list Point
}.

Inductive Msg :=
| Progress (i pages : Z)
| Done (pages : Z) (output : Text.str).

(** Everything the run reads and writes: the canvas (latest command
    first), standard output (latest first), the module-level generator
    of [random], and the four caches. *)
Record World := {
  canvas : list Cmd;
  stdout : list Msg;
  global_rng : option Random.state;
  image_readers : Lru (Z * Z * Z) ImageReader;
  figure_sets : Lru (float * float * Z * Z * Z) (list FigureVariant);
  rect_layouts : Lru (float * float * Z) (list Rect);
  image_layouts : Lru (float * float * Z * Z) (list Rect)
}.

(** A new process. *)
Definition fresh : World := {|
  canvas := []; stdout := []; global_rng := None;
  image_readers := empty_cache; figure_sets := empty_cache;
  rect_layouts := empty_cache; image_layouts := empty_cache
|}.

(** The commands the canvas received, in order. *)
Definition trace (w : World) : list Cmd := rev (canvas w).

Definition M (A : Type) : Type := World -> Outcome A * World.

Definition ret {A} (a : A) : M A := fun w => (Ok a, w).

Definition bind {A B} (m : M A) (f : A -> M B) : M B :=
  fun w =>
    match m w with
    | (Ok a, w') => f a w'
    | (Raise e, w') => (Raise e, w')
    | (OutOfFuel, w') => (OutOfFuel, w')
    end.

Notation "x <- m ;; k" := (bind m (fun x => k))
  (at level 61, m at next level, right associativity).
Notation "' p <- m ;; k" := (bind m (fun x => let p := x in k))
  (at level 61, p pattern, m at next level, right associativity).
Notation "m ;; k" := (bind m (fun _ => k))
  (at level 61, right associativity).

Definition raise {A} (e : Exn) : M A := fun w => (Raise e, w).

(** A computation that does not touch the world. *)
Definition lift {A} (o : Outcome A) : M A := fun w => (o, w).

Definition emit (c : Cmd) : M unit :=
  fun w => (Ok tt,
            {| canvas := c :: canvas w; stdout := stdout w;
               global_rng := global_rng w;
               image_readers := image_readers w;
               figure_sets := figure_sets w;
               rect_layouts := rect_layouts w;
               image_layouts := image_layouts w |}).

Definition print (m : Msg) : M unit :=
  fun w => (Ok tt,
            {| canvas := canvas w; stdout := m :: stdout w;
               global_rng := global_rng w;
               image_readers := image_readers w;
               figure_sets := figure_sets w;
               rect_layouts := rect_layouts w;
               image_layouts := image_layouts w |}).

Definition random_seed (a : Z) : M unit :=
  fun w => (Ok tt,
            {| canvas := canvas w; stdout := stdout w;
               global_rng := Some (Random.seed a);
               image_readers := image_readers w;
               figure_sets := figure_sets w;
               rect_layouts := rect_layouts w;
               image_layouts := image_layouts w |}).

Fixpoint for_each {A} (l : list A) (body : A -> M unit) : M unit :=
  match l with
  | [] => ret tt
  | a :: l' => body a ;; for_each l' body
  end.

Definition emit_all (cs : list Cmd) : M unit := for_each cs emit.

(** [a / b] on floats and on ints. *)
Definition fdiv (a b : float) : M float :=
  if PrimFloat.eqb b 0 then raise ZeroDivisionError else ret (a / b)%float.

Definition truediv (a b : Z) : M float :=
  if b =? 0 then raise ZeroDivisionError
  else
    let q := int_truediv a b in
    if PrimFloat.eqb (PrimFloat.abs q) PrimFloat.infinity
    then raise OverflowError
    else ret q.

(** [int(x)] *)
Definition int (x : float) : M Z :=
  match int_of_float x with
  | inr z => ret z
  | inl e => raise e
  end.

(** Key equality of the caches: [==] on the argument tuples. *)
Definition key3_eqb (a b : Z * Z * Z) : bool :=
  let '(a1, a2, a3) := a in let '(b1, b2, b3) := b in
  (a1 =? b1) && (a2 =? b2) && (a3 =? b3).

Definition figkey_eqb (a b : float * float * Z * Z * Z) : bool :=
  let '(a1, a2, a3, a4, a5) := a in let '(b1, b2, b3, b4, b5) := b in
  PrimFloat.eqb a1 b1 && PrimFloat.eqb a2 b2 &&
  (a3 =? b3) && (a4 =? b4) && (a5 =? b5).

Definition rectkey_eqb (a b : float * float * Z) : bool :=
  let '(a1, a2, a3) := a in let '(b1, b2, b3) := b in
  PrimFloat.eqb a1 b1 && PrimFloat.eqb a2 b2 && (a3 =? b3).

Definition poskey_eqb (a b : float * float * Z * Z) : bool :=
  let '(a1, a2, a3, a4) := a in let '(b1, b2, b3, b4) := b in
  PrimFloat.eqb a1 b1 && PrimFloat.eqb a2 b2 && (a3 =? b3) && (a4 =? b4).

(** ** The module-level definitions of the script *)

Definition LOREM : Text.str := Text.lit
  ("Lorem ipsum dolor sit amet, consectetur adipiscing elit. " ++
   "Sed do eiusmod tempor incididunt ut labore et dolore magna aliqua. " ++
   "Ut enim ad minim veniam, quis nostrud exercitation ullamco laboris nisi " ++
   "ut aliquip ex ea commodo consequat. Duis aute irure dolor in reprehenderit " ++
   "in voluptate velit esse cillum dolore eu fugiat nulla pariatur. " ++
   "Excepteur sint occaecat cupidatat non proident, sunt in culpa qui officia " ++
   "deserunt mollit anim id est laborum.")%string.

Definition wrap_lines := Text.wrap_lines.

Definition page_size_for (i : Z) (vary : bool) : float * float :=
  if negb vary then A4
  else
    let mod_ := i mod 4 in
    if mod_ =? 0 then A4
    else if mod_ =? 1 then LETTER
    else if mod_ =? 2 then landscape A4
    else landscape LETTER.

Record ImageConfig := {
  enabled : bool;
  per_page : Z;
  px : Z;
  variants : Z;
  seed : Z;
  fast : bool
}.

(** The parsed command line.  The defaults of [argparse] are: 10000
    pages, Helvetica at 11 points, no rectangles, images on, 2 images
    per page of 1600 pixels in 3 variants, figure complexity 1200, not
    fast, sizes not varied, seed 0. *)
Record Args := {
  arg_output : Text.str;
  arg_pages : Z;
  arg_font : Text.str;
  arg_font_size : Z;
  arg_with_rects : bool;
  arg_no_images : bool;
  arg_images_per_page : Z;
  arg_image_px : Z;
  arg_image_variants : Z;
  arg_figure_complexity : Z;
  arg_fast : bool;
  arg_vary_sizes : bool;
  arg_seed : Z
}.

(** What the script finds around it: [math.sin] and [math.cos] of the C
    library, and whether Pillow can be imported. *)
Record Env := {
  sin : float -> float;
  cos : float -> float;
  pillow_installed : bool
}.

Definition margin : float := (15 * mm)%float.

(** The bound put on each [while] loop of [_figure_variants]. *)
Definition grid_fuel : nat := 4096.

Section WithEnv.
Variable env : Env.

Local Open Scope float_scope.

Definition _require_pillow : M unit :=
  if pillow_installed env then ret tt
  else raise (SystemExit
    "Pillow is required for --no-images to be false. Install it with: pip install pillow").

(** The body of [_make_image_reader]: a [px] by [px] noise image with
    shapes, blurred and saved as PNG. *)
Definition _make_image_reader__wrapped (key : Z * Z * Z) : Outcome ImageReader :=
  let '(px, variant, seed) := key in
  Ok {| reader_size := (px, px); reader_source := (px, variant, seed) |}.

Definition _make_image_reader (px variant seed : Z) : M ImageReader :=
  fun w =>
    let '(o, c) := lru_cache key3_eqb 8 _make_image_reader__wrapped
                             (px, variant, seed) (image_readers w) in
    (o, {| canvas := canvas w; stdout := stdout w;
           global_rng := global_rng w;
           image_readers := c;
           figure_sets := figure_sets w;
           rect_layouts := rect_layouts w;
           image_layouts := image_layouts w |}).

(** *** [_figure_variants] *)

Fixpoint grid_row (fuel : nat) (x y step xmax : float)
  : option (list Point) :=
  match fuel with
  | O => None
  | S f =>
      if x <? xmax then
        option_map (cons (x, y)) (grid_row f (x + step) y step xmax)
      else Some []
  end.

Fixpoint grid_rows (fuel : nat) (y step w h : float)
  : option (list Point) :=
  match fuel with
  | O => None
  | S f =>
      if y <? h * 0.45 then
        match grid_row grid_fuel (w * 0.1) y step (w * 0.9) with
        | Some row => option_map (app row) (grid_rows f (y + step) step w h)
        | None => None
        end
      else Some []
  end.

Fixpoint draw_colors (n : nat) (rng : Random.state)
  : list Color * Random.state :=
  match n with
  | O => ([], rng)
  | S n' =>
      let '(r, rng) := Random.random rng in
      let '(g, rng) := Random.random rng in
      let '(b, rng) := Random.random rng in
      let '(cs, rng) := draw_colors n' rng in
      ((r, g, b) :: cs, rng)
  end.

(** [math.sin(x)] and [math.cos(x)] *)
Definition math_sin (x : float) : Outcome float :=
  x <~ math_domain x ;; Ok (sin env x).

Definition math_cos (x : float) : Outcome float :=
  x <~ math_domain x ;; Ok (cos env x).

(** [a / b] on floats. *)
Definition float_truediv (a b : float) : Outcome float :=
  if PrimFloat.eqb b 0 then Raise ZeroDivisionError else Ok (a / b).

(** One point of a path (lines 146-150).  [t] and [complexity] are
    converted to floats where they meet one; [k + 1], [k + 2] and
    [k + 3] are at most 6. *)
Definition path_point (cx cy radius : float) (complexity k t : Z)
  : Outcome Point :=
  ft <~ of_int t ;;
  fc <~ of_int complexity ;;
  a <~ float_truediv (2 * pi * ft) fc ;;
  s2 <~ math_sin (a * nearest (k + 2)) ;;
  let r := radius * (0.35 + 0.65 * s2) in
  c1 <~ math_cos (a * nearest (k + 1)) ;;
  let x := cx + r * c1 in
  s3 <~ math_sin (a * nearest (k + 3)) ;;
  let y := cy + r * s3 in
  Ok (x, y).

Definition figure_variant (w h : float) (complexity seed : Z)
           (step : float) (grid : list Point) (v : Z)
  : Outcome FigureVariant :=
  let cx := w * 0.5 in
  let cy := h * 0.55 in
  let radius := fmin w h * 0.38 in
  let rng := Random.seed (seed + v * 137) in
  let colors := fst (draw_colors 4 rng) in
  paths <~ for_all (fun k => for_all (path_point cx cy radius complexity k)
                                     (range complexity))
                   (range 4) ;;
  Ok {| colors := colors; paths := paths; grid_r := step * 0.35;
        grid := grid |}.

Definition _figure_variants__wrapped (key : float * float * Z * Z * Z)
  : Outcome (list FigureVariant) :=
  let '(w, h, complexity, variants, seed) := key in
  let step := fmax 6.0 (fmin w h / 80.0) in
  match grid_rows grid_fuel (h * 0.15) step w h with
  | None => OutOfFuel
  | Some grid =>
      for_all (figure_variant w h complexity seed step grid) (range variants)
  end.

Definition _figure_variants (w h : float) (complexity variants seed : Z)
  : M (list FigureVariant) :=
  fun wd =>
    let '(o, c) := lru_cache figkey_eqb 8 _figure_variants__wrapped
                             (w, h, complexity, variants, seed)
                             (figure_sets wd) in
    (o, {| canvas := canvas wd; stdout := stdout wd;
           global_rng := global_rng wd;
           image_readers := image_readers wd;
           figure_sets := c;
           rect_layouts := rect_layouts wd;
           image_layouts := image_layouts wd |}).

(** The strokes of one variant: every path as line segments between
    consecutive points, then a circle at every grid point. *)
Definition path_strokes (cp : Color * list Point) : list Cmd :=
  let '((r, g, b), pts) := cp in
  setStrokeColorRGB r g b
    :: map (fun s => let '((x1, y1), (x2, y2)) := s in line x1 y1 x2 y2)
           (pairs pts).

Definition variant_strokes (fv : FigureVariant) : list Cmd :=
  List.concat (map path_strokes (combine (colors fv) (paths fv)))
  ++ setStrokeColorRGB 0.2 0.2 0.2
  :: map (fun p => let '(x, y) := p in circle x y (grid_r fv)) (grid fv).

Definition draw_heavy_figures (w h : float) (complexity variant seed : Z)
  : M unit :=
  emit saveState ;;
  emit (setLineWidth 0.4) ;;
  variants <- _figure_variants w h complexity 4 seed ;;
  let n := Z.of_nat (List.length variants) in
  (if (n =? 0)%Z then raise ZeroDivisionError else ret tt) ;;
  match nth_error variants (Z.to_nat (variant mod n)) with
  | None => raise IndexError
  | Some fv =>
      emit_all (variant_strokes fv) ;;
      emit restoreState
  end.

(** *** [_rects_for_size] and [_image_positions] *)

Definition random_rect (w h : float) (rng : Random.state)
  : Rect * Random.state :=
  let '(u, rng) := Random.uniform 5 40 rng in
  let rw := u * mm in
  let '(u, rng) := Random.uniform 3 25 rng in
  let rh := u * mm in
  let '(rx, rng) := Random.uniform margin (fmax margin (w - margin - rw)) rng in
  let '(ry, rng) := Random.uniform margin (fmax margin (h - margin - rh)) rng in
  ((rx, ry, rw, rh), rng).

Fixpoint random_rects (n : nat) (w h : float) (rng : Random.state)
  : list Rect :=
  match n with
  | O => []
  | S n' =>
      let '(r, rng) := random_rect w h rng in
      r :: random_rects n' w h rng
  end.

Definition _rects_for_size__wrapped (key : float * float * Z)
  : Outcome (list Rect) :=
  let '(w, h, seed) := key in
  Ok (random_rects 80 w h (Random.seed seed)).

Definition _rects_for_size (w h : float) (seed : Z) : M (list Rect) :=
  fun wd =>
    let '(o, c) := lru_cache rectkey_eqb 8 _rects_for_size__wrapped
                             (w, h, seed) (rect_layouts wd) in
    (o, {| canvas := canvas wd; stdout := stdout wd;
           global_rng := global_rng wd;
           image_readers := image_readers wd;
           figure_sets := figure_sets wd;
           rect_layouts := c;
           image_layouts := image_layouts wd |}).

Fixpoint random_positions (n : nat) (w h : float) (rng : Random.state)
  : list Rect :=
  match n with
  | O => []
  | S n' =>
      let max_w := w - 2 * margin in
      let max_h := h - 2 * margin in
      let '(scale, rng) := Random.uniform 0.35 0.7 rng in
      let draw_w := max_w * scale in
      let draw_h := draw_w in
      let '(draw_w, draw_h) :=
        if max_h * 0.8 <? draw_h then (max_h * 0.8, max_h * 0.8)
        else (draw_w, draw_h) in
      let '(x, rng) :=
        Random.uniform margin (fmax margin (w - margin - draw_w)) rng in
      let '(y, rng) :=
        Random.uniform (margin + 20)
                       (fmax (margin + 20) (h - margin - draw_h)) rng in
      (x, y, draw_w, draw_h) :: random_positions n' w h rng
  end.

Definition _image_positions__wrapped (key : float * float * Z * Z)
  : Outcome (list Rect) :=
  let '(w, h, per_page, seed) := key in
  Ok (random_positions (Z.to_nat per_page) w h (Random.seed seed)).

Definition _image_positions (w h : float) (per_page seed : Z)
  : M (list Rect) :=
  fun wd =>
    let '(o, c) := lru_cache poskey_eqb 8 _image_positions__wrapped
                             (w, h, per_page, seed) (image_layouts wd) in
    (o, {| canvas := canvas wd; stdout := stdout wd;
           global_rng := global_rng wd;
           image_readers := image_readers wd;
           figure_sets := figure_sets wd;
           rect_layouts := rect_layouts wd;
           image_layouts := c |}).

(** *** [draw_page] *)

(** The body text: lines top-down until [y] falls below the threshold. *)
Fixpoint body_text (x0 y line_h : float) (lines : list Text.str) : list Cmd :=
  match lines with
  | [] => []
  | ln :: rest =>
      if y <? margin + 60 then []
      else drawString x0 y (Plain ln) :: body_text x0 (y - line_h) line_h rest
  end.

Definition chart_point (i : Z) (chart_x chart_y chart_w chart_h : float)
           (k : Z) : Outcome Point :=
  let steps := 120%Z in
  let t := int_truediv k steps * 2 * pi in
  fi <~ of_int i ;;
  s <~ math_sin (t + fi * 0.01) ;;
  let yy := s * 0.45 + 0.5 in
  let px := chart_x + int_truediv k steps * chart_w in
  let py := chart_y + yy * chart_h in
  Ok (px, py).

(** The title, the size line and the wrapped text (lines 226-252). *)
Definition draw_page_text (i : Z) (w h : float) (font_name : Text.str)
           (font_size : Z) : M unit :=
  let x0 := margin in
  let y0 := h - margin in
  emit (setFont font_name (font_size + 4)) ;;
  emit (drawString x0 y0 (TitleLabel i)) ;;
  emit (setFont font_name font_size) ;;
  emit (drawString x0 (y0 - 18) (SizeLabel w h font_name font_size)) ;;
  let body_top := y0 - 45 in
  f <- lift (of_int font_size) ;;
  q <- fdiv (w - 2 * margin) (f * 0.55) ;;
  n <- int q ;;
  let max_chars := Z.max 40 n in
  let lines := wrap_lines (List.concat (repeat LOREM 6)) max_chars in
  f' <- lift (of_int font_size) ;;
  let line_h := f' * 1.25 in
  emit_all (body_text x0 body_top line_h lines).

(** The chart (lines 254-276). *)
Definition draw_page_chart (i : Z) (w h : float) (font_name : Text.str)
           (font_size : Z) : M unit :=
  let chart_x := margin in
  let chart_y := margin + 20 in
  let chart_w := fmin (140 * mm) (w - 2 * margin) in
  let chart_h := 35 * mm in
  emit (rect chart_x chart_y chart_w chart_h) ;;
  pts <- lift (for_all (chart_point i chart_x chart_y chart_w chart_h)
                       (range (120 + 1))) ;;
  emit_all (map (fun s => let '((x1, y1), (x2, y2)) := s in line x1 y1 x2 y2)
                (pairs pts)) ;;
  emit (setFont font_name (Z.max 6 (font_size - 2))) ;;
  emit (drawString chart_x (chart_y + chart_h + 6)
          (Plain (Text.lit "Vector polyline (varies slightly per page)"))).

(** The heavy figures (lines 278-286). *)
Definition draw_page_figures (i : Z) (w h : float) (figure_complexity : Z)
           (img_cfg : ImageConfig) : M unit :=
  if (figure_complexity >? 0)%Z then
    draw_heavy_figures w h figure_complexity i (seed img_cfg)
  else ret tt.

(** The filler rectangles (lines 288-302). *)
Definition draw_page_rects (i : Z) (w h : float) (with_rects : bool)
           (img_cfg : ImageConfig) : M unit :=
  if with_rects then
    if fast img_cfg then
      rects <- _rects_for_size w h (seed img_cfg) ;;
      emit_all (map (fun r => let '(rx, ry, rw, rh) := r in rect rx ry rw rh)
                    rects)
    else
      emit_all (map (fun r => let '(rx, ry, rw, rh) := r in rect rx ry rw rh)
                    (random_rects 80 w h (Random.seed i)))
  else ret tt.

(** One round of the image loop (lines 313-330); [rng] is the page's
    generator, returned as the round leaves it. *)
Definition draw_image (w h : float) (img_cfg : ImageConfig)
           (positions : option (list Rect)) (idx : Z) (rng : Random.state)
  : M Random.state :=
  '(variant, rng) <- lift (Random.randrange (Z.max 1 (variants img_cfg)) rng) ;;
  img <- _make_image_reader (px img_cfg) variant (seed img_cfg) ;;
  let '(iw, ih) := getSize img in
  match positions with
  | Some ps =>
      match nth_error ps (Z.to_nat idx) with
      | None => raise IndexError
      | Some (x, y, draw_w, _) =>
          r <- truediv ih iw ;;
          let draw_h := draw_w * r in
          emit (drawImage img x y draw_w draw_h) ;;
          ret rng
      end
  | None =>
      let max_w := w - 2 * margin in
      let max_h := h - 2 * margin in
      let '(scale, rng) := Random.uniform 0.35 0.7 rng in
      let draw_w := fmin max_w (max_w * scale) in
      r <- truediv ih iw ;;
      let draw_h := draw_w * r in
      '(draw_w, draw_h) <-
        (if max_h * 0.8 <? draw_h then
           r' <- truediv iw ih ;;
           ret (max_h * 0.8 * r', max_h * 0.8)
         else ret (draw_w, draw_h)) ;;
      let '(x, rng) :=
        Random.uniform margin (fmax margin (w - margin - draw_w)) rng in
      let '(y, rng) :=
        Random.uniform (margin + 20)
                       (fmax (margin + 20) (h - margin - draw_h)) rng in
      emit (drawImage img x y draw_w draw_h) ;;
      ret rng
  end.

Fixpoint draw_images (w h : float) (img_cfg : ImageConfig)
         (positions : option (list Rect)) (idxs : list Z)
         (rng : Random.state) : M unit :=
  match idxs with
  | [] => ret tt
  | idx :: rest =>
      rng <- draw_image w h img_cfg positions idx rng ;;
      draw_images w h img_cfg positions rest rng
  end.

(** The raster images (lines 304-330). *)
Definition draw_page_images (i : Z) (w h : float) (img_cfg : ImageConfig)
  : M unit :=
  if enabled img_cfg && (per_page img_cfg >? 0)%Z then
    let rng := Random.seed (seed img_cfg + i * 7919) in
    positions <-
      (if fast img_cfg then
         ps <- _image_positions w h (per_page img_cfg) (seed img_cfg) ;;
         ret (Some ps)
       else ret None) ;;
    draw_images w h img_cfg positions (range (per_page img_cfg)) rng
  else ret tt.

Definition draw_page (i : Z) (w h : float) (font_name : Text.str)
           (font_size : Z) (with_rects : bool) (figure_complexity : Z)
           (img_cfg : ImageConfig) : M unit :=
  draw_page_text i w h font_name font_size ;;
  draw_page_chart i w h font_name font_size ;;
  draw_page_figures i w h figure_complexity img_cfg ;;
  draw_page_rects i w h with_rects img_cfg ;;
  draw_page_images i w h img_cfg.

(** *** [main], after [parse_args] *)

Definition image_config (args : Args) : ImageConfig := {|
  enabled := negb (arg_no_images args);
  per_page := Z.max 0 (arg_images_per_page args);
  px := Z.max 64 (arg_image_px args);
  variants := Z.max 1 (arg_image_variants args);
  seed := arg_seed args;
  fast := arg_fast args
|}.

Definition main (args : Args) : M unit :=
  random_seed (arg_seed args) ;;
  let img_cfg := image_config args in
  (if enabled img_cfg then _require_pillow else ret tt) ;;
  let '(w, h) := page_size_for 1 (arg_vary_sizes args) in
  emit (Canvas (arg_output args) (w, h) (if arg_fast args then 0 else 1)%Z) ;;
  for_each (range2 1 (arg_pages args + 1))
    (fun i =>
       let '(w, h) := page_size_for i (arg_vary_sizes args) in
       emit (setPageSize (w, h)) ;;
       draw_page i w h (arg_font args) (arg_font_size args)
                 (arg_with_rects args) (arg_figure_complexity args) img_cfg ;;
       emit showPage ;;
       if (i mod 500 =? 0)%Z then print (Progress i (arg_pages args))
       else ret tt) ;;
  emit save ;;
  print (Done (arg_pages args) (arg_output args)).

End WithEnv.

End Script.

(* ================================================================== *)
(** * Vocabulary of the properties *)
(* ================================================================== *)

Module TextProps.
Import Text.

(** A word, as [split] produces them: not empty and free of whitespace. *)
Definition is_word (w : str) : Prop :=
  w <> [] /\ Forall (fun c => isspace c = false) w.

(** What [wrap_lines] maintains between iterations: [n] is the length of
    the pending line, which fits unless it is one oversized word. *)
Definition wrap_inv (mc : Z) (all : list str) (line : list str) (n : Z) : Prop :=
  (line = [] /\ n = 0) \/
  (line <> [] /\ n = len (unwords line) /\
   (n <= mc \/ exists w, line = [w] /\ In w all /\ mc < len w)).

(** A yielded line is acceptable when it fits the budget or is exactly
    one word of the text that is longer than the budget. *)
Definition line_ok (mc : Z) (all : list str) (ln : str) : Prop :=
  len ln <= mc \/ (In ln all /\ mc < len ln).

End TextProps.

Module ScriptProps.
Import Py Reportlab Script.

(** An environment for running examples: Pillow is installed, and the
    identity stands for both trigonometric functions (nothing proved
    here depends on their values). *)
Definition test_env : Env :=
  {| sin := fun x => x; cos := fun x => x; pillow_installed := true |}.

(** The world [main] leaves when it draws no page. *)
Definition no_pages_world (args : Args) : World := {|
  canvas := [save;
             Canvas (arg_output args) (page_size_for 1 (arg_vary_sizes args))
                    (if arg_fast args then 0 else 1)];
  stdout := [Done (arg_pages args) (arg_output args)];
  global_rng := Some (Random.seed (arg_seed args));
  image_readers := empty_cache; figure_sets := empty_cache;
  rect_layouts := empty_cache; image_layouts := empty_cache
|}.

(** The script's defaults with [--pages 0]. *)
Definition zero_pages_args : Args := {|
  arg_output := Text.lit "big.pdf";
  arg_pages := 0;
  arg_font := Text.lit "Helvetica";
  arg_font_size := 11;
  arg_with_rects := false;
  arg_no_images := false;
  arg_images_per_page := 2;
  arg_image_px := 1600;
  arg_image_variants := 3;
  arg_figure_complexity := 1200;
  arg_fast := false;
  arg_vary_sizes := false;
  arg_seed := 0
|}.

(** The keys under which the run asks for a texture. *)
Definition texture_key (cfg : ImageConfig) (k : Z * Z * Z) : Prop :=
  exists v, k = (px cfg, v, seed cfg) /\ 0 <= v < Z.max 1 (variants cfg).

(** Every stored texture was generated exactly once: the keys are
    distinct texture keys and there are as many as calls. *)
Definition cache_inv (cfg : ImageConfig) (c : Lru (Z * Z * Z) ImageReader)
  : Prop :=
  NoDup (map fst (entries c))
  /\ Forall (texture_key cfg) (map fst (entries c))
  /\ calls c = List.length (entries c).

(** [steps n m]: running [m] keeps the invariant of the texture cache
    and calls the texture generator at most [n] times. *)
Definition steps (cfg : ImageConfig) (n : nat) {A} (m : M A) : Prop :=
  forall w, cache_inv cfg (image_readers w) ->
    cache_inv cfg (image_readers (snd (m w)))
    /\ (calls (image_readers (snd (m w)))
        <= calls (image_readers w) + n)%nat.

(** [frame m]: [m] leaves the texture cache alone. *)
Definition frame {A} (m : M A) : Prop :=
  forall w, image_readers (snd (m w)) = image_readers w.

(** Every command but [drawImage]. *)
Definition plain (c : Cmd) : Prop :=
  match c with
  | drawImage _ _ _ _ _ => False
  | _ => True
  end.

(** [quiet m]: [m] leaves the texture cache alone and draws no image. *)
Definition quiet {A} (m : M A) : Prop :=
  forall w, image_readers (snd (m w)) = image_readers w
            /\ exists cs, canvas (snd (m w)) = cs ++ canvas w
                          /\ Forall plain cs.

(** A binary64 value that is neither a zero, an infinity nor a NaN. *)
Definition finite_nonzero (x : float) : bool :=
  match Prim2SF x with
  | S754_finite _ _ _ => true
  | _ => false
  end.

(** An image is drawn in the proportions of its pixels: wherever the
    drawn ratio is defined, it is the ratio [ih / iw] of the reader's
    size, as Python computes both. *)
Definition aspect_kept (c : Cmd) : Prop :=
  match c with
  | drawImage img x y width height =>
      let '(iw, ih) := getSize img in
      finite_nonzero width = true ->
      (height / width)%float = int_truediv ih iw
  | _ => True
  end.

(** The readers of the cache are [px] by [px] and every image drawn so
    far kept its proportions. *)
Definition aspect_inv (px : Z) (w : World) : Prop :=
  (forall k r, In (k, r) (entries (image_readers w)) ->
               reader_size r = (px, px))
  /\ Forall aspect_kept (canvas w).

Definition keeps (px : Z) {A} (m : M A) : Prop :=
  forall w, aspect_inv px w -> aspect_inv px (snd (m w)).

(** The run of the spec's scenario:
    [--pages 3 --fast --image-variants 2 --images-per-page 1 --seed 1]. *)
Definition scenario_args : Args := {|
  arg_output := Text.lit "big.pdf";
  arg_pages := 3;
  arg_font := Text.lit "Helvetica";
  arg_font_size := 11;
  arg_with_rects := false;
  arg_no_images := false;
  arg_images_per_page := 1;
  arg_image_px := 1600;
  arg_image_variants := 2;
  arg_figure_complexity := 1200;
  arg_fast := true;
  arg_vary_sizes := false;
  arg_seed := 1
|}.

(** [--pages 1 --fast --images-per-page 1], three variants by default. *)
Definition one_page_args : Args := {|
  arg_output := Text.lit "big.pdf";
  arg_pages := 1;
  arg_font := Text.lit "Helvetica";
  arg_font_size := 11;
  arg_with_rects := false;
  arg_no_images := false;
  arg_images_per_page := 1;
  arg_image_px := 1600;
  arg_image_variants := 3;
  arg_figure_complexity := 1200;
  arg_fast := true;
  arg_vary_sizes := false;
  arg_seed := 0
|}.

(** [--pages 1 --fast --images-per-page 30 --image-variants 9
    --figure-complexity 0]: more variants than the cache holds. *)
Definition nine_variants_args : Args := {|
  arg_output := Text.lit "big.pdf";
  arg_pages := 1;
  arg_font := Text.lit "Helvetica";
  arg_font_size := 11;
  arg_with_rects := false;
  arg_no_images := false;
  arg_images_per_page := 30;
  arg_image_px := 1600;
  arg_image_variants := 9;
  arg_figure_complexity := 0;
  arg_fast := true;
  arg_vary_sizes := false;
  arg_seed := 0
|}.

(** The variant a reader was rendered for. *)
Definition variant_of (img : ImageReader) : Z := snd (fst (reader_source img)).

(** The variants of the images drawn on each committed page, from the
    commands in the order the canvas received them. *)
Fixpoint page_images (cs : list Cmd) (cur : list Z) : list (list Z) :=
  match cs with
  | [] => []
  | showPage :: cs' => rev cur :: page_images cs' []
  | drawImage img _ _ _ _ :: cs' => page_images cs' (variant_of img :: cur)
  | _ :: cs' => page_images cs' cur
  end.

(** What is observed of a run: how it ended, how many textures were
    generated, and the variants drawn page by page. *)
Definition observe (r : Outcome unit * World)
  : Outcome unit * nat * list (list Z) :=
  (fst r, calls (image_readers (snd r)),
   page_images (rev_append (canvas (snd r)) []) []).

(** The first value [randrange(n)] returns on a generator seeded [s]. *)
Definition first_pick (s n : Z) : option Z :=
  match Random.randrange n (Random.seed s) with
  | Ok (v, _) => Some v
  | _ => None
  end.

(** A small square page and configuration for trying the figure step. *)
Definition small_cfg : ImageConfig := {|
  enabled := true; per_page := 1; px := 64; variants := 2; seed := 1;
  fast := true
|}.

(** The image configuration of the script's defaults: 2 images per page
    of 1600 pixels in 3 variants, seed 0. *)
Definition default_cfg : ImageConfig := image_config zero_pages_args.

(** The red component of the first stroke colour among the commands. *)
Fixpoint first_red (cs : list Cmd) : option float :=
  match cs with
  | [] => None
  | setStrokeColorRGB r _ _ :: _ => Some r
  | _ :: cs' => first_red cs'
  end.

End ScriptProps.

(** ** Further vocabulary *)

Module TextMoreProps.
Import Text.

(** The first word of a line. *)
Definition first_word (ln : str) : option str := hd_error (split ln).

(** The room a line takes before the next word: its length, and one
    more for the separator unless it is empty. *)
Definition taken (ln : str) : Z := len ln + (if truthy ln then 1 else 0).

(** Between two consecutive lines, the first word of the second did not
    fit on the first. *)
Fixpoint greedy (max_chars : Z) (lines : list str) : Prop :=
  match lines with
  | a :: (b :: _) as rest =>
      (exists w, first_word b = Some w /\ max_chars < taken a + len w)
      /\ greedy max_chars rest
  | _ => True
  end.

End TextMoreProps.

Module ScriptMoreProps.
Import Py Reportlab Script ScriptProps.

Definition is_ok {A} (o : Outcome A) : bool :=
  match o with Ok _ => true | _ => false end.

(** The text of a body line, if the command draws one. *)
Definition body_line (c : Cmd) : option Text.str :=
  match c with
  | drawString _ _ (Plain ln) => Some ln
  | _ => None
  end.

(** The commands that draw inside a page, images apart: everything but
    the canvas, the page size, the page break, the save and
    [drawImage]. *)
Definition inner (c : Cmd) : Prop :=
  match c with
  | Canvas _ _ _ | setPageSize _ | drawImage _ _ _ _ _ | showPage | save =>
      False
  | _ => True
  end.

(** What marks the structure of the document: its creation, the size of
    each page, each image, each page break and the save. *)
Inductive Mark :=
| MCanvas (output : Text.str) (pagesize : float * float) (pageCompression : Z)
| MPage (size : float * float)
| MImage
| MShow
| MSave.

Definition mark (c : Cmd) : option Mark :=
  match c with
  | Canvas o s k => Some (MCanvas o s k)
  | setPageSize s => Some (MPage s)
  | drawImage _ _ _ _ _ => Some MImage
  | showPage => Some MShow
  | save => Some MSave
  | _ => None
  end.

Fixpoint marks (cs : list Cmd) : list Mark :=
  match cs with
  | [] => []
  | c :: cs' =>
      match mark c with
      | Some m => m :: marks cs'
      | None => marks cs'
      end
  end.

(** The structure of what the canvas received so far. *)
Definition outline (w : World) : list Mark := marks (trace w).

(** What was printed so far, in order. *)
Definition printed (w : World) : list Msg := rev (stdout w).

(** The canvas grew by commands in [P] and the output by messages in
    [Q]. *)
Definition grows (P : Cmd -> Prop) (Q : Msg -> Prop) (w w' : World) : Prop :=
  (exists cs, canvas w' = cs ++ canvas w /\ Forall P cs)
  /\ (exists ms, stdout w' = ms ++ stdout w /\ Forall Q ms).

Definition grew (P : Cmd -> Prop) (Q : Msg -> Prop) {A} (m : M A) : Prop :=
  forall w, grows P Q w (snd (m w)).

Definition unsaved (c : Cmd) : Prop := c <> save.

Definition progress_only (m : Msg) : Prop :=
  match m with Progress _ _ => True | Done _ _ => False end.

Definition no_msg (m : Msg) : Prop := False.
Definition any_msg (m : Msg) : Prop := True.

(** Observed through [obs], a run of [m] that returns adds [s]. *)
Definition adds {X} (obs : World -> list X) (s : list X) {A} (m : M A)
  : Prop :=
  forall w, is_ok (fst (m w)) = true -> obs (snd (m w)) = obs w ++ s.

(** The textures among the commands, in order. *)
Fixpoint images (cs : list Cmd) : list ImageReader :=
  match cs with
  | [] => []
  | drawImage img _ _ _ _ :: cs' => img :: images cs'
  | _ :: cs' => images cs'
  end.

(** The texture of a variant: what [_make_image_reader] renders for it
    at the configured pixel size and seed. *)
Definition texture (cfg : ImageConfig) (v : Z) : Outcome ImageReader :=
  _make_image_reader__wrapped (px cfg, v, seed cfg).

(** The variants the image loop asks for in [n] rounds from the
    generator [rng]: what [randrange(max(1, variants))] returns in each
    round.  In slow mode a round goes on to take its scale and its two
    coordinates from the same generator. *)
Fixpoint picks (cfg : ImageConfig) (n : nat) (rng : Random.state) : list Z :=
  match n with
  | O => []
  | S n' =>
      match Random.randrange (Z.max 1 (variants cfg)) rng with
      | Ok (v, rng) =>
          let rng :=
            if fast cfg then rng
            else snd (Random.random
                        (snd (Random.random (snd (Random.random rng))))) in
          v :: picks cfg n' rng
      | _ => []
      end
  end.

(** The variants page [i] asks for, on its generator
    [Random(seed + i * 7919)]. *)
Definition requested (cfg : ImageConfig) (i : Z) : list Z :=
  if enabled cfg && (per_page cfg >? 0) then
    picks cfg (Z.to_nat (per_page cfg)) (Random.seed (seed cfg + i * 7919))
  else [].

(** Every stored list of figure variants and of image positions has as
    many elements as its key asks for. *)
Definition layouts_inv (w : World) : Prop :=
  (forall k vs, In (k, vs) (entries (figure_sets w)) ->
     List.length vs = Z.to_nat (snd (fst k)))
  /\ (forall k ps, In (k, ps) (entries (image_layouts w)) ->
        List.length ps = Z.to_nat (snd (fst k))).

(** The page sizes a run uses. *)
Definition page_sizes (vary : bool) : list (float * float) :=
  if vary then [A4; LETTER; landscape A4; landscape LETTER] else [A4].

(** Every stored texture is [px] by [px]. *)
Definition squares (px : Z) (w : World) : Prop :=
  forall k r, In (k, r) (entries (image_readers w)) ->
              reader_size r = (px, px).

Definition run_inv (px : Z) (w : World) : Prop :=
  layouts_inv w /\ squares px w.

(** [m] keeps the caches sound and raises nothing but exceptions in
    [E]. *)
Definition raises_in (px : Z) (E : Exn -> Prop) {A} (m : M A) : Prop :=
  forall w, run_inv px w ->
    run_inv px (snd (m w)) /\ forall e, fst (m w) = Raise e -> E e.

Definition never (e : Exn) : Prop := False.

(** The keys under which a run asks for figures, rectangles and image
    positions: one for each page size. *)
Definition figure_keys (args : Args) : list (float * float * Z * Z * Z) :=
  map (fun s => (fst s, snd s, arg_figure_complexity args, 4, arg_seed args))
      (page_sizes (arg_vary_sizes args)).

Definition rect_keys (args : Args) : list (float * float * Z) :=
  map (fun s => (fst s, snd s, arg_seed args))
      (page_sizes (arg_vary_sizes args)).

Definition position_keys (args : Args) : list (float * float * Z * Z) :=
  map (fun s => (fst s, snd s, Z.max 0 (arg_images_per_page args),
                 arg_seed args))
      (page_sizes (arg_vary_sizes args)).

(** The number of characters [draw_page] computes for a line of text,
    before it takes the maximum with 40:
    [int((w - 2 * margin) / (font_size * 0.55))]. *)
Definition text_budget (w : float) (font_size : Z) : Outcome Z :=
  f <~ of_int font_size ;;
  if PrimFloat.eqb (f * 0.55) 0 then Raise ZeroDivisionError
  else match int_of_float ((w - 2 * margin) / (f * 0.55)) with
       | inr n => Ok n
       | inl e => Raise e
       end.

(** How the chart of page [i] ends when it is drawn in a new process. *)
Definition chart_outcome (env : Env) (args : Args) (i : Z) : Outcome unit :=
  fst (draw_page_chart env i
         (fst (page_size_for i (arg_vary_sizes args)))
         (snd (page_size_for i (arg_vary_sizes args)))
         (arg_font args) (arg_font_size args) fresh).

(** How a run can fail: Pillow is needed and missing; the text budget
    cannot be computed for one of the page sizes; a point of the chart
    of one of the pages cannot be computed; or figures are asked for
    and cannot be computed for one of the page sizes. *)
Definition main_failure (env : Env) (args : Args) (e : Exn) : Prop :=
  (e = SystemExit
         "Pillow is required for --no-images to be false. Install it with: pip install pillow"
   /\ pillow_installed env = false /\ arg_no_images args = false)
  \/ (exists s, In s (page_sizes (arg_vary_sizes args))
                /\ text_budget (fst s) (arg_font_size args) = Raise e)
  \/ (exists i, 1 <= i <= arg_pages args /\ chart_outcome env args i = Raise e)
  \/ (0 < arg_figure_complexity args
      /\ exists k, In k (figure_keys args)
                   /\ _figure_variants__wrapped env k = Raise e).

(** From a world in [I], [m] returns in a world in [I] or fails in a
    world in [J]. *)
Definition preserves (I J : World -> Prop) {A} (m : M A) : Prop :=
  forall w, I w -> if is_ok (fst (m w)) then I (snd (m w)) else J (snd (m w)).

(** A cache whose keys are distinct members of [S] and which called the
    wrapped function once for each entry it holds. *)
Definition tidy {K V} (S : list K) (c : Lru K V) : Prop :=
  NoDup (map fst (entries c))
  /\ incl (map fst (entries c)) S
  /\ calls c = List.length (entries c).

Definition layouts_tidy (args : Args) (w : World) : Prop :=
  tidy (figure_keys args) (figure_sets w)
  /\ tidy (rect_keys args) (rect_layouts w)
  /\ tidy (position_keys args) (image_layouts w).

(** Each of the three layout functions was called at most once for
    each key the run asks for. *)
Definition layouts_once (args : Args) (w : World) : Prop :=
  (calls (figure_sets w) <= List.length (figure_keys args))%nat
  /\ (calls (rect_layouts w) <= List.length (rect_keys args))%nat
  /\ (calls (image_layouts w) <= List.length (position_keys args))%nat.

(** Every cache holds, under keys the run asks for, what the wrapped
    function returns for the key. *)
Definition caches_faithful (env : Env) (args : Args) (w : World) : Prop :=
  (forall k r, In (k, r) (entries (image_readers w)) ->
     _make_image_reader__wrapped k = Ok r)
  /\ (forall k v, In (k, v) (entries (figure_sets w)) ->
        In k (figure_keys args) /\ _figure_variants__wrapped env k = Ok v)
  /\ (forall k v, In (k, v) (entries (rect_layouts w)) ->
        In k (rect_keys args) /\ _rects_for_size__wrapped k = Ok v)
  /\ (forall k v, In (k, v) (entries (image_layouts w)) ->
        In k (position_keys args) /\ _image_positions__wrapped k = Ok v).

(** From any two worlds in [F], [m] ends in the same way and sends the
    same commands to the canvas. *)
Definition agree (F : World -> Prop) {A} (m : M A) : Prop :=
  forall w1 w2, F w1 -> F w2 ->
    F (snd (m w1))
    /\ fst (m w1) = fst (m w2)
    /\ exists cs, canvas (snd (m w1)) = cs ++ canvas w1
                  /\ canvas (snd (m w2)) = cs ++ canvas w2.

(** From a world in [F], [m] stays in [F] and, when it returns, has
    sent the commands [s] to the canvas. *)
Definition draws (F : World -> Prop) (s : list Cmd) {A} (m : M A) : Prop :=
  forall w, F w ->
    F (snd (m w))
    /\ (is_ok (fst (m w)) = true -> trace (snd (m w)) = trace w ++ s).

(** What [draw_page] sends to the canvas for page [i] when it is run on
    its own, in a new process. *)
Definition page_commands (env : Env) (args : Args) (i : Z) : list Cmd :=
  trace (snd (draw_page env i
                (fst (page_size_for i (arg_vary_sizes args)))
                (snd (page_size_for i (arg_vary_sizes args)))
                (arg_font args) (arg_font_size args) (arg_with_rects args)
                (arg_figure_complexity args) (image_config args) fresh)).

(** From a world in [F], [m] stays in [F] and, when it returns, has
    drawn the images [s]. *)
Definition shows (F : World -> Prop) (s : list ImageReader) {A} (m : M A)
  : Prop :=
  forall w, F w ->
    F (snd (m w))
    /\ (is_ok (fst (m w)) = true ->
        images (trace (snd (m w))) = images (trace w) ++ s).

(** From a world in [F], [m] stays in [F] and sends only commands in
    [P] to the canvas. *)
Definition fits (F : World -> Prop) (P : Cmd -> Prop) {A} (m : M A) : Prop :=
  forall w, F w ->
    F (snd (m w))
    /\ exists cs, canvas (snd (m w)) = cs ++ canvas w /\ Forall P cs.

(** An image on a page of height [h] is no taller than 80% of the
    height between the margins. *)
Definition capped (h : float) (c : Cmd) : Prop :=
  match c with
  | drawImage _ _ _ _ height =>
      PrimFloat.ltb ((h - 2 * margin) * 0.8) height = false
  | _ => True
  end.

(** The same for a stored position. *)
Definition position_capped (h : float) (p : Rect) : Prop :=
  let '(_, _, draw_w, _) := p in
  PrimFloat.ltb ((h - 2 * margin) * 0.8) draw_w = false.

(** The marks of page [i]. *)
Definition page_marks (vary : bool) (images : nat) (i : Z) : list Mark :=
  MPage (page_size_for i vary) :: repeat MImage images ++ [MShow].

(** How many images each page gets. *)
Definition images_per_page (cfg : ImageConfig) : nat :=
  if enabled cfg then Z.to_nat (per_page cfg) else 0%nat.

Definition is_line (c : Cmd) : bool :=
  match c with line _ _ _ _ => true | _ => false end.

Definition is_circle (c : Cmd) : bool :=
  match c with circle _ _ _ => true | _ => false end.

(** The script's defaults with [--pages 2 --font-size 0]. *)
Definition zero_font_args : Args := {|
  arg_output := Text.lit "big.pdf";
  arg_pages := 2;
  arg_font := Text.lit "Helvetica";
  arg_font_size := 0;
  arg_with_rects := false;
  arg_no_images := false;
  arg_images_per_page := 2;
  arg_image_px := 1600;
  arg_image_variants := 3;
  arg_figure_complexity := 1200;
  arg_fast := false;
  arg_vary_sizes := false;
  arg_seed := 0
|}.

(** [--pages 2 --no-images --with-rects --vary-sizes] *)
Definition no_images_args : Args := {|
  arg_output := Text.lit "big.pdf";
  arg_pages := 2;
  arg_font := Text.lit "Helvetica";
  arg_font_size := 11;
  arg_with_rects := true;
  arg_no_images := true;
  arg_images_per_page := 2;
  arg_image_px := 1600;
  arg_image_variants := 3;
  arg_figure_complexity := 1200;
  arg_fast := false;
  arg_vary_sizes := true;
  arg_seed := 0
|}.

(** The script's defaults with [--pages 1 --figure-complexity 2**1024]. *)
Definition huge_complexity_args : Args := {|
  arg_output := Text.lit "big.pdf";
  arg_pages := 1;
  arg_font := Text.lit "Helvetica";
  arg_font_size := 11;
  arg_with_rects := false;
  arg_no_images := false;
  arg_images_per_page := 2;
  arg_image_px := 1600;
  arg_image_variants := 3;
  arg_figure_complexity := 2 ^ 1024;
  arg_fast := false;
  arg_vary_sizes := false;
  arg_seed := 0
|}.

(** An environment without Pillow. *)
Definition bare_env : Env :=
  {| sin := fun x => x; cos := fun x => x; pillow_installed := false |}.

End ScriptMoreProps.
(* ================================================================== *)
(** * Properties of the text layout *)
(* ================================================================== *)

Module TextFacts.
Import Text TextProps.

Example wrap_small :
  wrap_lines (lit "aa bb  cc ddddddd e") 5
  = map lit ["aa bb"; "cc"; "ddddddd"; "e"]%string.
Proof. reflexivity. Qed.

Example wrap_leading_long :
  wrap_lines (lit "abcdef gh") 3 = map lit [""; "abcdef"; "gh"]%string.
Proof. reflexivity. Qed.

Example split_small :
  split (lit "  a  bc d ") = map lit ["a"; "bc"; "d"]%string.
Proof. reflexivity. Qed.

Lemma len_nonneg s : 0 <= len s.
Proof. unfold len; lia. Qed.

Lemma len_app s t : len (s ++ t) = len s + len t.
Proof. unfold len; rewrite length_app; lia. Qed.

(** *** [split] *)

Lemma split_from_words cur s :
  Forall (fun c => isspace c = false) cur ->
  Forall is_word (split_from cur s).
Proof.
  revert cur; induction s as [|c s IH]; intros cur Hcur; simpl.
  - destruct cur; constructor; [|constructor].
    split; [discriminate|assumption].
  - destruct (isspace c) eqn:Hc.
    + destruct cur.
      * apply IH; constructor.
      * constructor; [split; [discriminate|assumption]|].
        apply IH; constructor.
    + apply IH. apply Forall_app; split; [assumption|].
      constructor; [assumption|constructor].
Qed.

Lemma split_words s : Forall is_word (split s).
Proof. apply split_from_words; constructor. Qed.

Lemma split_from_nonspace w cur s :
  Forall (fun c => isspace c = false) w ->
  split_from cur (w ++ s) = split_from (cur ++ w) s.
Proof.
  revert cur; induction w as [|c w IH]; intros cur Hw; simpl.
  - now rewrite app_nil_r.
  - inversion Hw as [|? ? Hc Hw']; subst. rewrite Hc.
    rewrite IH by assumption. now rewrite <- app_assoc.
Qed.

Lemma split_word_sep w s :
  is_word w -> split (w ++ space :: s) = w :: split s.
Proof.
  intros [Hne Hw]. unfold split.
  rewrite split_from_nonspace by assumption. simpl.
  destruct w; [contradiction|reflexivity].
Qed.

Lemma split_word_end w : is_word w -> split w = [w].
Proof.
  intros [Hne Hw]. unfold split.
  rewrite <- (app_nil_r w) at 1.
  rewrite split_from_nonspace by assumption. simpl.
  destruct w; [contradiction|reflexivity].
Qed.

(** *** [join] *)

Lemma unwords_cons w line :
  line <> [] -> unwords (w :: line) = w ++ space :: unwords line.
Proof. destruct line; [contradiction|reflexivity]. Qed.

Lemma unwords_snoc line w :
  line <> [] -> unwords (line ++ [w]) = unwords line ++ space :: w.
Proof.
  induction line as [|a line IH]; intros Hne; [contradiction|].
  destruct line as [|b line].
  - reflexivity.
  - change ((a :: b :: line) ++ [w]) with (a :: ((b :: line) ++ [w])).
    rewrite unwords_cons by (simpl; discriminate).
    rewrite IH by discriminate.
    rewrite (unwords_cons a (b :: line)) by discriminate.
    now rewrite <- app_assoc.
Qed.

Lemma len_unwords_snoc line w :
  line <> [] -> len (unwords (line ++ [w])) = len (unwords line) + 1 + len w.
Proof.
  intros Hne. rewrite unwords_snoc by assumption.
  rewrite len_app. unfold len at 2. simpl List.length. fold (len w).
  unfold len. lia.
Qed.

Lemma split_unwords ws : Forall is_word ws -> split (unwords ws) = ws.
Proof.
  induction ws as [|w ws IH]; intros Hws; [reflexivity|].
  inversion Hws as [|? ? Hw Hws']; subst.
  destruct ws as [|v ws].
  - simpl. now apply split_word_end.
  - rewrite unwords_cons by discriminate.
    rewrite split_word_sep by assumption. now rewrite IH.
Qed.

(** Lines joined by single spaces: every line is a space-joined group of
    words, an empty group giving an empty line. *)
Lemma split_join_groups gs :
  Forall (Forall is_word) gs ->
  split (join [space] (map unwords gs)) = List.concat gs.
Proof.
  induction gs as [|g gs IH]; intros Hgs; [reflexivity|].
  inversion Hgs as [|? ? Hg Hgs']; subst.
  destruct gs as [|g' gs].
  - simpl. rewrite app_nil_r. now apply split_unwords.
  - change (join [space] (map unwords (g :: g' :: gs)))
      with (unwords g ++ space :: join [space] (map unwords (g' :: gs))).
    change (List.concat (g :: g' :: gs)) with (g ++ List.concat (g' :: gs)).
    rewrite <- IH by assumption.
    clear IH Hgs Hgs'. set (rest := join _ _). clearbody rest.
    induction g as [|w g IHg].
    + reflexivity.
    + inversion Hg as [|? ? Hw Hg']; subst.
      destruct g as [|v g].
      * simpl. now rewrite split_word_sep.
      * rewrite unwords_cons by discriminate.
        rewrite <- app_assoc. simpl.
        change (w ++ space :: unwords (v :: g) ++ space :: rest)
          with (w ++ space :: (unwords (v :: g) ++ space :: rest)).
        rewrite split_word_sep by assumption.
        now rewrite IHg.
Qed.

(** *** The wrapping loop *)

(** The yielded lines are the space-joined groups of a partition of the
    pending line followed by the remaining words. *)
Lemma wrap_loop_groups mc ws : forall line n,
  exists gs, wrap_loop mc ws line n = map unwords gs
             /\ List.concat gs = line ++ ws.
Proof.
  induction ws as [|w ws IH]; intros line n; simpl.
  - destruct line as [|a line]; simpl.
    + exists []. split; reflexivity.
    + exists [a :: line]. split; [reflexivity|].
      simpl. now rewrite !app_nil_r.
  - destruct (n + _ >? mc).
    + destruct (IH [w] (len w)) as [gs [E C]].
      exists (line :: gs). split; [simpl; now rewrite E|].
      simpl. now rewrite C.
    + destruct line as [|a line]; simpl.
      * apply IH.
      * destruct (IH ((a :: line) ++ [w]) (n + (len w + 1))) as [gs [E C]].
        exists gs. split; [exact E|].
        rewrite C. now rewrite <- app_assoc.
Qed.

Lemma wrap_inv_single mc all w :
  In w all -> w <> [] -> wrap_inv mc all [w] (len w).
Proof.
  intros Hin Hne. right. split; [discriminate|]. split; [reflexivity|].
  destruct (Z_le_gt_dec (len w) mc); [left; assumption|].
  right. exists w. repeat split; [assumption|lia].
Qed.

Lemma wrap_inv_line_ok mc all line n :
  0 <= mc -> wrap_inv mc all line n -> line_ok mc all (unwords line).
Proof.
  intros Hmc [[-> _]|[Hne [Hn [Hle|[w [-> [Hin Hlt]]]]]]].
  - left. exact Hmc.
  - left. lia.
  - right. split; assumption.
Qed.

Lemma wrap_loop_ok mc all ws : 0 <= mc ->
  forall line n,
    incl ws all -> Forall is_word ws ->
    wrap_inv mc all line n ->
    Forall (line_ok mc all) (wrap_loop mc ws line n).
Proof.
  intros Hmc. induction ws as [|w ws IH]; intros line n Hincl Hws Hinv; simpl.
  - destruct line as [|a line]; simpl; constructor; [|constructor].
    eapply wrap_inv_line_ok; eassumption.
  - inversion Hws as [|? ? Hw Hws']; subst.
    assert (Hin : In w all) by (apply Hincl; left; reflexivity).
    assert (Hincl' : incl ws all)
      by (intros x Hx; apply Hincl; right; exact Hx).
    assert (Hne : w <> []) by apply Hw.
    destruct (n + _ >? mc) eqn:Hov.
    + constructor.
      * eapply wrap_inv_line_ok; eassumption.
      * apply IH; try assumption. now apply wrap_inv_single.
    + destruct line as [|a line]; simpl in *.
      * apply IH; try assumption. now apply wrap_inv_single.
      * apply IH; try assumption.
        right. split; [destruct line; discriminate|].
        destruct Hinv as [[Hnil _]|[_ [Hn _]]]; [discriminate|].
        split.
        -- change (a :: line ++ [w]) with ((a :: line) ++ [w]).
           rewrite len_unwords_snoc by discriminate. lia.
        -- left. lia.
Qed.

Lemma wrap_lines_line_ok text mc :
  0 <= mc -> Forall (line_ok mc (split text)) (wrap_lines text mc).
Proof.
  intros Hmc. apply wrap_loop_ok; try assumption.
  - apply incl_refl.
  - apply split_words.
  - left; split; reflexivity.
Qed.

Lemma in_unwords_len w g : In w g -> len w <= len (unwords g).
Proof.
  induction g as [|a g IH]; [intros []|].
  destruct g as [|b g].
  - intros [->|[]]. apply Z.le_refl.
  - rewrite unwords_cons by discriminate. rewrite len_app.
    change (len (space :: unwords (b :: g)))
      with (Z.of_nat (S (List.length (unwords (b :: g))))).
    fold (len (unwords (b :: g))) in *. rewrite Nat2Z.inj_succ.
    fold (len (unwords (b :: g))).
    pose proof (len_nonneg a). pose proof (len_nonneg (unwords (b :: g))).
    intros [->|Hin]; [lia|]. specialize (IH Hin). lia.
Qed.

Lemma word_no_space w : is_word w -> ~ In space w.
Proof.
  intros [_ Hw] Hin. rewrite Forall_forall in Hw.
  specialize (Hw _ Hin). discriminate Hw.
Qed.

Lemma unwords_word g : is_word (unwords g) -> exists w, g = [w].
Proof.
  destruct g as [|a [|b g]]; intros Hw.
  - destruct Hw as [Hne _]. now contradiction Hne.
  - now exists a.
  - exfalso. apply (word_no_space _ Hw).
    rewrite unwords_cons by discriminate.
    apply in_or_app. right. now left.
Qed.

(** *** The claims *)

(** C3 (as amended): for every text and every budget [max_chars >= 0],
    each line of [wrap_lines text max_chars] has at most [max_chars]
    characters, or is exactly one word of the text that is longer than
    [max_chars]; and every word of the text longer than [max_chars] is
    such a line (alone on its line, unmodified). *)
Theorem wrap_lines_bounded (text : str) (max_chars : Z) :
  0 <= max_chars ->
  Forall (fun ln => len ln <= max_chars \/
                    (In ln (split text) /\ is_word ln /\ max_chars < len ln))
         (wrap_lines text max_chars)
  /\ (forall w, In w (split text) -> max_chars < len w ->
                In w (wrap_lines text max_chars)).
Proof.
  intros Hmc. pose proof (wrap_lines_line_ok text max_chars Hmc) as H.
  pose proof (split_words text) as Hw. rewrite Forall_forall in Hw.
  split.
  - eapply Forall_impl; [|exact H].
    intros ln [Hle|[Hin Hlt]]; [left; exact Hle|right].
    repeat split; try assumption; apply (Hw _ Hin).
  - intros w Hin Hlt. rewrite Forall_forall in H. unfold wrap_lines in *.
    destruct (wrap_loop_groups max_chars (split text) [] 0) as [gs [E C]].
    simpl in C. rewrite <- C in Hin. apply in_concat in Hin.
    destruct Hin as [g [Hg Hwg]].
    assert (Hl : In (unwords g) (wrap_loop max_chars (split text) [] 0))
      by (rewrite E; now apply in_map).
    pose proof (in_unwords_len _ _ Hwg) as Hlen.
    destruct (H _ Hl) as [Hle|[Hin' _]]; [lia|].
    destruct (unwords_word g (Hw _ Hin')) as [w' ->].
    destruct Hwg as [->|[]]. exact Hl.
Qed.

Lemma wrap_lines_bounded_witness :
  0 <= 5 /\
  Forall (fun ln => len ln <= 5 \/
            (In ln (split (lit "aa bb  cc ddddddd e")) /\ is_word ln
             /\ 5 < len ln))
         (wrap_lines (lit "aa bb  cc ddddddd e") 5)
  /\ (forall w, In w (split (lit "aa bb  cc ddddddd e")) -> 5 < len w ->
                In w (wrap_lines (lit "aa bb  cc ddddddd e") 5)).
Proof.
  split; [lia|]. apply (wrap_lines_bounded (lit "aa bb  cc ddddddd e") 5). lia.
Defined.

(** C3 (as stated) fails at a negative budget: [wrap_lines "a" (-1)]
    yields the empty line first, which is longer than the budget and is
    not a word. *)
Lemma wrap_lines_negative_budget :
  wrap_lines (lit "a") (-1) = [lit ""; lit "a"] /\
  ~ Forall (fun ln => len ln <= -1 \/
              (In ln (split (lit "a")) /\ is_word ln /\ -1 < len ln))
           (wrap_lines (lit "a") (-1)).
Proof.
  split; [reflexivity|].
  intros H. inversion H as [|? ? H1 _]; subst.
  destruct H1 as [Hle|[_ [[Hne _] _]]].
  - vm_compute in Hle. apply Hle. reflexivity.
  - apply Hne. reflexivity.
Qed.

(** C9: joining the lines of [wrap_lines text max_chars] with single
    spaces and splitting on whitespace gives back the words of [text],
    in order. *)
Theorem wrap_lines_words (text : str) (max_chars : Z) :
  split (join [space] (wrap_lines text max_chars)) = split text.
Proof.
  unfold wrap_lines.
  destruct (wrap_loop_groups max_chars (split text) [] 0) as [gs [E C]].
  rewrite E. rewrite split_join_groups.
  - exact C.
  - pose proof (split_words text) as Hw. simpl in C. rewrite <- C in Hw.
    clear -Hw. induction gs as [|g gs IH]; constructor.
    + simpl in Hw. apply Forall_app in Hw. apply Hw.
    + apply IH. simpl in Hw. apply Forall_app in Hw. apply Hw.
Qed.

(** C10: when the first word of the text is longer than [max_chars],
    [wrap_lines] yields the empty string first and the oversized word,
    alone, second. *)
Theorem wrap_lines_leading_empty (text : str) (max_chars : Z)
        (w : str) (rest : list str) :
  split text = w :: rest ->
  max_chars < len w ->
  exists tl, wrap_lines text max_chars = [] :: w :: tl.
Proof.
  intros Hs Hlt. unfold wrap_lines. rewrite Hs.
  assert (E : forall x, max_chars < x -> (x >? max_chars) = true)
    by (intros x Hx; apply Z.gtb_lt; lia).
  cbn [wrap_loop truthy]. rewrite E by lia.
  destruct rest as [|v rest]; cbn [wrap_loop truthy].
  - exists []. reflexivity.
  - rewrite E by (pose proof (len_nonneg v); lia).
    eexists. reflexivity.
Qed.

Lemma wrap_lines_leading_empty_witness :
  exists tl, wrap_lines (lit "abcdef gh") 3 = [] :: lit "abcdef" :: tl.
Proof.
  apply (wrap_lines_leading_empty (lit "abcdef gh") 3 (lit "abcdef") [lit "gh"]).
  - reflexivity.
  - vm_compute. reflexivity.
Defined.

End TextFacts.

(* ================================================================== *)
(** * Properties of the script *)
(* ================================================================== *)

Module ScriptFacts.
Import Py Reportlab Script ScriptProps.

(** ** Page geometry *)

Example A4_points :
  A4 = (595.27559055118115, 841.8897637795277)%float.
Proof. reflexivity. Qed.

Example LETTER_points : LETTER = (612, 792)%float.
Proof. reflexivity. Qed.

Ltac floats_differ H :=
  first
    [ apply (f_equal (fun p => PrimFloat.eqb (fst p) (fst A4))) in H;
      vm_compute in H; discriminate H
    | apply (f_equal (fun p => PrimFloat.eqb (fst p) (fst LETTER))) in H;
      vm_compute in H; discriminate H
    | apply (f_equal (fun p => PrimFloat.eqb (fst p) (snd A4))) in H;
      vm_compute in H; discriminate H ].

Lemma page_sizes_distinct :
  NoDup [LETTER; landscape A4; landscape LETTER; A4].
Proof.
  repeat constructor; intros H; simpl in H;
    repeat (destruct H as [H|H]; [floats_differ H|]); exact H.
Qed.

Lemma page_size_for_mod i :
  page_size_for i true = page_size_for (i mod 4) true.
Proof.
  unfold page_size_for. simpl. now rewrite Z.mod_mod by lia.
Qed.

(** C4: with size-varying on, pages 1..4 get four pairwise distinct
    sizes (LETTER and A4, each upright and turned), the size of page
    [i + 4] is the size of page [i], and with size-varying off every
    page is A4. *)
Theorem page_size_cycling :
  map (fun i => page_size_for i true) [1; 2; 3; 4]
    = [LETTER; landscape A4; landscape LETTER; A4]
  /\ NoDup (map (fun i => page_size_for i true) [1; 2; 3; 4])
  /\ (forall i, page_size_for (i + 4) true = page_size_for i true)
  /\ (forall i, page_size_for i false = A4).
Proof.
  split; [reflexivity|]. split; [exact page_sizes_distinct|]. split.
  - intros i. rewrite (page_size_for_mod (i + 4)), (page_size_for_mod i).
    f_equal. replace (i + 4) with (i + 1 * 4) by lia.
    apply Z.mod_add. lia.
  - reflexivity.
Qed.

(** The turned sizes are wider than high, the upright ones are not. *)
Lemma page_orientations :
  map (fun s => PrimFloat.ltb (snd s) (fst s))
      [LETTER; landscape A4; landscape LETTER; A4]
  = [false; true; true; false].
Proof. reflexivity. Qed.

(** ** Running monadic code *)

Lemma bind_ok {A B} (m : M A) (f : A -> M B) w a w' :
  m w = (Ok a, w') -> bind m f w = f a w'.
Proof. unfold bind. now intros ->. Qed.

(** ** Loops that collect *)

Lemma for_all_cons {A B} (f : A -> Outcome B) a l bs :
  for_all f (a :: l) = Ok bs ->
  exists b bs', f a = Ok b /\ for_all f l = Ok bs' /\ bs = b :: bs'.
Proof.
  cbn [for_all]. unfold and_then.
  destruct (f a) as [b| |]; [|discriminate|discriminate].
  destruct (for_all f l) as [bs'| |]; [|discriminate|discriminate].
  intros E. injection E as <-. now exists b, bs'.
Qed.

Lemma for_all_length {A B} (f : A -> Outcome B) l : forall bs,
  for_all f l = Ok bs -> List.length bs = List.length l.
Proof.
  induction l as [|a l IH]; intros bs E.
  - injection E as <-. reflexivity.
  - apply for_all_cons in E. destruct E as [b [bs' [_ [E ->]]]].
    cbn [List.length]. now rewrite (IH bs' E).
Qed.

Lemma for_all_each {A B} (f : A -> Outcome B) (P : B -> Prop) l :
  (forall a b, In a l -> f a = Ok b -> P b) ->
  forall bs, for_all f l = Ok bs -> Forall P bs.
Proof.
  induction l as [|a l IH]; intros Hf bs E.
  - injection E as <-. constructor.
  - apply for_all_cons in E. destruct E as [b [bs' [Eb [E ->]]]].
    constructor.
    + apply (Hf a b); [now left|exact Eb].
    + apply IH; [|exact E]. intros a' b' Hin. apply Hf. now right.
Qed.

Lemma for_all_in {A B} (f : A -> Outcome B) l : forall bs b,
  for_all f l = Ok bs -> In b bs -> exists a, In a l /\ f a = Ok b.
Proof.
  induction l as [|a l IH]; intros bs b E Hb.
  - injection E as <-. destruct Hb.
  - apply for_all_cons in E. destruct E as [b0 [bs' [Eb [E ->]]]].
    destruct Hb as [<-|Hb].
    + exists a. split; [now left|exact Eb].
    + destruct (IH bs' b E Hb) as [a' [Hin Ha']].
      exists a'. split; [now right|exact Ha'].
Qed.

(** An exception of the loop is an exception of one of its rounds. *)
Lemma for_all_raise {A B} (f : A -> Outcome B) l e :
  for_all f l = Raise e -> exists a, In a l /\ f a = Raise e.
Proof.
  induction l as [|a l IH]; [discriminate|].
  cbn [for_all]. unfold and_then.
  destruct (f a) as [b|e'|] eqn:Ea; [| |discriminate].
  - destruct (for_all f l) as [bs|e'|] eqn:El; [discriminate| |discriminate].
    intros E. injection E as ->.
    destruct (IH eq_refl) as [a' [Hin Ha']]. exists a'. split; [now right|].
    exact Ha'.
  - intros E. injection E as ->. exists a. split; [now left|exact Ea].
Qed.

Lemma range2_empty a b : b <= a -> range2 a b = [].
Proof.
  intros H. unfold range2. replace (Z.to_nat (b - a)) with 0%nat by lia.
  reflexivity.
Qed.

(** ** [main] on a non-positive page count *)

Lemma main_no_pages env args :
  arg_pages args <= 0 ->
  arg_no_images args = true \/ pillow_installed env = true ->
  main env args fresh = (Ok tt, no_pages_world args).
Proof.
  intros Hp Hi. unfold main.
  rewrite range2_empty by lia.
  assert (E : (if enabled (image_config args) then _require_pillow env
               else ret tt) = ret tt).
  { unfold image_config, _require_pillow; simpl.
    destruct Hi as [-> | ->]; [reflexivity|].
    now destruct (arg_no_images args). }
  rewrite E. unfold no_pages_world.
  destruct (page_size_for 1 (arg_vary_sizes args)) as [w h].
  reflexivity.
Qed.

(** C8 (as amended): a non-positive page count is not rejected.  When
    Pillow is installed or images are off, [main] returns normally:
    it creates the canvas, draws no page, saves, and reports the page
    count it was given. *)
Theorem main_accepts_nonpositive_pages env args :
  arg_pages args <= 0 ->
  arg_no_images args = true \/ pillow_installed env = true ->
  fst (main env args fresh) = Ok tt
  /\ trace (snd (main env args fresh))
     = [Canvas (arg_output args) (page_size_for 1 (arg_vary_sizes args))
               (if arg_fast args then 0 else 1);
        save]
  /\ stdout (snd (main env args fresh))
     = [Done (arg_pages args) (arg_output args)].
Proof.
  intros Hp Hi. rewrite (main_no_pages env args Hp Hi).
  repeat split.
Qed.

Lemma main_accepts_nonpositive_pages_witness :
  fst (main test_env zero_pages_args fresh) = Ok tt
  /\ trace (snd (main test_env zero_pages_args fresh))
     = [Canvas (Text.lit "big.pdf") A4 1; save]
  /\ stdout (snd (main test_env zero_pages_args fresh))
     = [Done 0 (Text.lit "big.pdf")].
Proof.
  apply (main_accepts_nonpositive_pages test_env zero_pages_args).
  - simpl. lia.
  - right. reflexivity.
Defined.

(** C8 (as stated) fails: with [--pages 0] the run ends without an
    exception, in every environment in which Pillow is installed. *)
Lemma zero_pages_not_rejected :
  (forall env, pillow_installed env = true ->
     fst (main env zero_pages_args fresh) = Ok tt)
  /\ ~ (forall env args, arg_pages args <= 0 ->
          exists e, fst (main env args fresh) = Raise e).
Proof.
  split.
  - intros env Hp. rewrite (main_no_pages env zero_pages_args).
    + reflexivity.
    + simpl. lia.
    + right. exact Hp.
  - intros H. destruct (H test_env zero_pages_args) as [e He].
    + simpl. lia.
    + rewrite (main_no_pages test_env zero_pages_args) in He.
      * discriminate He.
      * simpl. lia.
      * right. reflexivity.
Qed.

(** ** The heavy figures *)

Lemma trace_emit c w : trace (snd (emit c w)) = trace w ++ [c].
Proof. reflexivity. Qed.

Lemma emit_all_run cs : forall w,
  exists w', emit_all cs w = (Ok tt, w')
             /\ canvas w' = rev cs ++ canvas w
             /\ stdout w' = stdout w
             /\ global_rng w' = global_rng w
             /\ image_readers w' = image_readers w
             /\ figure_sets w' = figure_sets w
             /\ rect_layouts w' = rect_layouts w
             /\ image_layouts w' = image_layouts w.
Proof.
  induction cs as [|c cs IH]; intros w.
  - exists w. repeat split.
  - destruct (IH (snd (emit c w))) as [w' [E [Hc H]]].
    exists w'. split.
    + unfold emit_all in *. simpl. unfold bind at 1. simpl. exact E.
    + split; [|exact H]. rewrite Hc. simpl. now rewrite <- app_assoc.
Qed.

(** A call of [_figure_variants] whose wrapped function returns [vs],
    from a world whose cache holds nothing else under that key. *)
Lemma figure_variants_run env w h complexity variants seed wd vs :
  _figure_variants__wrapped env (w, h, complexity, variants, seed) = Ok vs ->
  (forall vs', lookup figkey_eqb (w, h, complexity, variants, seed)
                      (entries (figure_sets wd)) = Some vs' -> vs' = vs) ->
  exists wd', _figure_variants env w h complexity variants seed wd = (Ok vs, wd')
              /\ canvas wd' = canvas wd.
Proof.
  intros Hf Hc. unfold _figure_variants, lru_cache.
  destruct (lookup figkey_eqb _ _) as [vs'|] eqn:L.
  - rewrite (Hc vs' eq_refl). eexists; split; reflexivity.
  - rewrite Hf. eexists; split; reflexivity.
Qed.

Lemma figure_variants_length env w h complexity variants seed vs :
  _figure_variants__wrapped env (w, h, complexity, variants, seed) = Ok vs ->
  List.length vs = Z.to_nat variants.
Proof.
  unfold _figure_variants__wrapped.
  destruct (grid_rows _ _ _ _ _); [|discriminate].
  intros E. apply for_all_length in E. rewrite E.
  unfold range. now rewrite !length_map, length_seq.
Qed.

Lemma page_size_cases i vary :
  In (page_size_for i vary) [A4; LETTER; landscape A4; landscape LETTER].
Proof.
  unfold page_size_for. destruct vary; simpl negb; cbv iota.
  - destruct (i mod 4 =? 0); [now left|].
    destruct (i mod 4 =? 1); [right; now left|].
    destruct (i mod 4 =? 2); [right; right; now left|].
    right; right; right; now left.
  - now left.
Qed.

(** The figure step from a world whose cache holds nothing else under
    the key: it draws element [i mod 4] of what the generator returns. *)
Lemma draw_page_figures_run env i w h figure_complexity img_cfg wd vs :
  0 < figure_complexity ->
  _figure_variants__wrapped env
    (w, h, figure_complexity, 4, seed img_cfg) = Ok vs ->
  (forall vs', lookup figkey_eqb (w, h, figure_complexity, 4, seed img_cfg)
                      (entries (figure_sets wd)) = Some vs' -> vs' = vs) ->
  List.length vs = 4%nat /\
  exists fv wd',
    nth_error vs (Z.to_nat (i mod 4)) = Some fv
    /\ draw_page_figures env i w h figure_complexity img_cfg wd = (Ok tt, wd')
    /\ trace wd' = trace wd ++ [saveState; setLineWidth 0.4]
                    ++ variant_strokes fv ++ [restoreState].
Proof.
  intros Hpos Hf Hc.
  pose proof (figure_variants_length _ _ _ _ _ _ _ Hf) as Hlen.
  change (Z.to_nat 4) with 4%nat in Hlen.
  split; [exact Hlen|].
  assert (Hi : (Z.to_nat (i mod 4) < List.length vs)%nat).
  { rewrite Hlen. pose proof (Z.mod_pos_bound i 4 ltac:(lia)). lia. }
  destruct (nth_error vs (Z.to_nat (i mod 4))) as [fv|] eqn:Hn;
    [|apply nth_error_None in Hn; lia].
  unfold draw_page_figures.
  replace (figure_complexity >? 0) with true
    by (symmetry; apply Z.gtb_lt; lia).
  unfold draw_heavy_figures.
  set (w1 := snd (emit (setLineWidth 0.4) (snd (emit saveState wd)))).
  destruct (figure_variants_run env w h figure_complexity 4 (seed img_cfg)
                                w1 vs Hf) as [w2 [E2 C2]].
  { exact Hc. }
  destruct (emit_all_run (variant_strokes fv) w2) as [w3 [E3 [C3 _]]].
  exists fv, (snd (emit restoreState w3)). split; [reflexivity|]. split.
  - rewrite (bind_ok _ _ wd tt (snd (emit saveState wd))) by reflexivity.
    rewrite (bind_ok _ _ _ tt w1) by reflexivity.
    rewrite (bind_ok _ _ _ _ _ E2).
    rewrite Hlen.
    rewrite (bind_ok _ _ w2 tt w2) by reflexivity.
    change (Z.of_nat 4) with 4. rewrite Hn.
    rewrite (bind_ok _ _ _ _ _ E3). reflexivity.
  - rewrite trace_emit. unfold trace. rewrite C3, C2. subst w1. simpl.
    rewrite rev_app_distr, rev_involutive. simpl.
    rewrite <- !app_assoc. reflexivity.
Qed.


(** ** Steps that neither touch the texture cache nor draw an image *)

Lemma quiet_ret {A} (a : A) : quiet (ret a).
Proof. intros w. split; [reflexivity|]. exists []. now split. Qed.

Lemma quiet_raise {A} e : quiet (@raise A e).
Proof. intros w. split; [reflexivity|]. exists []. now split. Qed.

Lemma quiet_lift {A} (o : Outcome A) : quiet (lift o).
Proof. intros w. split; [reflexivity|]. exists []. now split. Qed.

Lemma quiet_print m : quiet (print m).
Proof. intros w. split; [reflexivity|]. exists []. now split. Qed.

Lemma quiet_random_seed a : quiet (random_seed a).
Proof. intros w. split; [reflexivity|]. exists []. now split. Qed.

Lemma quiet_emit c : plain c -> quiet (emit c).
Proof.
  intros Hc w. split; [reflexivity|]. exists [c]. split; [reflexivity|].
  now constructor.
Qed.

Lemma quiet_bind {A B} (m : M A) (f : A -> M B) :
  quiet m -> (forall a, quiet (f a)) -> quiet (bind m f).
Proof.
  intros Hm Hf w. destruct (Hm w) as [E [cs [C P]]]. unfold bind.
  destruct (m w) as [[a| |] w']; simpl in *;
    try (split; [assumption|exists cs; now split]).
  destruct (Hf a w') as [E' [cs' [C' P']]]. split; [congruence|].
  exists (cs' ++ cs). split.
  - rewrite C', C. apply app_assoc.
  - apply Forall_app. now split.
Qed.

Lemma quiet_for_each {A} (l : list A) body :
  (forall a, quiet (body a)) -> quiet (for_each l body).
Proof.
  intros Hb. induction l as [|a l IH]; simpl.
  - apply quiet_ret.
  - apply quiet_bind; [apply Hb|intros _; exact IH].
Qed.

Lemma quiet_emit_all cs : Forall plain cs -> quiet (emit_all cs).
Proof.
  induction 1 as [|c cs Hc Hcs IH]; simpl.
  - apply quiet_ret.
  - apply quiet_bind; [now apply quiet_emit|intros _; exact IH].
Qed.

Lemma quiet_fdiv a b : quiet (fdiv a b).
Proof.
  unfold fdiv. destruct (PrimFloat.eqb b 0);
    [apply quiet_raise|apply quiet_ret].
Qed.

Lemma quiet_truediv a b : quiet (truediv a b).
Proof.
  unfold truediv. destruct (b =? 0); [apply quiet_raise|].
  cbv zeta. destruct (PrimFloat.eqb _ _); [apply quiet_raise|apply quiet_ret].
Qed.

Lemma quiet_int x : quiet (int x).
Proof.
  unfold int. destruct (int_of_float x); [apply quiet_raise|apply quiet_ret].
Qed.

Lemma quiet_require_pillow env : quiet (_require_pillow env).
Proof.
  unfold _require_pillow. destruct (pillow_installed env);
    [apply quiet_ret|apply quiet_raise].
Qed.

Lemma quiet_figure_variants env w h c v s :
  quiet (_figure_variants env w h c v s).
Proof.
  intros wd. unfold _figure_variants. destruct (lru_cache _ _ _ _ _).
  split; [reflexivity|]. exists []. now split.
Qed.

Lemma quiet_rects_for_size w h s : quiet (_rects_for_size w h s).
Proof.
  intros wd. unfold _rects_for_size. destruct (lru_cache _ _ _ _ _).
  split; [reflexivity|]. exists []. now split.
Qed.

Lemma quiet_image_positions w h n s : quiet (_image_positions w h n s).
Proof.
  intros wd. unfold _image_positions. destruct (lru_cache _ _ _ _ _).
  split; [reflexivity|]. exists []. now split.
Qed.

(** The command lists of the page are free of images. *)

Lemma plain_body_text x0 line_h lines : forall y,
  Forall plain (body_text x0 y line_h lines).
Proof.
  induction lines as [|ln lines IH]; intros y; simpl; [constructor|].
  destruct (PrimFloat.ltb y _); constructor; [exact I|apply IH].
Qed.

Lemma plain_segments (ps : list (Point * Point)) :
  Forall plain
    (map (fun s => let '((x1, y1), (x2, y2)) := s in line x1 y1 x2 y2) ps).
Proof.
  induction ps as [|[[x1 y1] [x2 y2]] ps IH]; simpl; constructor;
    [exact I|exact IH].
Qed.

Lemma plain_rects (rs : list Rect) :
  Forall plain
    (map (fun r => let '(rx, ry, rw, rh) := r in rect rx ry rw rh) rs).
Proof.
  induction rs as [|[[[rx ry] rw] rh] rs IH]; simpl; constructor;
    [exact I|exact IH].
Qed.

Lemma plain_variant_strokes fv : Forall plain (variant_strokes fv).
Proof.
  unfold variant_strokes. apply Forall_app. split.
  - induction (combine (colors fv) (paths fv)) as [|[[[r g] b] pts] l IH];
      simpl; [constructor|].
    constructor; [exact I|]. apply Forall_app. split; [|exact IH].
    apply plain_segments.
  - constructor; [exact I|].
    induction (grid fv) as [|[x y] l IH]; simpl; constructor;
      [exact I|exact IH].
Qed.

Ltac quiet_step :=
  lazymatch goal with
  | |- quiet (bind _ _) => simple apply quiet_bind; [|intros ?]
  | |- quiet (ret _) => simple apply quiet_ret
  | |- quiet (raise _) => simple apply quiet_raise
  | |- quiet (lift _) => simple apply quiet_lift
  | |- quiet (emit _) => simple apply quiet_emit; exact I
  | |- quiet (print _) => simple apply quiet_print
  | |- quiet (random_seed _) => simple apply quiet_random_seed
  | |- quiet (emit_all _) =>
      simple apply quiet_emit_all;
      first [ simple apply plain_body_text | simple apply plain_segments
            | simple apply plain_rects | simple apply plain_variant_strokes ]
  | |- quiet (fdiv _ _) => simple apply quiet_fdiv
  | |- quiet (truediv _ _) => simple apply quiet_truediv
  | |- quiet (int _) => simple apply quiet_int
  | |- quiet (_require_pillow _) => simple apply quiet_require_pillow
  | |- quiet (_figure_variants _ _ _ _ _ _) =>
      simple apply quiet_figure_variants
  | |- quiet (_rects_for_size _ _ _) => simple apply quiet_rects_for_size
  | |- quiet (_image_positions _ _ _ _) => simple apply quiet_image_positions
  | |- quiet (if ?b then _ else _) => destruct b
  | |- quiet (match ?x with _ => _ end) => destruct x
  end.

Ltac quiet_tac := cbv zeta; repeat quiet_step.

Lemma quiet_draw_page_text i w h font_name font_size :
  quiet (draw_page_text i w h font_name font_size).
Proof. unfold draw_page_text. quiet_tac. Qed.

Lemma quiet_draw_page_chart env i w h font_name font_size :
  quiet (draw_page_chart env i w h font_name font_size).
Proof. unfold draw_page_chart. quiet_tac. Qed.

Lemma quiet_draw_page_figures env i w h fc c :
  quiet (draw_page_figures env i w h fc c).
Proof. unfold draw_page_figures, draw_heavy_figures. quiet_tac. Qed.

Lemma quiet_draw_page_rects i w h wr c : quiet (draw_page_rects i w h wr c).
Proof. unfold draw_page_rects. quiet_tac. Qed.

(** Drawing, images included, leaves the texture cache alone. *)

Lemma frame_quiet {A} (m : M A) : quiet m -> frame m.
Proof. intros Q w. apply Q. Qed.

Lemma frame_emit c : frame (emit c).
Proof. intros w. reflexivity. Qed.

Lemma frame_bind {A B} (m : M A) (f : A -> M B) :
  frame m -> (forall a, frame (f a)) -> frame (bind m f).
Proof.
  intros Hm Hf w. specialize (Hm w). unfold bind.
  destruct (m w) as [[a| |] w']; simpl in *; try assumption.
  now rewrite Hf.
Qed.

Ltac frame_step :=
  lazymatch goal with
  | |- frame (bind _ _) => simple apply frame_bind; [|intros ?]
  | |- frame (emit _) => simple apply frame_emit
  | |- frame (if ?b then _ else _) => destruct b
  | |- frame (match ?x with _ => _ end) => destruct x
  | |- frame _ => simple apply frame_quiet; quiet_tac
  end.

Ltac frame_tac := cbv zeta; repeat frame_step.

(** ** The texture cache *)

Lemma key3_eqb_eq a b : key3_eqb a b = true <-> a = b.
Proof.
  destruct a as [[a1 a2] a3], b as [[b1 b2] b3]. unfold key3_eqb.
  rewrite !andb_true_iff, !Z.eqb_eq. split.
  - intros [[-> ->] ->]. reflexivity.
  - intros E. injection E as -> -> ->. repeat split.
Qed.

Section Lookup.
Context {V : Type}.
Implicit Types (l : list (Z * Z * Z * V)) (k : Z * Z * Z).

Lemma lookup_none k l :
  lookup key3_eqb k l = None -> ~ In k (map fst l).
Proof.
  induction l as [|[k' v] l IH]; simpl; [tauto|].
  destruct (key3_eqb k k') eqn:E; [discriminate|].
  intros H [Hk|Hin]; [|now apply IH].
  subst k'. assert (key3_eqb k k = true) by now apply key3_eqb_eq.
  congruence.
Qed.

Lemma remove_incl k l : incl (map fst (remove key3_eqb k l)) (map fst l).
Proof.
  induction l as [|[k' v] l IH]; simpl; [apply incl_refl|].
  destruct (key3_eqb k k').
  - apply incl_tl, incl_refl.
  - apply incl_cons; [left; reflexivity|]. now apply incl_tl.
Qed.

Lemma remove_hit k l v :
  lookup key3_eqb k l = Some v ->
  NoDup (map fst l) ->
  NoDup (k :: map fst (remove key3_eqb k l))
  /\ S (List.length (remove key3_eqb k l)) = List.length l.
Proof.
  induction l as [|[k' v'] l IH]; simpl; [discriminate|].
  intros Hl Hnd. inversion Hnd as [|? ? Hnotin Hnd']; subst.
  destruct (key3_eqb k k') eqn:E.
  - apply key3_eqb_eq in E. subst k'. split; [|reflexivity].
    now constructor.
  - destruct (IH Hl Hnd') as [Hn Hlen]. split; [|simpl; now rewrite Hlen].
    inversion Hn as [|? ? Hk Hr]; subst.
    constructor.
    + simpl. intros [Hk'|Hin]; [|contradiction].
      subst k'. assert (key3_eqb k k = true) by now apply key3_eqb_eq.
      congruence.
    + constructor; [|assumption].
      intros Hin. apply Hnotin. eapply remove_incl; eassumption.
Qed.
End Lookup.

Lemma randbelow_loop_lt fuel n k s r s' :
  Random.randbelow_loop fuel n k s = Some (r, s') -> (r < n)%N.
Proof.
  revert s; induction fuel as [|f IH]; intros s; simpl; [discriminate|].
  destruct (Random.getrandbits k s) as [r0 s0].
  destruct (n <=? r0)%N eqn:E.
  - apply IH.
  - intros H; injection H as <- <-. now apply N.leb_gt.
Qed.

(** [randrange(n)] returns a value of [range(n)]. *)
Lemma randrange_range n s r s' :
  Random.randrange n s = Ok (r, s') -> 0 <= r < n.
Proof.
  unfold Random.randrange. destruct (0 <? n) eqn:Hn; [|discriminate].
  apply Z.ltb_lt in Hn.
  destruct (Random.randbelow _ _ _) as [[r0 s0]|] eqn:E; [|discriminate].
  intros H; injection H as <- <-.
  unfold Random.randbelow in E.
  destruct (Z.to_N n =? 0)%N eqn:E0; [apply N.eqb_eq in E0; lia|].
  apply randbelow_loop_lt in E. lia.
Qed.

Section TextureCache.
Variable env : Env.
Variable cfg : ImageConfig.
Hypothesis variants_fit : variants cfg <= 8.

Local Abbreviation texture_key := (texture_key cfg).
Local Abbreviation cache_inv := (cache_inv cfg).
Local Abbreviation steps := (steps cfg).

Lemma texture_keys_bound ks :
  NoDup ks -> Forall texture_key ks ->
  (List.length ks <= Z.to_nat (Z.max 1 (variants cfg)))%nat.
Proof.
  intros Hnd Hk.
  rewrite <- (length_map (fun k : Z * Z * Z => snd (fst k)) ks).
  replace (Z.to_nat (Z.max 1 (variants cfg)))
    with (List.length (range (Z.max 1 (variants cfg))))
    by (unfold range; now rewrite length_map, length_seq).
  apply NoDup_incl_length.
  - apply NoDup_map_NoDup_ForallPairs; [|assumption].
    intros a b Ha Hb E. rewrite Forall_forall in Hk.
    destruct (Hk a Ha) as [va [-> _]], (Hk b Hb) as [vb [-> _]].
    simpl in E. now subst.
  - intros v Hv. apply in_map_iff in Hv. destruct Hv as [k [<- Hin]].
    rewrite Forall_forall in Hk. destruct (Hk k Hin) as [v [-> Hr]].
    simpl. unfold range. apply in_map_iff.
    exists (Z.to_nat v). split; [lia|]. apply in_seq. lia.
Qed.

Lemma cache_inv_bound c :
  cache_inv c -> (calls c <= Z.to_nat (Z.max 1 (variants cfg)))%nat.
Proof.
  intros [Hnd [Hk ->]]. rewrite <- (length_map fst).
  now apply texture_keys_bound.
Qed.

Lemma frame_steps {A} (m : M A) : frame m -> steps 0 m.
Proof. intros F w Hw. rewrite F. split; [assumption|lia]. Qed.

Lemma quiet_steps {A} (m : M A) : quiet m -> steps 0 m.
Proof. intros Q. apply frame_steps, frame_quiet, Q. Qed.

Lemma steps_weaken {A} (m : M A) n n' :
  (n <= n')%nat -> steps n m -> steps n' m.
Proof. intros Hle H w Hw. destruct (H w Hw). split; [assumption|lia]. Qed.

Lemma steps_bind {A B} (m : M A) (f : A -> M B) n k :
  steps n m ->
  (forall a w w', m w = (Ok a, w') -> steps k (f a)) ->
  steps (n + k) (bind m f).
Proof.
  intros Hm Hf w Hw. destruct (Hm w Hw) as [I1 C1]. unfold bind.
  destruct (m w) as [[a| |] w'] eqn:E; simpl in *;
    try (split; [assumption|lia]).
  destruct (Hf a w w' E w' I1) as [I2 C2]. split; [assumption|lia].
Qed.

(** A call of [_make_image_reader] for a texture key generates at most
    one texture, and none when the key is stored. *)
Lemma steps_make_image_reader v :
  0 <= v < Z.max 1 (variants cfg) ->
  steps 1 (_make_image_reader (px cfg) v (seed cfg)).
Proof.
  intros Hv w [Hnd [Hk Hc]]. unfold _make_image_reader, lru_cache.
  assert (Tk : texture_key (px cfg, v, seed cfg)) by (exists v; now split).
  destruct (lookup key3_eqb _ _) as [r|] eqn:L; cbn -[firstn].
  - destruct (remove_hit _ _ _ L Hnd) as [Hnd' Hlen].
    split; [|lia]. split; [exact Hnd'|]. split.
    + constructor; [exact Tk|].
      rewrite Forall_forall in *. intros k Hin. apply Hk.
      eapply remove_incl; eassumption.
    + simpl. lia.
  - assert (Hnd' : NoDup ((px cfg, v, seed cfg) :: map fst (entries (image_readers w))))
      by (constructor; [now apply lookup_none in L|assumption]).
    assert (Hk' : Forall texture_key
                    ((px cfg, v, seed cfg) :: map fst (entries (image_readers w))))
      by now constructor.
    pose proof (texture_keys_bound _ Hnd' Hk') as Hb. simpl in Hb.
    rewrite length_map in Hb.
    rewrite firstn_all2 by (simpl; lia).
    split; [|cbn; lia]. split; [exact Hnd'|]. split; [exact Hk'|].
    cbn [calls entries List.length]. now rewrite Hc.
Qed.

Lemma steps_draw_image w h positions idx rng :
  steps 1 (draw_image w h cfg positions idx rng).
Proof.
  unfold draw_image.
  change 1%nat with (0 + 1)%nat.
  apply steps_bind; [apply quiet_steps, quiet_lift|].
  intros [variant rng1] w0 w1 E. unfold lift in E.
  injection E as E _. apply randrange_range in E.
  change 1%nat with (1 + 0)%nat.
  apply steps_bind.
  - apply steps_make_image_reader. lia.
  - intros img _ _ _. apply frame_steps.
    destruct (getSize img) as [iw ih].
    destruct positions as [ps|].
    + destruct (nth_error ps (Z.to_nat idx)) as [[[[x y] dw] dh]|]; frame_tac.
    + destruct (Random.uniform _ _ rng1) as [scale rng2].
      apply frame_bind; [frame_tac|]. intros r.
      apply frame_bind; [frame_tac|]. intros [dw dh].
      destruct (Random.uniform _ _ rng2) as [x rng3].
      destruct (Random.uniform _ _ rng3) as [y rng4].
      frame_tac.
Qed.

Lemma steps_draw_images w h positions idxs : forall rng,
  steps (List.length idxs) (draw_images w h cfg positions idxs rng).
Proof.
  induction idxs as [|idx idxs IH]; intros rng; simpl.
  - apply quiet_steps, quiet_ret.
  - change (S (List.length idxs)) with (1 + List.length idxs)%nat.
    apply steps_bind; [apply steps_draw_image|]. intros rng' _ _ _. apply IH.
Qed.

Lemma steps_draw_page_images i w h :
  steps (Z.to_nat (per_page cfg)) (draw_page_images i w h cfg).
Proof.
  unfold draw_page_images.
  destruct (enabled cfg && (per_page cfg >? 0)).
  - change (Z.to_nat (per_page cfg)) with (0 + Z.to_nat (per_page cfg))%nat.
    apply steps_bind; [apply quiet_steps; quiet_tac|].
    intros positions _ _ _.
    replace (Z.to_nat (per_page cfg))
      with (List.length (range (per_page cfg)))
      by (unfold range; now rewrite length_map, length_seq).
    apply steps_draw_images.
  - eapply steps_weaken; [|apply quiet_steps, quiet_ret]. lia.
Qed.

Lemma steps_draw_page i w h font_name font_size with_rects fc :
  steps (Z.to_nat (per_page cfg))
        (draw_page env i w h font_name font_size with_rects fc cfg).
Proof.
  unfold draw_page.
  change (Z.to_nat (per_page cfg)) with (0 + (0 + (0 + (0 + Z.to_nat (per_page cfg)))))%nat.
  apply steps_bind; [apply quiet_steps, quiet_draw_page_text|]. intros _ _ _ _.
  apply steps_bind; [apply quiet_steps, quiet_draw_page_chart|]. intros _ _ _ _.
  apply steps_bind; [apply quiet_steps, quiet_draw_page_figures|]. intros _ _ _ _.
  apply steps_bind; [apply quiet_steps, quiet_draw_page_rects|]. intros _ _ _ _.
  apply steps_draw_page_images.
Qed.

Lemma steps_for_each {A} (l : list A) body n :
  (forall a, steps n (body a)) ->
  steps (List.length l * n) (for_each l body).
Proof.
  intros Hb. induction l as [|a l IH]; simpl.
  - apply quiet_steps, quiet_ret.
  - apply steps_bind; [apply Hb|]. intros _ _ _ _. exact IH.
Qed.

End TextureCache.

Lemma range2_length a b : List.length (range2 a b) = Z.to_nat (b - a).
Proof. unfold range2. now rewrite length_map, length_seq. Qed.

(** The whole run: at most one generated texture per page and image
    slot, and the invariant of the texture cache at the end. *)
Lemma steps_main env args :
  arg_image_variants args <= 8 ->
  steps (image_config args)
        (Z.to_nat (arg_pages args) * Z.to_nat (per_page (image_config args)))
        (main env args).
Proof.
  intros Hv.
  assert (Hfit : variants (image_config args) <= 8) by (simpl; lia).
  unfold main.
  set (cfg := image_config args) in *.
  set (n := (Z.to_nat (arg_pages args) * Z.to_nat (per_page cfg))%nat).
  replace n with (0 + (0 + (0 + (n + (0 + 0)))))%nat by lia.
  apply steps_bind; [apply quiet_steps, quiet_random_seed|]. intros _ _ _ _.
  apply steps_bind.
  { apply quiet_steps. destruct (enabled cfg);
      [apply quiet_require_pillow|apply quiet_ret]. }
  intros _ _ _ _.
  destruct (page_size_for 1 (arg_vary_sizes args)) as [w h].
  apply steps_bind; [apply frame_steps, frame_emit|]. intros _ _ _ _.
  apply steps_bind.
  - subst n.
    replace (Z.to_nat (arg_pages args))
      with (List.length (range2 1 (arg_pages args + 1)))
      by (rewrite range2_length; f_equal; lia).
    apply steps_for_each. intros i.
    destruct (page_size_for i (arg_vary_sizes args)) as [wi hi].
    replace (Z.to_nat (per_page cfg))
      with (0 + (Z.to_nat (per_page cfg) + (0 + 0)))%nat by lia.
    apply steps_bind; [apply frame_steps, frame_emit|]. intros _ _ _ _.
    apply steps_bind; [now apply steps_draw_page|]. intros _ _ _ _.
    apply steps_bind; [apply frame_steps, frame_emit|]. intros _ _ _ _.
    apply quiet_steps. destruct (i mod 500 =? 0);
      [apply quiet_print|apply quiet_ret].
  - intros _ _ _ _.
    apply steps_bind; [apply frame_steps, frame_emit|]. intros _ _ _ _.
    apply quiet_steps, quiet_print.
Qed.

Lemma cache_inv_fresh cfg : cache_inv cfg (image_readers fresh).
Proof. repeat split; constructor. Qed.


(** ** Counting texture generations over a run *)

(** C2 (as amended): in fast mode as in slow mode, and whatever the page
    count, when at most 8 variants are configured (the size of the
    cache) the texture generator runs at most once per distinct key;
    so at most [max 1 imageVariants] times and at most
    [pages * imagesPerPage] times over the run.  (It runs once per
    variant actually drawn, not once per configured variant.) *)
Theorem texture_generator_calls_bounded env args :
  arg_image_variants args <= 8 ->
  let c := image_readers (snd (main env args fresh)) in
  Z.of_nat (calls c) <= Z.max 1 (arg_image_variants args)
  /\ Z.of_nat (calls c)
     <= Z.max 0 (arg_pages args) * Z.max 0 (arg_images_per_page args)
  /\ NoDup (map fst (entries c))
  /\ calls c = List.length (entries c).
Proof.
  intros Hv c.
  destruct (steps_main env args Hv fresh (cache_inv_fresh _)) as [I C].
  fold c in I, C.
  pose proof (cache_inv_bound _ _ I) as B.
  destruct I as [Hnd [_ Hc]].
  change (calls (image_readers fresh)) with 0%nat in C.
  change (variants (image_config args))
    with (Z.max 1 (arg_image_variants args)) in B.
  change (per_page (image_config args))
    with (Z.max 0 (arg_images_per_page args)) in C.
  repeat split; try assumption; nia.
Qed.


Lemma texture_generator_calls_bounded_witness :
  let c := image_readers (snd (main test_env scenario_args fresh)) in
  Z.of_nat (calls c) <= Z.max 1 (arg_image_variants scenario_args)
  /\ Z.of_nat (calls c)
     <= Z.max 0 (arg_pages scenario_args)
        * Z.max 0 (arg_images_per_page scenario_args)
  /\ NoDup (map fst (entries c))
  /\ calls c = List.length (entries c).
Proof.
  refine (texture_generator_calls_bounded test_env scenario_args _).
  cbv [arg_image_variants scenario_args]. lia.
Defined.

Lemma pair_eq_inv {A B} (a a' : A) (b b' : B) :
  (a, b) = (a', b') -> a = a' /\ b = b'.
Proof. intros E. injection E as -> ->. split; reflexivity. Qed.

Lemma observe_inv r o n ps :
  observe r = (o, n, ps) ->
  fst r = o /\ calls (image_readers (snd r)) = n
  /\ page_images (trace (snd r)) [] = ps.
Proof.
  unfold observe, trace. rewrite rev_alt. intros E.
  apply pair_eq_inv in E. destruct E as [E E3].
  apply pair_eq_inv in E. destruct E as [E1 E2].
  repeat split; assumption.
Qed.

Lemma one_page_observed s c :
  observe (main {| sin := s; cos := c; pillow_installed := true |}
                one_page_args fresh)
  = (Ok tt, 1%nat, [[2]]).
Proof. vm_compute. reflexivity. Qed.

(** C2 (as stated) fails: one page with one image generates one texture
    while three variants are configured. *)
Lemma one_page_one_texture :
  (forall env, pillow_installed env = true ->
     calls (image_readers (snd (main env one_page_args fresh))) = 1%nat)
  /\ arg_fast one_page_args = true
  /\ arg_image_variants one_page_args = 3
  /\ ~ (forall env args, arg_fast args = true ->
          Z.of_nat (calls (image_readers (snd (main env args fresh))))
          = arg_image_variants args).
Proof.
  assert (H : forall env, pillow_installed env = true ->
     calls (image_readers (snd (main env one_page_args fresh))) = 1%nat).
  { intros [s c p] Hp. cbn [pillow_installed] in Hp. subst p.
    apply (observe_inv _ _ _ _ (one_page_observed s c)). }
  split; [exact H|]. split; [reflexivity|]. split; [reflexivity|].
  intros C. specialize (C test_env one_page_args eq_refl).
  rewrite (H test_env eq_refl) in C. discriminate C.
Qed.

Lemma nine_variants_observed :
  calls (image_readers (snd (main test_env nine_variants_args fresh)))
  = 10%nat.
Proof. vm_compute. reflexivity. Qed.

(** Beyond 8 variants the cache evicts: with 9 variants and 30 images
    the generator runs 10 times. *)
Lemma nine_variants_regenerate :
  (Z.max 1 (arg_image_variants nine_variants_args)
   < Z.of_nat (calls (image_readers
                        (snd (main test_env nine_variants_args fresh))))).
Proof. rewrite nine_variants_observed. reflexivity. Qed.

(** ** The scenario *)

Lemma scenario_observed s c :
  observe (main {| sin := s; cos := c; pillow_installed := true |}
                scenario_args fresh)
  = (Ok tt, 2%nat, [[0]; [1]; [0]]).
Proof. vm_compute. reflexivity. Qed.

Lemma scenario_first_picks :
  map (fun i => first_pick (1 + i * 7919) 2) [1; 2; 3]
  = [Some 0; Some 1; Some 0].
Proof. vm_compute. reflexivity. Qed.

Lemma scenario_run env :
  pillow_installed env = true ->
  fst (main env scenario_args fresh) = Ok tt
  /\ calls (image_readers (snd (main env scenario_args fresh))) = 2%nat
  /\ page_images (trace (snd (main env scenario_args fresh))) []
     = [[0]; [1]; [0]].
Proof.
  destruct env as [s c p]. cbn [pillow_installed]. intros ->.
  exact (observe_inv _ _ _ _ (scenario_observed s c)).
Qed.

(** C5 (as amended): in the scenario the run completes, the texture
    generator is called exactly 2 times in total, and the image of page
    [i] is the variant that [randrange(2)] returns first on the
    generator seeded [1 + 7919 * i]: variants 0, 1, 0 on pages 1, 2, 3. *)
Theorem scenario_textures env :
  pillow_installed env = true ->
  fst (main env scenario_args fresh) = Ok tt
  /\ calls (image_readers (snd (main env scenario_args fresh))) = 2%nat
  /\ page_images (trace (snd (main env scenario_args fresh))) []
     = [[0]; [1]; [0]]
  /\ map (fun i => first_pick (1 + i * 7919) 2) [1; 2; 3]
     = [Some 0; Some 1; Some 0].
Proof.
  intros Hp. destruct (scenario_run env Hp) as [H1 [H2 H3]].
  split; [exact H1|]. split; [exact H2|]. split; [exact H3|].
  exact scenario_first_picks.
Qed.

Lemma scenario_textures_witness :
  fst (main test_env scenario_args fresh) = Ok tt
  /\ calls (image_readers (snd (main test_env scenario_args fresh))) = 2%nat
  /\ page_images (trace (snd (main test_env scenario_args fresh))) []
     = [[0]; [1]; [0]]
  /\ map (fun i => first_pick (1 + i * 7919) 2) [1; 2; 3]
     = [Some 0; Some 1; Some 0].
Proof. exact (scenario_textures test_env eq_refl). Defined.

(** C5 (as stated) fails: the image of page [i] is not variant
    [i mod 2]; page 1 shows variant 0. *)
Lemma scenario_not_index_mod :
  (forall env, pillow_installed env = true ->
     page_images (trace (snd (main env scenario_args fresh))) []
     = [[0]; [1]; [0]])
  /\ [[0]; [1]; [0]] <> map (fun i => [i mod 2]) [1; 2; 3].
Proof.
  split.
  - intros env Hp. apply (scenario_run env Hp).
  - discriminate.
Qed.

(** ** The figure step on a small page *)


(** ** The figure step in the default configuration *)

Lemma default_figures_observed s c p :
  match _figure_variants__wrapped
          {| sin := s; cos := c; pillow_installed := p |}
          (fst A4, snd A4, 1200, 4, 0) with
  | Ok [v0; v1; v2; v3] =>
      match first_red (variant_strokes v0), first_red (variant_strokes v3) with
      | Some x, Some y => PrimFloat.eqb x x && negb (PrimFloat.eqb y x)
      | _, _ => false
      end
  | _ => false
  end = true.
Proof. vm_compute. reflexivity. Qed.


(** ** Binary64: multiplying by one and dividing by oneself *)

Lemma digits2_shift m k :
  digits2_pos (Pos.iter xO m k) = (digits2_pos m + k)%positive.
Proof.
  revert m. induction k using Pos.peano_ind; intros m.
  - simpl. lia.
  - rewrite Pos.iter_succ. simpl. rewrite IHk. lia.
Qed.

Lemma iter_pos_nat {A} (f : A -> A) k : forall x,
  iter_pos f k x = Nat.iter (Pos.to_nat k) f x.
Proof.
  induction k; intros x; cbn [iter_pos].
  - rewrite !IHk, Pos2Nat.inj_xI. rewrite <- Nat.iter_succ_r.
    rewrite <- Nat.iter_add. f_equal. lia.
  - rewrite !IHk, Pos2Nat.inj_xO. rewrite <- Nat.iter_add. f_equal. lia.
  - reflexivity.
Qed.

Lemma iter_nat_shr_1 n : forall p,
  Nat.iter n shr_1
    {| shr_m := Zpos (Nat.iter n xO p); shr_r := false; shr_s := false |}
  = {| shr_m := Zpos p; shr_r := false; shr_s := false |}.
Proof.
  induction n; intros p; [reflexivity|].
  rewrite Nat.iter_succ_r.
  change (Nat.iter (S n) xO p) with (xO (Nat.iter n xO p)).
  simpl shr_1. apply IHn.
Qed.

Lemma iter_pos_shr_1 k m :
  iter_pos shr_1 k
    {| shr_m := Zpos (Pos.iter xO m k); shr_r := false; shr_s := false |}
  = {| shr_m := Zpos m; shr_r := false; shr_s := false |}.
Proof. rewrite iter_pos_nat, Pos2Nat.inj_iter. apply iter_nat_shr_1. Qed.

(** Rounding a canonical mantissa that was shifted left by [k] bits
    gives the mantissa back. *)
Lemma binary_round_aux_shifted s m e k :
  bounded prec emax m e = true ->
  binary_round_aux prec emax s (Zpos (Pos.iter xO m k)) (e - Zpos k) loc_Exact
  = S754_finite s m e.
Proof.
  intros B. unfold bounded in B. apply andb_true_iff in B.
  destruct B as [C L].
  unfold canonical_mantissa in C. apply Z.eqb_eq in C.
  unfold binary_round_aux, shr_fexp. cbn [Zdigits2 shr_record_of_loc].
  rewrite digits2_shift.
  replace (Z.pos (digits2_pos m + k) + (e - Z.pos k))
    with (Z.pos (digits2_pos m) + e) by lia.
  rewrite C.
  replace (e - (e - Z.pos k)) with (Z.pos k) by lia.
  cbn [shr]. rewrite iter_pos_shr_1.
  cbn [shr_m loc_of_shr_record round_nearest_even Zdigits2 shr_record_of_loc].
  replace (e - Z.pos k + Z.pos k) with e by lia.
  rewrite C. rewrite Z.sub_diag. cbn [shr shr_m].
  now rewrite L.
Qed.

Lemma SF64mul_one x :
  valid_binary x = true ->
  SF64mul x (S754_finite false 4503599627370496 (-52)) = x.
Proof.
  destruct x as [s|s| |s m e]; intros V; unfold SF64mul, SFmul;
    try (destruct s; reflexivity); try reflexivity.
  replace (m * 4503599627370496)%positive with (Pos.iter xO m 52)
    by (rewrite Pos.mul_comm; reflexivity).
  rewrite xorb_false_r.
  change (e + -52) with (e - Z.pos 52).
  now apply binary_round_aux_shifted.
Qed.

(** [x * 1.0] is [x], for every float. *)
Lemma mul_one (x : float) : (x * 1)%float = x.
Proof.
  apply Prim2SF_inj. rewrite mul_spec.
  change (Prim2SF 1) with (S754_finite false 4503599627370496 (-52)).
  apply SF64mul_one, Prim2SF_valid.
Qed.

Lemma SF64div_self s m e :
  SF64div (S754_finite s m e) (S754_finite s m e)
  = S754_finite false 4503599627370496 (-52).
Proof.
  unfold SF64div, SFdiv, SFdiv_core_binary.
  replace (Zdigits2 (Z.pos m) + e - (Zdigits2 (Z.pos m) + e)) with 0 by lia.
  rewrite Z.sub_diag.
  change (Z.min (fexp prec emax 0) 0) with (-53).
  change (0 - -53) with 53.
  cbv iota beta.
  rewrite Z.shiftl_mul_pow2 by lia.
  assert (D : Z.div_eucl (Z.pos m * 2 ^ 53) (Z.pos m) = (2 ^ 53, 0)).
  { pose proof (Z.div_eucl_eq (Z.pos m * 2 ^ 53) (Z.pos m) ltac:(lia)) as H.
    pose proof (Z.mod_pos_bound (Z.pos m * 2 ^ 53) (Z.pos m) ltac:(lia)) as Hb.
    unfold Z.modulo in Hb.
    destruct (Z.div_eucl (Z.pos m * 2 ^ 53) (Z.pos m)) as [q r].
    assert (q = 2 ^ 53) by nia. subst q. f_equal. lia. }
  rewrite D. rewrite xorb_nilpotent.
  assert (N : new_location (Z.pos m) 0 = loc_Exact).
  { unfold new_location. destruct (Z.even (Z.pos m)); reflexivity. }
  rewrite N. reflexivity.
Qed.

(** [x / x] is [1.0], for every finite nonzero float. *)
Lemma div_self (x : float) :
  finite_nonzero x = true -> (x / x)%float = 1%float.
Proof.
  unfold finite_nonzero. intros F.
  apply Prim2SF_inj. rewrite div_spec.
  destruct (Prim2SF x) as [s|s| |s m e]; try discriminate.
  rewrite SF64div_self. reflexivity.
Qed.

(** [z / z] is [1.0], for every nonzero [int]. *)
Lemma int_truediv_self z : z <> 0 -> int_truediv z z = 1%float.
Proof.
  intros Hz. unfold int_truediv.
  destruct z as [|p|p]; [contradiction| |];
    cbn [Z2SF]; rewrite (SF64div_self _ p 0 : SFdiv prec emax _ _ = _);
    reflexivity.
Qed.

Lemma truediv_self z :
  truediv z z = if z =? 0 then raise ZeroDivisionError else ret 1%float.
Proof.
  unfold truediv. destruct (z =? 0) eqn:E; [reflexivity|].
  apply Z.eqb_neq in E. now rewrite int_truediv_self.
Qed.

(** ** Images keep their proportions *)

Section Aspect.
Variable env : Env.
Variable cfg : ImageConfig.

Local Abbreviation keeps := (keeps (px cfg)).
Local Abbreviation aspect_inv := (aspect_inv (px cfg)).

Lemma plain_aspect_kept c : plain c -> aspect_kept c.
Proof. destruct c; simpl; tauto. Qed.

Lemma keeps_quiet {A} (m : M A) : quiet m -> keeps m.
Proof.
  intros Q w [Hr Hc]. destruct (Q w) as [E [cs [C P]]]. split.
  - now rewrite E.
  - rewrite C. apply Forall_app. split; [|assumption].
    eapply Forall_impl; [|exact P]. exact plain_aspect_kept.
Qed.

Lemma keeps_bind {A B} (m : M A) (f : A -> M B) :
  keeps m ->
  (forall a w w', aspect_inv w -> m w = (Ok a, w') -> keeps (f a)) ->
  keeps (bind m f).
Proof.
  intros Hm Hf w J. pose proof (Hm w J) as J1. unfold bind.
  destruct (m w) as [[a| |] w'] eqn:E; simpl in *; try assumption.
  exact (Hf a w w' J E w' J1).
Qed.

Lemma keeps_bind_ret {A B} (a : A) (f : A -> M B) :
  keeps (f a) -> keeps (bind (ret a) f).
Proof. intros H w J. exact (H w J). Qed.

Lemma keeps_bind_raise {A B} e (f : A -> M B) : keeps (bind (raise e) f).
Proof. intros w J. exact J. Qed.

Lemma keeps_emit c : aspect_kept c -> keeps (emit c).
Proof. intros Hc w [Hr Hcs]. split; [exact Hr|]. now constructor. Qed.

Lemma keeps_for_each {A} (l : list A) body :
  (forall a, keeps (body a)) -> keeps (for_each l body).
Proof.
  intros Hb. induction l as [|a l IH]; simpl.
  - apply keeps_quiet, quiet_ret.
  - apply keeps_bind; [apply Hb|intros _ _ _ _ _; exact IH].
Qed.

Lemma lookup_in {V} k (l : list (Z * Z * Z * V)) v :
  lookup key3_eqb k l = Some v -> exists k', In (k', v) l.
Proof.
  induction l as [|[k' v'] l IH]; simpl; [discriminate|].
  destruct (key3_eqb k k').
  - intros E; injection E as ->. exists k'. now left.
  - intros E. destruct (IH E) as [k'' Hin]. exists k''. now right.
Qed.

Lemma remove_in {V} k (l : list (Z * Z * Z * V)) x :
  In x (remove key3_eqb k l) -> In x l.
Proof.
  induction l as [|[k' v'] l IH]; simpl; [tauto|].
  destruct (key3_eqb k k'); simpl; [tauto|].
  intros [E|Hin]; [now left|right; now apply IH].
Qed.

Lemma in_firstn {V} n (l : list V) x : In x (firstn n l) -> In x l.
Proof.
  revert l; induction n; intros [|a l]; simpl; try tauto.
  intros [E|Hin]; [now left|right; now apply IHn].
Qed.

(** The cache hands out [px] by [px] readers only. *)
Lemma make_image_reader_square v w :
  aspect_inv w ->
  aspect_inv (snd (_make_image_reader (px cfg) v (seed cfg) w))
  /\ forall img, fst (_make_image_reader (px cfg) v (seed cfg) w) = Ok img ->
                 reader_size img = (px cfg, px cfg).
Proof.
  intros [Hr Hc]. unfold _make_image_reader, lru_cache.
  destruct (lookup key3_eqb _ _) as [r|] eqn:L; cbn -[firstn].
  - destruct (lookup_in _ _ _ L) as [k' Hin].
    pose proof (Hr _ _ Hin) as Hsq.
    split; [split; [|exact Hc]|].
    + intros k r0 [E|Hin']; [injection E as <- <-; exact Hsq|].
      eapply Hr, remove_in, Hin'.
    + intros img E; injection E as <-. exact Hsq.
  - split; [split; [|exact Hc]|].
    + intros k r0 Hin. apply in_firstn in Hin.
      destruct Hin as [E|Hin]; [injection E as <- <-; reflexivity|].
      eapply Hr, Hin.
    + intros img E; injection E as <-. reflexivity.
Qed.

Lemma aspect_square img x y d :
  px cfg <> 0 ->
  reader_size img = (px cfg, px cfg) ->
  aspect_kept (drawImage img x y d d).
Proof.
  intros Hpx Hsq. simpl. unfold getSize. rewrite Hsq.
  intros Hd. now rewrite div_self, int_truediv_self.
Qed.

Lemma keeps_draw_image w h positions idx rng :
  keeps (draw_image w h cfg positions idx rng).
Proof.
  unfold draw_image.
  apply keeps_bind; [apply keeps_quiet, quiet_lift|].
  intros [variant rng1] _ _ _ _.
  apply keeps_bind; [intros w0 J0; now apply make_image_reader_square|].
  intros img w0 w1 J0 E.
  assert (Hsq : reader_size img = (px cfg, px cfg)).
  { apply (proj2 (make_image_reader_square variant w0 J0)).
    now rewrite E. }
  unfold getSize. rewrite Hsq. cbv beta iota.
  rewrite !truediv_self.
  destruct (px cfg =? 0) eqn:Hpx.
  { destruct positions as [ps|].
    - destruct (nth_error ps (Z.to_nat idx)) as [[[[x y] dw] dh]|];
        [apply keeps_bind_raise|apply keeps_quiet, quiet_raise].
    - destruct (Random.uniform _ _ rng1) as [scale rng2].
      apply keeps_bind_raise. }
  apply Z.eqb_neq in Hpx.
  destruct positions as [ps|].
  - destruct (nth_error ps (Z.to_nat idx)) as [[[[x y] dw] dh]|];
      [|apply keeps_quiet, quiet_raise].
    apply keeps_bind_ret. rewrite mul_one.
    apply keeps_bind; [|intros; apply keeps_quiet, quiet_ret].
    now apply keeps_emit, aspect_square.
  - destruct (Random.uniform _ _ rng1) as [scale rng2].
    apply keeps_bind_ret. rewrite !mul_one.
    set (dw0 := fmin _ _). set (mh := ((h - 2 * margin) * 0.8)%float).
    apply keeps_bind.
    + destruct (PrimFloat.ltb mh dw0);
        [apply keeps_bind_ret|]; apply keeps_quiet, quiet_ret.
    + intros [dw dh] w2 w3 _ E2.
      assert (Hd : dw = dh).
      { destruct (PrimFloat.ltb mh dw0); unfold bind, ret in E2;
          injection E2 as <- <- _; [apply mul_one|reflexivity]. }
      subst dh.
      destruct (Random.uniform _ _ rng2) as [x rng3].
      destruct (Random.uniform _ _ rng3) as [y rng4].
      apply keeps_bind; [|intros; apply keeps_quiet, quiet_ret].
      now apply keeps_emit, aspect_square.
Qed.

Lemma keeps_draw_images w h positions idxs : forall rng,
  keeps (draw_images w h cfg positions idxs rng).
Proof.
  induction idxs as [|idx idxs IH]; intros rng; simpl.
  - apply keeps_quiet, quiet_ret.
  - apply keeps_bind; [apply keeps_draw_image|]. intros; apply IH.
Qed.

Lemma keeps_draw_page i w h font_name font_size with_rects fc :
  keeps (draw_page env i w h font_name font_size with_rects fc cfg).
Proof.
  unfold draw_page.
  apply keeps_bind; [apply keeps_quiet, quiet_draw_page_text|]. intros _ _ _ _ _.
  apply keeps_bind; [apply keeps_quiet, quiet_draw_page_chart|]. intros _ _ _ _ _.
  apply keeps_bind; [apply keeps_quiet, quiet_draw_page_figures|]. intros _ _ _ _ _.
  apply keeps_bind; [apply keeps_quiet, quiet_draw_page_rects|]. intros _ _ _ _ _.
  unfold draw_page_images.
  destruct (enabled cfg && (per_page cfg >? 0)); [|apply keeps_quiet, quiet_ret].
  apply keeps_bind; [apply keeps_quiet; quiet_tac|]. intros.
  apply keeps_draw_images.
Qed.

End Aspect.

Lemma keeps_main env args :
  keeps (px (image_config args)) (main env args).
Proof.
  unfold main.
  set (cfg := image_config args) in *.
  apply keeps_bind; [apply keeps_quiet, quiet_random_seed|]. intros _ _ _ _ _.
  apply keeps_bind.
  { apply keeps_quiet. destruct (enabled cfg);
      [apply quiet_require_pillow|apply quiet_ret]. }
  intros _ _ _ _ _.
  destruct (page_size_for 1 (arg_vary_sizes args)) as [w h].
  apply keeps_bind; [apply keeps_emit; exact I|]. intros _ _ _ _ _.
  apply keeps_bind.
  - apply keeps_for_each. intros i.
    destruct (page_size_for i (arg_vary_sizes args)) as [wi hi].
    apply keeps_bind; [apply keeps_emit; exact I|]. intros _ _ _ _ _.
    apply keeps_bind; [now apply keeps_draw_page|]. intros _ _ _ _ _.
    apply keeps_bind; [apply keeps_emit; exact I|]. intros _ _ _ _ _.
    apply keeps_quiet. destruct (i mod 500 =? 0);
      [apply quiet_print|apply quiet_ret].
  - intros _ _ _ _ _.
    apply keeps_bind; [apply keeps_emit; exact I|]. intros _ _ _ _ _.
    apply keeps_quiet, quiet_print.
Qed.


(** An image of the scenario: both sides are 202.57780359424615 points
    and the texture is 1600 by 1600 pixels. *)
Lemma scenario_first_image :
  exists img x y,
    nth_error (filter (fun c => match c with
                                | drawImage _ _ _ _ _ => true
                                | _ => false
                                end)
                      (rev_append (canvas (snd (main test_env scenario_args
                                                     fresh))) []))
              0
    = Some (drawImage img x y 202.57780359424615 202.57780359424615)
    /\ getSize img = (1600, 1600).
Proof. vm_compute. do 3 eexists. split; reflexivity. Qed.

End ScriptFacts.

(* ================================================================== *)
(** * Further properties of the text layout *)
(* ================================================================== *)

Module TextMore.
Import Text TextProps TextMoreProps TextFacts.

Lemma wrap_loop_nil mc line n :
  wrap_loop mc [] line n = if truthy line then [unwords line] else [].
Proof. reflexivity. Qed.

Lemma wrap_loop_cons mc w ws line n :
  wrap_loop mc (w :: ws) line n =
  if n + (len w + (if truthy line then 1 else 0)) >? mc then
    unwords line :: wrap_loop mc ws [w] (len w)
  else if truthy line then
    wrap_loop mc ws (line ++ [w]) (n + (len w + (if truthy line then 1 else 0)))
  else wrap_loop mc ws [w] (len w).
Proof. reflexivity. Qed.

(** *** Texts without words *)

Lemma split_from_nil_iff s : forall cur,
  split_from cur s = [] <-> cur = [] /\ Forall (fun c => isspace c = true) s.
Proof.
  induction s as [|c s IH]; intros cur; simpl.
  - destruct cur; split.
    + intros _. split; [reflexivity|constructor].
    + reflexivity.
    + discriminate.
    + intros [E _]. discriminate E.
  - destruct (isspace c) eqn:Hc.
    + destruct cur.
      * rewrite IH. split.
        -- intros [_ H]. split; [reflexivity|now constructor].
        -- intros [_ H]. inversion H; subst. now split.
      * split; [discriminate|]. intros [E _]. discriminate E.
    + rewrite IH. split.
      * intros [E _]. destruct cur; discriminate E.
      * intros [_ H]. inversion H; subst. congruence.
Qed.

Lemma wrap_loop_pending mc ws : forall line n,
  line <> [] -> wrap_loop mc ws line n <> [].
Proof.
  induction ws as [|w ws IH]; intros line n Hne.
  - destruct line; [contradiction|discriminate].
  - rewrite wrap_loop_cons. destruct (_ >? mc); [discriminate|].
    destruct line; [contradiction|]. cbn [truthy]. apply IH. discriminate.
Qed.

(** X1: [wrap_lines] yields no line at all exactly when the text has no
    word, that is, when it is empty or all whitespace. *)
Theorem wrap_lines_blank (text : str) (max_chars : Z) :
  wrap_lines text max_chars = []
  <-> Forall (fun c => isspace c = true) text.
Proof.
  unfold wrap_lines.
  assert (H : split text = [] <-> Forall (fun c => isspace c = true) text).
  { unfold split. rewrite split_from_nil_iff. tauto. }
  rewrite <- H. destruct (split text) as [|w ws].
  - rewrite wrap_loop_nil. cbn [truthy]. tauto.
  - rewrite wrap_loop_cons. cbn [truthy].
    split; [|discriminate]. intros E. exfalso.
    destruct (_ >? max_chars); [discriminate E|].
    revert E. apply wrap_loop_pending. discriminate.
Qed.

(** *** Empty lines *)

Lemma unwords_nil_iff g : Forall is_word g -> (unwords g = [] <-> g = []).
Proof.
  intros Hg. split; [|intros ->; reflexivity].
  destruct g as [|a [|b g]]; [reflexivity| |]; intros E.
  - inversion Hg as [|? ? [Hne _] _]; subst. simpl in E. contradiction.
  - inversion Hg as [|? ? [Hne _] _]; subst.
    rewrite unwords_cons in E by discriminate.
    destruct a; [contradiction|discriminate E].
Qed.

Lemma wrap_loop_nonempty mc ws : forall line n,
  Forall is_word ws -> Forall is_word line -> line <> [] ->
  Forall (fun ln => ln <> []) (wrap_loop mc ws line n).
Proof.
  induction ws as [|w ws IH]; intros line n Hws Hl Hne.
  - rewrite wrap_loop_nil.
    destruct line as [|a line]; [contradiction|]. cbn [truthy].
    constructor; [|constructor].
    intros E. apply (unwords_nil_iff _ Hl) in E. discriminate E.
  - inversion Hws as [|? ? Hw Hws']; subst.
    rewrite wrap_loop_cons. destruct (_ >? mc).
    + constructor.
      * intros E. apply (unwords_nil_iff _ Hl) in E. contradiction.
      * apply IH; try assumption; [now constructor|discriminate].
    + destruct line as [|a line]; [contradiction|]. cbn [truthy].
      apply IH; try assumption; [|discriminate].
      apply Forall_app. split; [assumption|now constructor].
Qed.

(** X2: only the first line can be empty, and it is empty exactly when
    the first word of the text is longer than the budget. *)
Theorem wrap_lines_empty_line (text : str) (max_chars : Z) :
  forall l rest, wrap_lines text max_chars = l :: rest ->
    Forall (fun ln => ln <> []) rest
    /\ (l = [] <-> exists w ws, split text = w :: ws /\ max_chars < len w).
Proof.
  intros l rest. unfold wrap_lines.
  pose proof (split_words text) as Hw.
  destruct (split text) as [|w ws]; [discriminate|].
  inversion Hw as [|? ? Hw1 Hws]; subst.
  rewrite wrap_loop_cons. cbn [truthy].
  destruct (0 + (len w + 0) >? max_chars) eqn:E.
  - intros H; injection H as <- <-. split.
    + apply wrap_loop_nonempty; try assumption;
        [now constructor|discriminate].
    + split; [|reflexivity]. intros _. exists w, ws. split; [reflexivity|].
      apply Z.gtb_lt in E. lia.
  - intros H.
    assert (Hall : Forall (fun ln => ln <> [])
                     (wrap_loop max_chars ws [w] (len w)))
      by (apply wrap_loop_nonempty; try assumption;
          [now constructor|discriminate]).
    rewrite H in Hall. inversion Hall as [|? ? Hl Hrest]; subst.
    split; [assumption|]. split; [intros E'; contradiction|].
    intros [w' [ws' [E1 E2]]]. injection E1 as <- <-.
    assert (~ (0 + (len w + 0) > max_chars)) as N
      by (rewrite <- Z.gtb_gt; congruence).
    lia.
Qed.

Lemma wrap_lines_empty_line_witness :
  wrap_lines (lit "abcdef gh") 3 = [lit ""; lit "abcdef"; lit "gh"]
  /\ Forall (fun ln => ln <> []) [lit "abcdef"; lit "gh"]
  /\ (lit "" = [] <-> exists w ws, split (lit "abcdef gh") = w :: ws
                                   /\ 3 < len w).
Proof.
  split; [reflexivity|].
  apply (wrap_lines_empty_line (lit "abcdef gh") 3). reflexivity.
Defined.

(** *** Greedy filling *)

Lemma all_words_app l1 l2 :
  Forall is_word l1 -> Forall is_word l2 -> Forall is_word (l1 ++ l2).
Proof. intros H1 H2. apply Forall_app. now split. Qed.

Lemma truthy_unwords g :
  Forall is_word g -> truthy (unwords g) = truthy g.
Proof.
  intros Hg. destruct g as [|a g]; [reflexivity|].
  destruct (unwords (a :: g)) eqn:E; [|reflexivity].
  apply (unwords_nil_iff _ Hg) in E. discriminate E.
Qed.

Lemma greedy_cons mc a b rest :
  (exists w, first_word b = Some w /\ mc < taken a + len w) ->
  greedy mc (b :: rest) -> greedy mc (a :: b :: rest).
Proof. intros H1 H2. split; assumption. Qed.

Lemma wrap_loop_greedy mc ws : forall line n,
  Forall is_word ws -> Forall is_word line -> n = len (unwords line) ->
  greedy mc (wrap_loop mc ws line n)
  /\ (line <> [] ->
      exists more rest, Forall is_word more /\
        wrap_loop mc ws line n = unwords (line ++ more) :: rest).
Proof.
  induction ws as [|w ws IH]; intros line n Hws Hl Hn.
  - rewrite wrap_loop_nil. split.
    + destruct (truthy line); exact I.
    + intros Hne. exists [], []. split; [constructor|].
      rewrite app_nil_r. destruct line; [contradiction|reflexivity].
  - inversion Hws as [|? ? Hw Hws']; subst.
    rewrite wrap_loop_cons.
    assert (H1 : Forall is_word [w]) by now constructor.
    destruct (IH [w] (len w) Hws' H1 eq_refl) as [G1 F1].
    destruct (_ >? mc) eqn:E.
    + split.
      * destruct (F1 ltac:(discriminate)) as [more [rest [Hm E1]]].
        rewrite E1 in G1 |- *. apply greedy_cons; [|exact G1].
        exists w. split.
        -- unfold first_word. rewrite split_unwords; [reflexivity|].
           now apply all_words_app.
        -- unfold taken. rewrite truthy_unwords by assumption.
           apply Z.gtb_lt in E. lia.
      * intros Hne. exists [], (wrap_loop mc ws [w] (len w)).
        split; [constructor|]. now rewrite app_nil_r.
    + destruct line as [|a line]; cbn [truthy].
      * split; [exact G1|]. intros Hne. now contradiction Hne.
      * assert (H2 : Forall is_word ((a :: line) ++ [w]))
          by now apply all_words_app.
        destruct (IH ((a :: line) ++ [w])
                    (len (unwords (a :: line)) + (len w + 1)) Hws' H2)
          as [G2 F2].
        { rewrite len_unwords_snoc by discriminate. lia. }
        split; [exact G2|]. intros _.
        destruct (F2 ltac:(discriminate)) as [more [rest [Hm E2]]].
        exists (w :: more), rest. split; [now constructor|].
        rewrite E2. now rewrite <- app_assoc.
Qed.

Lemma greedy_adjacent mc pre : forall lines a b post,
  greedy mc lines -> lines = pre ++ a :: b :: post ->
  exists w, first_word b = Some w /\ mc < taken a + len w.
Proof.
  induction pre as [|p pre IH]; intros lines a b post G E; subst lines.
  - exact (proj1 G).
  - apply (IH (pre ++ a :: b :: post) a b post); [|reflexivity].
    destruct pre as [|q pre]; exact (proj2 G).
Qed.

(** X3: lines are filled greedily.  Wherever a line [b] follows a line
    [a], the first word of [b] did not fit on [a]: the length of [a],
    one separating space unless [a] is empty, and that word together
    exceed the budget. *)
Theorem wrap_lines_greedy (text : str) (max_chars : Z)
    (pre post : list str) (a b : str) :
  wrap_lines text max_chars = pre ++ a :: b :: post ->
  exists w, first_word b = Some w /\ max_chars < taken a + len w.
Proof.
  intros E.
  apply (greedy_adjacent max_chars pre (wrap_lines text max_chars) a b post);
    [|exact E].
  apply (wrap_loop_greedy max_chars (split text) [] 0).
  - apply split_words.
  - constructor.
  - reflexivity.
Qed.

Lemma wrap_lines_greedy_witness :
  wrap_lines (lit "aa bb cc") 5 = [] ++ lit "aa bb" :: lit "cc" :: []
  /\ exists w, first_word (lit "cc") = Some w
               /\ 5 < taken (lit "aa bb") + len w.
Proof.
  split; [reflexivity|].
  apply (wrap_lines_greedy (lit "aa bb cc") 5 [] []). reflexivity.
Defined.

(** *** Texts that fit on one line *)

Lemma unwords_prefix_le l1 l2 :
  len (unwords l1) <= len (unwords (l1 ++ l2)).
Proof.
  induction l2 as [|x l2 IH] using rev_ind.
  - rewrite app_nil_r. apply Z.le_refl.
  - rewrite app_assoc. destruct (l1 ++ l2) as [|a l] eqn:E.
    + apply app_eq_nil in E. destruct E as [-> _]. apply len_nonneg.
    + rewrite len_unwords_snoc by discriminate.
      pose proof (len_nonneg x). lia.
Qed.

Lemma wrap_loop_fits mc ws : forall line n,
  n = len (unwords line) -> len (unwords (line ++ ws)) <= mc ->
  wrap_loop mc ws line n
  = if truthy (line ++ ws) then [unwords (line ++ ws)] else [].
Proof.
  induction ws as [|w ws IH]; intros line n Hn Hfit.
  - rewrite app_nil_r. apply wrap_loop_nil.
  - rewrite wrap_loop_cons.
    assert (Hadd : n + (len w + (if truthy line then 1 else 0))
                   = len (unwords (line ++ [w]))).
    { destruct line as [|a line]; cbn [truthy].
      - subst n. change (unwords ([] ++ [w])) with w.
        change (len (unwords [])) with 0. lia.
      - rewrite len_unwords_snoc by discriminate. lia. }
    assert (Hle : len (unwords (line ++ [w])) <= mc).
    { pose proof (unwords_prefix_le (line ++ [w]) ws) as H.
      rewrite <- app_assoc in H. simpl in H. lia. }
    replace (n + (len w + (if truthy line then 1 else 0)) >? mc) with false
      by (symmetry; rewrite Z.gtb_ltb; apply Z.ltb_ge; lia).
    destruct line as [|a line]; cbn [truthy].
    + rewrite IH; [reflexivity|reflexivity|exact Hfit].
    + rewrite IH.
      * now rewrite <- app_assoc.
      * exact Hadd.
      * now rewrite <- app_assoc.
Qed.

(** X4: a text whose words, joined by single spaces, fit the budget
    comes back as exactly that one line. *)
Theorem wrap_lines_fits (text : str) (max_chars : Z) :
  split text <> [] ->
  len (unwords (split text)) <= max_chars ->
  wrap_lines text max_chars = [unwords (split text)].
Proof.
  intros Hne Hfit. unfold wrap_lines.
  rewrite wrap_loop_fits; [|reflexivity|exact Hfit].
  simpl. destruct (split text); [contradiction|reflexivity].
Qed.

Lemma wrap_lines_fits_witness :
  split (lit "  ab   cd ") <> []
  /\ len (unwords (split (lit "  ab   cd "))) <= 5
  /\ wrap_lines (lit "  ab   cd ") 5 = [lit "ab cd"].
Proof.
  assert (H1 : split (lit "  ab   cd ") <> []) by discriminate.
  assert (H2 : len (unwords (split (lit "  ab   cd "))) <= 5)
    by (vm_compute; discriminate).
  split; [exact H1|]. split; [exact H2|].
  exact (wrap_lines_fits (lit "  ab   cd ") 5 H1 H2).
Defined.

(** *** Lines as groups of words *)

Lemma concat_all_words gs :
  Forall is_word (List.concat gs) -> Forall (Forall is_word) gs.
Proof.
  induction gs as [|g gs IH]; intros H; constructor;
    simpl in H; apply Forall_app in H; [apply H|apply IH, H].
Qed.

Lemma wrap_lines_groups text mc :
  exists gs, wrap_lines text mc = map unwords gs
             /\ List.concat gs = split text
             /\ Forall (Forall is_word) gs.
Proof.
  destruct (wrap_loop_groups mc (split text) [] 0) as [gs [E C]].
  exists gs. split; [exact E|]. split; [exact C|].
  apply concat_all_words. change ([] ++ split text) with (split text) in C.
  rewrite C. apply split_words.
Qed.

(** X5: every line is already in normal form: it has no leading,
    trailing or doubled whitespace, so splitting it into words and
    joining them with single spaces gives the line back. *)
Theorem wrap_lines_normalised (text : str) (max_chars : Z) :
  Forall (fun ln => unwords (split ln) = ln) (wrap_lines text max_chars).
Proof.
  destruct (wrap_lines_groups text max_chars) as [gs [E [_ Hgs]]].
  rewrite E. clear E. induction Hgs as [|g gs Hg _ IH]; constructor.
  - now rewrite split_unwords.
  - exact IH.
Qed.

(** X6: wrapping is idempotent: joining the lines with spaces and
    wrapping again at the same budget gives the same lines. *)
Theorem wrap_lines_rewrap (text : str) (max_chars : Z) :
  wrap_lines (join [space] (wrap_lines text max_chars)) max_chars
  = wrap_lines text max_chars.
Proof.
  destruct (wrap_lines_groups text max_chars) as [gs [E [C Hgs]]].
  unfold wrap_lines at 1. rewrite E at 1.
  rewrite split_join_groups by assumption. rewrite C. reflexivity.
Qed.

(** When every word fits the budget no line is empty. *)
Lemma wrap_lines_nonempty_fit text mc :
  Forall (fun w => len w <= mc) (split text) ->
  Forall (fun ln => ln <> []) (wrap_lines text mc).
Proof.
  intros Hfit. unfold wrap_lines. pose proof (split_words text) as Hw.
  destruct (split text) as [|w ws]; [constructor|].
  inversion Hw as [|? ? Hw1 Hws]; subst.
  inversion Hfit as [|? ? Hf1 _]; subst.
  rewrite wrap_loop_cons. cbn [truthy].
  replace (0 + (len w + 0) >? mc) with false
    by (symmetry; rewrite Z.gtb_ltb; apply Z.ltb_ge; lia).
  apply wrap_loop_nonempty; try assumption; [now constructor|discriminate].
Qed.

End TextMore.

(* ================================================================== *)
(** * Further properties of the script *)
(* ================================================================== *)

Module ScriptMore.
Import Py Reportlab Script TextProps ScriptProps ScriptMoreProps.
Import TextFacts TextMore ScriptFacts.

Local Open Scope float_scope.
Local Open Scope Z_scope.

Lemma bind_raise {A B} (m : M A) (f : A -> M B) w e w' :
  m w = (Raise e, w') -> bind m f w = (Raise e, w').
Proof. unfold bind. now intros ->. Qed.

Lemma bind_emit {B} c (f : unit -> M B) w :
  bind (emit c) f w = f tt (snd (emit c w)).
Proof. reflexivity. Qed.

Lemma bind_ret {A B} (a : A) (f : A -> M B) w : bind (ret a) f w = f a w.
Proof. reflexivity. Qed.

Lemma bind_raise_l {A B} e (f : A -> M B) w :
  bind (raise e) f w = (Raise e, w).
Proof. reflexivity. Qed.

Lemma bind_lift {A B} (o : Outcome A) (f : A -> M B) w :
  bind (lift o) f w
  = match o with
    | Ok a => f a w
    | Raise e => (Raise e, w)
    | OutOfFuel => (OutOfFuel, w)
    end.
Proof. now destruct o. Qed.

(** ** The body text of a page *)

Lemma lorem_words_short :
  Forall (fun w => Text.len w <= 13)
         (Text.split (List.concat (repeat LOREM 6))).
Proof.
  apply Forall_forall. intros w Hw.
  assert (H : forallb (fun w => Text.len w <=? 13)
                      (Text.split (List.concat (repeat LOREM 6))) = true)
    by (vm_compute; reflexivity).
  rewrite forallb_forall in H. apply Z.leb_le. now apply H.
Qed.

Lemma lorem_lines mc :
  40 <= mc ->
  Forall (fun ln => 0 < Text.len ln <= mc)
         (wrap_lines (List.concat (repeat LOREM 6)) mc).
Proof.
  intros Hmc. unfold wrap_lines.
  set (text := List.concat (repeat LOREM 6)).
  pose proof (wrap_lines_line_ok text mc ltac:(lia)) as Hok.
  assert (Hne : Forall (fun ln => ln <> []) (Text.wrap_lines text mc)).
  { apply wrap_lines_nonempty_fit.
    eapply Forall_impl; [|exact lorem_words_short].
    cbv beta. intros; lia. }
  rewrite Forall_forall in *. intros ln Hin. split.
  - specialize (Hne ln Hin). destruct ln; [contradiction|].
    unfold Text.len. simpl List.length. lia.
  - destruct (Hok ln Hin) as [H|[Hw Hlong]]; [exact H|].
    pose proof lorem_words_short as Hs. rewrite Forall_forall in Hs.
    specialize (Hs ln Hw). lia.
Qed.

Lemma body_text_lines (P : Text.str -> Prop) x0 line_h lines : forall y,
  Forall P lines ->
  Forall (fun c => forall ln, body_line c = Some ln -> P ln)
         (body_text x0 y line_h lines).
Proof.
  induction lines as [|l lines IH]; intros y H; simpl; [constructor|].
  inversion H as [|? ? Hl Hls]; subst.
  destruct (PrimFloat.ltb y _); constructor.
  - intros ln E. injection E as <-. exact Hl.
  - now apply IH.
Qed.

(** X7: whatever the page width and the font size, every line of body
    text that [draw_page] draws is non-empty and no longer than the
    character budget [max(40, int(...))] computed for the page. *)
Theorem draw_page_text_lines i (w h : float) font_name font_size wd :
  exists cs,
    canvas (snd (draw_page_text i w h font_name font_size wd))
    = cs ++ canvas wd
    /\ Forall (fun c => forall ln, body_line c = Some ln ->
                 forall n,
                   int_of_float ((w - 2 * margin) / (nearest font_size * 0.55))
                   = inr n ->
                   0 < Text.len ln <= Z.max 40 n) cs.
Proof.
  unfold draw_page_text. cbv zeta.
  set (hdr := [drawString margin (h - margin - 18)
                 (SizeLabel w h font_name font_size);
               setFont font_name font_size;
               drawString margin (h - margin) (TitleLabel i);
               setFont font_name (font_size + 4)]).
  assert (Hhdr : Forall (fun c => forall ln, body_line c = Some ln ->
                 forall n,
                   int_of_float ((w - 2 * margin) / (nearest font_size * 0.55))
                   = inr n ->
                   0 < Text.len ln <= Z.max 40 n) hdr).
  { subst hdr.
    repeat (apply Forall_cons; [intros ln E; discriminate E|]).
    apply Forall_nil. }
  rewrite !bind_emit.
  set (w4 := snd (emit _ (snd (emit _ (snd (emit _ (snd (emit _ wd)))))))).
  assert (C4 : canvas w4 = hdr ++ canvas wd) by reflexivity.
  rewrite bind_lift. unfold of_int.
  destruct (Z.abs font_size <? float_limit);
    [|exists hdr; split; [exact C4|exact Hhdr]].
  unfold fdiv. destruct (PrimFloat.eqb _ 0).
  { rewrite bind_raise_l. exists hdr. split; [exact C4|exact Hhdr]. }
  rewrite bind_ret.
  unfold int. destruct (int_of_float _) as [e|n] eqn:En.
  { rewrite bind_raise_l. exists hdr. split; [exact C4|exact Hhdr]. }
  rewrite bind_ret, bind_lift.
  match goal with
  | |- context [emit_all ?cs w4] =>
      destruct (emit_all_run cs w4) as [w5 [E5 [C5 _]]]; rewrite E5;
      exists (rev cs ++ hdr)
  end.
  split.
  - simpl snd. rewrite C5, C4. now rewrite app_assoc.
  - apply Forall_app. split; [|exact Hhdr]. apply Forall_rev.
    eapply Forall_impl;
      [|apply (body_text_lines (fun ln => 0 < Text.len ln <= Z.max 40 n));
        apply lorem_lines; lia].
    cbv beta. intros c Hc ln E n' En'. injection En' as <-. now apply Hc.
Qed.

(** ** The figure variants *)

Lemma draw_colors_length n : forall rng,
  List.length (fst (draw_colors n rng)) = n.
Proof.
  induction n as [|n IH]; intros rng; [reflexivity|].
  cbn [draw_colors].
  destruct (Random.random rng) as [r rng1].
  destruct (Random.random rng1) as [g rng2].
  destruct (Random.random rng2) as [b rng3].
  specialize (IH rng3). destruct (draw_colors n rng3) as [cs rng4].
  cbn [fst List.length] in *. now rewrite IH.
Qed.

Lemma range_length n : List.length (range n) = Z.to_nat n.
Proof. unfold range. now rewrite length_map, length_seq. Qed.

Lemma figure_variant_shape env w h complexity seed step grid0 v fv :
  figure_variant env w h complexity seed step grid0 v = Ok fv ->
  List.length (colors fv) = 4%nat
  /\ List.length (paths fv) = 4%nat
  /\ Forall (fun p => List.length p = Z.to_nat complexity) (paths fv)
  /\ for_all (fun k => for_all (path_point env (w * 0.5) (h * 0.55)
                                           (fmin w h * 0.38) complexity k)
                               (range complexity))
             (range 4) = Ok (paths fv)
  /\ grid fv = grid0 /\ grid_r fv = (step * 0.35)%float.
Proof.
  unfold figure_variant. cbv zeta. unfold and_then at 1.
  destruct (for_all _ (range 4)) as [ps| |] eqn:E; [|discriminate|discriminate].
  intros H. injection H as <-. cbn [colors paths grid grid_r].
  split; [exact (draw_colors_length 4 (Random.seed (seed + v * 137)))|].
  split; [now rewrite (for_all_length _ _ _ E), range_length|].
  split; [|repeat split].
  eapply for_all_each; [|exact E]. cbv beta. intros k p _ Hp.
  now rewrite (for_all_length _ _ _ Hp), range_length.
Qed.

Lemma figure_variants_inv env (w h : float) complexity variants seed data :
  _figure_variants__wrapped env (w, h, complexity, variants, seed) = Ok data ->
  exists step g,
    for_all (figure_variant env w h complexity seed step g) (range variants)
    = Ok data.
Proof.
  unfold _figure_variants__wrapped.
  destruct (grid_rows _ _ _ _ _) as [g|]; [|discriminate].
  intros E. eexists _, g. exact E.
Qed.

(** X8: [_figure_variants] returns as many variants as asked for; each
    has 4 colours and 4 paths of [complexity] points; and all of them
    have the same paths and the same grid, so that two variants can
    differ in their colours only. *)
Theorem figure_variants_shape env (w h : float) complexity variants seed data :
  _figure_variants__wrapped env (w, h, complexity, variants, seed) = Ok data ->
  List.length data = Z.to_nat variants
  /\ forall fv, In fv data ->
       List.length (colors fv) = 4%nat
       /\ List.length (paths fv) = 4%nat
       /\ Forall (fun p => List.length p = Z.to_nat complexity) (paths fv)
       /\ forall fv', In fv' data ->
            paths fv' = paths fv /\ grid fv' = grid fv
            /\ grid_r fv' = grid_r fv.
Proof.
  intros E. split; [exact (figure_variants_length _ _ _ _ _ _ _ E)|].
  destruct (figure_variants_inv _ _ _ _ _ _ _ E) as [step [g Ed]]. clear E.
  intros fv Hfv. destruct (for_all_in _ _ _ _ Ed Hfv) as [v [_ Ev]].
  destruct (figure_variant_shape _ _ _ _ _ _ _ _ _ Ev)
    as [H1 [H2 [H3 [H4 [H5 H6]]]]].
  split; [exact H1|]. split; [exact H2|]. split; [exact H3|].
  intros fv' Hfv'. destruct (for_all_in _ _ _ _ Ed Hfv') as [v' [_ Ev']].
  destruct (figure_variant_shape _ _ _ _ _ _ _ _ _ Ev')
    as [_ [_ [_ [H4' [H5' H6']]]]].
  split; [congruence|]. split; congruence.
Qed.

Lemma figure_variants_shape_witness :
  exists data,
    _figure_variants__wrapped test_env (100%float, 100%float, 3, 2, 0)
    = Ok data
    /\ List.length data = 2%nat.
Proof.
  assert (E : exists data,
            _figure_variants__wrapped test_env (100%float, 100%float, 3, 2, 0)
            = Ok data).
  { destruct (_figure_variants__wrapped test_env
                (100%float, 100%float, 3, 2, 0)) as [data| |] eqn:E;
      [now exists data|exfalso..]; revert E; vm_compute; discriminate. }
  destruct E as [data E]. exists data. split; [exact E|].
  exact (proj1 (figure_variants_shape test_env 100 100 3 2 0 data E)).
Defined.

(** *** How much a figure draws *)

Lemma pairs_length {A} (l : list A) :
  List.length (pairs l) = (List.length l - 1)%nat.
Proof.
  unfold pairs. rewrite length_combine. destruct l as [|a l]; [reflexivity|].
  cbn [tl List.length]. rewrite Nat.min_r by apply Nat.le_succ_diag_r.
  now rewrite Nat.sub_1_r.
Qed.

Lemma filter_length_app {A} (f : A -> bool) l1 l2 :
  List.length (filter f (l1 ++ l2))
  = (List.length (filter f l1) + List.length (filter f l2))%nat.
Proof. now rewrite filter_app, length_app. Qed.

Lemma segments_lines (ps : list (Point * Point)) :
  List.length
    (filter is_line
       (map (fun s => let '((x1, y1), (x2, y2)) := s in line x1 y1 x2 y2) ps))
  = List.length ps.
Proof.
  induction ps as [|[[x1 y1] [x2 y2]] ps IH]; simpl; [reflexivity|].
  now rewrite IH.
Qed.

Lemma segments_circles (ps : list (Point * Point)) :
  filter is_circle
    (map (fun s => let '((x1, y1), (x2, y2)) := s in line x1 y1 x2 y2) ps)
  = [].
Proof.
  induction ps as [|[[x1 y1] [x2 y2]] ps IH]; simpl; [reflexivity|exact IH].
Qed.

Lemma circles_lines r (g : list Point) :
  filter is_line (map (fun p => let '(x, y) := p in circle x y r) g) = [].
Proof. induction g as [|[x y] g IH]; simpl; [reflexivity|exact IH]. Qed.

Lemma circles_circles r (g : list Point) :
  List.length
    (filter is_circle (map (fun p => let '(x, y) := p in circle x y r) g))
  = List.length g.
Proof.
  induction g as [|[x y] g IH]; simpl; [reflexivity|now rewrite IH].
Qed.

Lemma paths_lines k (l : list (Color * list Point)) :
  Forall (fun cp => List.length (snd cp) = k) l ->
  List.length (filter is_line (List.concat (map path_strokes l)))
  = (List.length l * (k - 1))%nat
  /\ filter is_circle (List.concat (map path_strokes l)) = [].
Proof.
  induction 1 as [|[[[r g] b] pts] l Hk _ [IH1 IH2]]; [split; reflexivity|].
  cbn [map List.concat]. rewrite filter_length_app, filter_app, IH1, IH2.
  cbn [path_strokes filter is_line is_circle snd] in *.
  rewrite segments_lines, segments_circles, pairs_length, Hk.
  split; [simpl; lia|reflexivity].
Qed.

Lemma combine_snd {A B} (P : B -> Prop) (l1 : list A) (l2 : list B) :
  Forall P l2 -> Forall (fun ab => P (snd ab)) (combine l1 l2).
Proof.
  intros H. revert l1. induction H as [|b l2 Hb _ IH]; intros [|a l1];
    simpl; constructor; [exact Hb|apply IH].
Qed.

(** X9: the figure drawn for a variant that [_figure_variants] returned
    consists of exactly [4 * (complexity - 1)] line segments (none when
    the complexity is 1) and one circle for each point of the grid. *)
Theorem figure_strokes_count env (w h : float) complexity variants seed
        data fv :
  _figure_variants__wrapped env (w, h, complexity, variants, seed) = Ok data ->
  In fv data ->
  List.length (filter is_line (variant_strokes fv))
  = (4 * (Z.to_nat complexity - 1))%nat
  /\ List.length (filter is_circle (variant_strokes fv))
     = List.length (grid fv).
Proof.
  intros E Hfv.
  destruct (figure_variants_inv _ _ _ _ _ _ _ E) as [step [g Ed]]. clear E.
  destruct (for_all_in _ _ _ _ Ed Hfv) as [v [_ Ev]].
  destruct (figure_variant_shape _ _ _ _ _ _ _ _ _ Ev) as [H1 [H2 [H3 _]]].
  unfold variant_strokes.
  destruct (paths_lines (Z.to_nat complexity) (combine (colors fv) (paths fv)))
    as [L1 L2].
  { now apply (combine_snd (fun p => List.length p = Z.to_nat complexity)). }
  rewrite !filter_length_app, L1, L2.
  cbn [filter is_line is_circle List.length].
  rewrite circles_lines, circles_circles, length_combine, H1, H2.
  simpl. lia.
Qed.

Lemma figure_strokes_count_witness :
  exists data fv,
    _figure_variants__wrapped test_env (100%float, 100%float, 3, 2, 0)
    = Ok data
    /\ In fv data
    /\ List.length (filter is_line (variant_strokes fv)) = 8%nat.
Proof.
  assert (E : exists data,
            _figure_variants__wrapped test_env (100%float, 100%float, 3, 2, 0)
            = Ok data).
  { destruct (_figure_variants__wrapped test_env
                (100%float, 100%float, 3, 2, 0)) as [data| |] eqn:E;
      [now exists data|exfalso..]; revert E; vm_compute; discriminate. }
  destruct E as [data E].
  pose proof (figure_variants_length _ _ _ _ _ _ _ E) as Hlen.
  destruct data as [|fv data]; [discriminate Hlen|].
  exists (fv :: data), fv. split; [exact E|]. split; [now left|].
  exact (proj1 (figure_strokes_count test_env 100 100 3 2 0 (fv :: data) fv
                  E (or_introl eq_refl))).
Defined.

(** ** Runs that fail *)

(** X12: when images are enabled and Pillow cannot be imported, [main]
    exits with the installation hint before the canvas is created:
    nothing is drawn, saved or printed. *)
Theorem main_requires_pillow env args w :
  pillow_installed env = false ->
  arg_no_images args = false ->
  main env args w
  = (Raise (SystemExit
      "Pillow is required for --no-images to be false. Install it with: pip install pillow"),
     snd (random_seed (arg_seed args) w)).
Proof.
  intros Hp Hn. unfold main, image_config, _require_pillow.
  cbn [enabled]. rewrite Hp, Hn. reflexivity.
Qed.

Lemma main_requires_pillow_witness :
  fst (main bare_env zero_pages_args fresh)
  = Raise (SystemExit
      "Pillow is required for --no-images to be false. Install it with: pip install pillow")
  /\ trace (snd (main bare_env zero_pages_args fresh)) = [].
Proof.
  rewrite (main_requires_pillow bare_env zero_pages_args fresh eq_refl eq_refl).
  split; reflexivity.
Defined.

Lemma range2_cons a b : a < b -> range2 a b = a :: range2 (a + 1) b.
Proof.
  intros H. unfold range2.
  replace (Z.to_nat (b - a)) with (S (Z.to_nat (b - (a + 1)))) by lia.
  cbn [seq map]. f_equal; [lia|].
  rewrite <- seq_shift, map_map. apply map_ext. intros k. lia.
Qed.

Lemma draw_page_text_zero_font i w h font_name wd :
  exists wd',
    draw_page_text i w h font_name 0 wd = (Raise ZeroDivisionError, wd')
    /\ canvas wd'
       = [drawString margin (h - margin - 18)%float
            (SizeLabel w h font_name 0);
          setFont font_name 0;
          drawString margin (h - margin)%float (TitleLabel i);
          setFont font_name 4] ++ canvas wd
    /\ stdout wd' = stdout wd.
Proof.
  unfold draw_page_text. cbv zeta. rewrite !bind_emit, bind_lift.
  change (of_int 0) with (Ok (nearest 0)). cbv iota beta. unfold fdiv.
  replace (PrimFloat.eqb (nearest 0 * 0.55) 0) with true by reflexivity.
  rewrite bind_raise_l.
  eexists. split; [reflexivity|]. split; reflexivity.
Qed.

(** X13: a font size of 0 is not rejected.  With at least one page (and
    Pillow installed or images off), [main] fails with
    [ZeroDivisionError] while it lays out the text of the first page:
    the canvas has received the page size and the two heading lines,
    no page is completed, nothing is saved and nothing is printed. *)
Theorem main_zero_font_size env args :
  arg_font_size args = 0 ->
  1 <= arg_pages args ->
  arg_no_images args = true \/ pillow_installed env = true ->
  exists w',
    main env args fresh = (Raise ZeroDivisionError, w')
    /\ trace w'
       = (let size := page_size_for 1 (arg_vary_sizes args) in
          let x0 := margin in
          let y0 := (snd size - margin)%float in
          [Canvas (arg_output args) size (if arg_fast args then 0 else 1);
           setPageSize size;
           setFont (arg_font args) 4;
           drawString x0 y0 (TitleLabel 1);
           setFont (arg_font args) 0;
           drawString x0 (y0 - 18)%float
             (SizeLabel (fst size) (snd size) (arg_font args) 0)])
    /\ stdout w' = [].
Proof.
  intros Hf Hp Hi.
  destruct (page_size_for 1 (arg_vary_sizes args)) as [w h] eqn:Es.
  set (w0 := snd (random_seed (arg_seed args) fresh)).
  set (w1 := snd (emit (Canvas (arg_output args) (w, h)
                          (if arg_fast args then 0 else 1)) w0)).
  set (w2 := snd (emit (setPageSize (w, h)) w1)).
  destruct (draw_page_text_zero_font 1 w h (arg_font args) w2)
    as [w3 [E3 [C3 S3]]].
  exists w3. split; [|split].
  - unfold main.
    rewrite (range2_cons 1 (arg_pages args + 1)) by lia.
    assert (E : (if enabled (image_config args) then _require_pillow env
                 else ret tt) = ret tt).
    { unfold image_config, _require_pillow; simpl.
      destruct Hi as [-> | ->]; [reflexivity|].
      now destruct (arg_no_images args). }
    rewrite E, Hf, Es. clear E. cbn [for_each]. rewrite Es.
    rewrite (bind_ok (random_seed _) _ fresh tt w0 eq_refl).
    rewrite bind_ret, bind_emit. fold w0 w1.
    apply bind_raise, bind_raise. rewrite bind_emit. fold w2.
    apply bind_raise. unfold draw_page. apply bind_raise. exact E3.
  - unfold trace. rewrite C3. reflexivity.
  - rewrite S3. reflexivity.
Qed.

Lemma main_zero_font_size_witness :
  exists w',
    main test_env zero_font_args fresh = (Raise ZeroDivisionError, w')
    /\ List.length (trace w') = 6%nat /\ stdout w' = [].
Proof.
  destruct (main_zero_font_size test_env zero_font_args eq_refl
              ltac:(simpl; lia) (or_intror eq_refl)) as [w' [E [T S]]].
  exists w'. split; [exact E|]. split; [now rewrite T|exact S].
Defined.

(** ** What a step adds to the canvas and to the output *)

Lemma grows_trans P Q w1 w2 w3 :
  grows P Q w1 w2 -> grows P Q w2 w3 -> grows P Q w1 w3.
Proof.
  intros [[cs [C HP]] [ms [S HQ]]] [[cs' [C' HP']] [ms' [S' HQ']]]. split.
  - exists (cs' ++ cs). split; [rewrite C', C; apply app_assoc|].
    apply Forall_app. now split.
  - exists (ms' ++ ms). split; [rewrite S', S; apply app_assoc|].
    apply Forall_app. now split.
Qed.

Lemma inner_body_text x0 line_h lines : forall y,
  Forall inner (body_text x0 y line_h lines).
Proof.
  induction lines as [|ln lines IH]; intros y; simpl; [constructor|].
  destruct (PrimFloat.ltb y _); constructor; [exact I|apply IH].
Qed.

Lemma inner_segments (ps : list (Point * Point)) :
  Forall inner
    (map (fun s => let '((x1, y1), (x2, y2)) := s in line x1 y1 x2 y2) ps).
Proof.
  induction ps as [|[[x1 y1] [x2 y2]] ps IH]; simpl; constructor;
    [exact I|exact IH].
Qed.

Lemma inner_rects (rs : list Rect) :
  Forall inner
    (map (fun r => let '(rx, ry, rw, rh) := r in rect rx ry rw rh) rs).
Proof.
  induction rs as [|[[[rx ry] rw] rh] rs IH]; simpl; constructor;
    [exact I|exact IH].
Qed.

Lemma inner_variant_strokes fv : Forall inner (variant_strokes fv).
Proof.
  unfold variant_strokes. apply Forall_app. split.
  - induction (combine (colors fv) (paths fv)) as [|[[[r g] b] pts] l IH];
      simpl; [constructor|].
    constructor; [exact I|]. apply Forall_app. split; [|exact IH].
    apply inner_segments.
  - constructor; [exact I|].
    induction (grid fv) as [|[x y] l IH]; simpl; constructor;
      [exact I|exact IH].
Qed.

Section Grew.
Variable P : Cmd -> Prop.
Variable Q : Msg -> Prop.

Local Abbreviation grew := (grew P Q).

Lemma grew_same {A} (m : M A) :
  (forall w, canvas (snd (m w)) = canvas w /\ stdout (snd (m w)) = stdout w) ->
  grew m.
Proof.
  intros H w. destruct (H w) as [C S].
  split; exists []; (split; [assumption|constructor]).
Qed.

Lemma grew_ret {A} (a : A) : grew (ret a).
Proof. apply grew_same. intros w. now split. Qed.

Lemma grew_raise {A} e : grew (@raise A e).
Proof. apply grew_same. intros w. now split. Qed.

Lemma grew_lift {A} (o : Outcome A) : grew (lift o).
Proof. apply grew_same. intros w. now split. Qed.

Lemma grew_random_seed a : grew (random_seed a).
Proof. apply grew_same. intros w. now split. Qed.

Lemma grew_emit c : P c -> grew (emit c).
Proof.
  intros Hc w. split.
  - exists [c]. split; [reflexivity|now constructor].
  - exists []. now split.
Qed.

Lemma grew_print m : Q m -> grew (print m).
Proof.
  intros Hm w. split.
  - exists []. now split.
  - exists [m]. split; [reflexivity|now constructor].
Qed.

Lemma grew_bind {A B} (m : M A) (f : A -> M B) :
  grew m -> (forall a, grew (f a)) -> grew (bind m f).
Proof.
  intros Hm Hf w. specialize (Hm w). unfold bind.
  destruct (m w) as [[a| |] w']; simpl in *; try assumption.
  eapply grows_trans; [exact Hm|apply Hf].
Qed.

Lemma grew_for_each {A} (l : list A) body :
  (forall a, grew (body a)) -> grew (for_each l body).
Proof.
  intros Hb. induction l as [|a l IH]; simpl.
  - apply grew_ret.
  - apply grew_bind; [apply Hb|intros _; exact IH].
Qed.

Lemma grew_emit_all cs : Forall P cs -> grew (emit_all cs).
Proof.
  induction 1 as [|c cs Hc Hcs IH]; simpl.
  - apply grew_ret.
  - apply grew_bind; [now apply grew_emit|intros _; exact IH].
Qed.

Lemma grew_fdiv a b : grew (fdiv a b).
Proof.
  unfold fdiv. destruct (PrimFloat.eqb b 0);
    [apply grew_raise|apply grew_ret].
Qed.

Lemma grew_truediv a b : grew (truediv a b).
Proof.
  unfold truediv. destruct (b =? 0); [apply grew_raise|].
  cbv zeta. destruct (PrimFloat.eqb _ _); [apply grew_raise|apply grew_ret].
Qed.

Lemma grew_int x : grew (int x).
Proof.
  unfold int. destruct (int_of_float x); [apply grew_raise|apply grew_ret].
Qed.

Lemma grew_require_pillow env : grew (_require_pillow env).
Proof.
  unfold _require_pillow. destruct (pillow_installed env);
    [apply grew_ret|apply grew_raise].
Qed.

Lemma grew_make_image_reader px v s : grew (_make_image_reader px v s).
Proof.
  apply grew_same. intros w. unfold _make_image_reader.
  destruct (lru_cache _ _ _ _ _). now split.
Qed.

Lemma grew_figure_variants env w h c v s :
  grew (_figure_variants env w h c v s).
Proof.
  apply grew_same. intros wd. unfold _figure_variants.
  destruct (lru_cache _ _ _ _ _). now split.
Qed.

Lemma grew_rects_for_size w h s : grew (_rects_for_size w h s).
Proof.
  apply grew_same. intros wd. unfold _rects_for_size.
  destruct (lru_cache _ _ _ _ _). now split.
Qed.

Lemma grew_image_positions w h n s : grew (_image_positions w h n s).
Proof.
  apply grew_same. intros wd. unfold _image_positions.
  destruct (lru_cache _ _ _ _ _). now split.
Qed.

Hypothesis inner_P : forall c, inner c -> P c.

Lemma grew_inner_all cs : Forall inner cs -> grew (emit_all cs).
Proof.
  intros H. apply grew_emit_all. eapply Forall_impl; [exact inner_P|exact H].
Qed.

Ltac grew_step :=
  lazymatch goal with
  | |- ScriptMoreProps.grew _ _ (bind _ _) =>
      simple apply grew_bind; [|intros ?]
  | |- ScriptMoreProps.grew _ _ (ret _) => simple apply grew_ret
  | |- ScriptMoreProps.grew _ _ (raise _) => simple apply grew_raise
  | |- ScriptMoreProps.grew _ _ (lift _) => simple apply grew_lift
  | |- ScriptMoreProps.grew _ _ (emit _) =>
      simple apply grew_emit; first [apply inner_P; exact I | solve [auto]]
  | |- ScriptMoreProps.grew _ _ (random_seed _) =>
      simple apply grew_random_seed
  | |- ScriptMoreProps.grew _ _ (emit_all _) =>
      simple apply grew_inner_all;
      first [ simple apply inner_body_text | simple apply inner_segments
            | simple apply inner_rects | simple apply inner_variant_strokes ]
  | |- ScriptMoreProps.grew _ _ (fdiv _ _) => simple apply grew_fdiv
  | |- ScriptMoreProps.grew _ _ (truediv _ _) => simple apply grew_truediv
  | |- ScriptMoreProps.grew _ _ (int _) => simple apply grew_int
  | |- ScriptMoreProps.grew _ _ (_require_pillow _) =>
      simple apply grew_require_pillow
  | |- ScriptMoreProps.grew _ _ (_make_image_reader _ _ _) =>
      simple apply grew_make_image_reader
  | |- ScriptMoreProps.grew _ _ (_figure_variants _ _ _ _ _ _) =>
      simple apply grew_figure_variants
  | |- ScriptMoreProps.grew _ _ (_rects_for_size _ _ _) =>
      simple apply grew_rects_for_size
  | |- ScriptMoreProps.grew _ _ (_image_positions _ _ _ _) =>
      simple apply grew_image_positions
  | |- ScriptMoreProps.grew _ _ (if ?b then _ else _) => destruct b
  | |- ScriptMoreProps.grew _ _ (match ?x with _ => _ end) => destruct x
  end.

Ltac grew_tac := cbv zeta; repeat grew_step.

Lemma grew_draw_page_text i w h font_name font_size :
  grew (draw_page_text i w h font_name font_size).
Proof. unfold draw_page_text. grew_tac. Qed.

Lemma grew_draw_page_chart env i w h font_name font_size :
  grew (draw_page_chart env i w h font_name font_size).
Proof. unfold draw_page_chart. grew_tac. Qed.

Lemma grew_draw_page_figures env i w h fc c :
  grew (draw_page_figures env i w h fc c).
Proof. unfold draw_page_figures, draw_heavy_figures. grew_tac. Qed.

Lemma grew_draw_page_rects i w h wr c : grew (draw_page_rects i w h wr c).
Proof. unfold draw_page_rects. grew_tac. Qed.

Hypothesis image_P : forall img x y dw dh, P (drawImage img x y dw dh).

Lemma grew_draw_image w h cfg positions idx rng :
  grew (draw_image w h cfg positions idx rng).
Proof. unfold draw_image. grew_tac. Qed.

Lemma grew_draw_images w h cfg positions idxs : forall rng,
  grew (draw_images w h cfg positions idxs rng).
Proof.
  induction idxs as [|idx idxs IH]; intros rng; simpl.
  - apply grew_ret.
  - apply grew_bind; [apply grew_draw_image|intros; apply IH].
Qed.

Lemma grew_draw_page_images i w h cfg : grew (draw_page_images i w h cfg).
Proof.
  unfold draw_page_images.
  destruct (enabled cfg && (per_page cfg >? 0)); [|apply grew_ret].
  apply grew_bind; [grew_tac|intros; apply grew_draw_images].
Qed.

Lemma grew_draw_page env i w h font_name font_size with_rects fc cfg :
  grew (draw_page env i w h font_name font_size with_rects fc cfg).
Proof.
  unfold draw_page.
  apply grew_bind; [apply grew_draw_page_text|intros _].
  apply grew_bind; [apply grew_draw_page_chart|intros _].
  apply grew_bind; [apply grew_draw_page_figures|intros _].
  apply grew_bind; [apply grew_draw_page_rects|intros _].
  apply grew_draw_page_images.
Qed.

End Grew.

(** ** What a run that returns has added *)

Section Adds.
Context {X : Type} (obs : World -> list X).

Lemma adds_same {A} (m : M A) :
  (forall w, obs (snd (m w)) = obs w) -> adds obs [] m.
Proof. intros H w _. now rewrite app_nil_r. Qed.

Lemma adds_ret {A} (a : A) : adds obs [] (ret a).
Proof. apply adds_same. reflexivity. Qed.

Lemma adds_fails {A} s (m : M A) :
  (forall w, is_ok (fst (m w)) = false) -> adds obs s m.
Proof. intros H w Hok. rewrite H in Hok. discriminate Hok. Qed.

Lemma adds_raise {A} s e : adds obs s (@raise A e).
Proof. apply adds_fails. reflexivity. Qed.

Lemma adds_bind_eq {A B} s s1 s2 (m : M A) (f : A -> M B) :
  s = s1 ++ s2 ->
  adds obs s1 m -> (forall a, adds obs s2 (f a)) -> adds obs s (bind m f).
Proof.
  intros -> Hm Hf w. specialize (Hm w). unfold bind.
  destruct (m w) as [[a| |] w']; simpl in *; try discriminate.
  intros Hok. rewrite (Hf a w' Hok), (Hm eq_refl). now rewrite app_assoc.
Qed.

Lemma adds_bind_nil {A B} s (m : M A) (f : A -> M B) :
  adds obs [] m -> (forall a, adds obs s (f a)) -> adds obs s (bind m f).
Proof. apply adds_bind_eq. reflexivity. Qed.

Lemma adds_for_each {A} (g : A -> list X) (l : list A) body :
  (forall a, adds obs (g a) (body a)) ->
  adds obs (flat_map g l) (for_each l body).
Proof.
  intros Hb. induction l as [|a l IH]; simpl.
  - apply adds_ret.
  - eapply adds_bind_eq; [reflexivity|apply Hb|intros _; exact IH].
Qed.

End Adds.

(** *** The outline *)

Lemma inner_unmarked c : inner c -> mark c = None.
Proof. destruct c; simpl; intros H; (reflexivity || contradiction). Qed.

Lemma marks_app cs1 cs2 : marks (cs1 ++ cs2) = marks cs1 ++ marks cs2.
Proof.
  induction cs1 as [|c cs1 IH]; simpl; [reflexivity|].
  destruct (mark c); simpl; now rewrite IH.
Qed.

Lemma marks_unmarked cs :
  Forall (fun c => mark c = None) cs -> marks cs = [].
Proof.
  induction 1 as [|c cs Hc _ IH]; simpl; [reflexivity|]. now rewrite Hc.
Qed.

Lemma outline_grew Q {A} (m : M A) :
  grew (fun c => mark c = None) Q m -> adds outline [] m.
Proof.
  intros H. apply adds_same. intros w.
  destruct (H w) as [[cs [C HP]] _]. unfold outline, trace.
  rewrite C, rev_app_distr, marks_app, (marks_unmarked (rev cs)).
  - apply app_nil_r.
  - now apply Forall_rev.
Qed.

Lemma outline_emit c : adds outline (marks [c]) (emit c).
Proof.
  intros w _. unfold outline. rewrite trace_emit. apply marks_app.
Qed.

Ltac still_step :=
  lazymatch goal with
  | |- grew _ _ (bind _ _) => simple apply grew_bind; [|intros ?]
  | |- grew _ _ (ret _) => simple apply grew_ret
  | |- grew _ _ (raise _) => simple apply grew_raise
  | |- grew _ _ (lift _) => simple apply grew_lift
  | |- grew _ _ (random_seed _) => simple apply grew_random_seed
  | |- grew _ _ (fdiv _ _) => simple apply grew_fdiv
  | |- grew _ _ (truediv _ _) => simple apply grew_truediv
  | |- grew _ _ (int _) => simple apply grew_int
  | |- grew _ _ (_require_pillow _) => simple apply grew_require_pillow
  | |- grew _ _ (_make_image_reader _ _ _) =>
      simple apply grew_make_image_reader
  | |- grew _ _ (_image_positions _ _ _ _) =>
      simple apply grew_image_positions
  | |- grew _ _ (if ?b then _ else _) => destruct b
  | |- grew _ _ (match ?x with _ => _ end) => destruct x
  end.

(** A step that leaves canvas and output as they are. *)
Ltac still := cbv zeta; repeat still_step.

Lemma outline_draw_image w h cfg positions idx rng :
  adds outline [MImage] (draw_image w h cfg positions idx rng).
Proof.
  unfold draw_image.
  apply adds_bind_nil; [apply (outline_grew no_msg); still|].
  intros [variant rng1].
  apply adds_bind_nil; [apply (outline_grew no_msg); still|].
  intros img. destruct (getSize img) as [iw ih].
  destruct positions as [ps|].
  - destruct (nth_error ps (Z.to_nat idx)) as [[[[x y] dw] dh]|];
      [|apply adds_raise].
    apply adds_bind_nil; [apply (outline_grew no_msg); still|]. intros r.
    apply (adds_bind_eq outline _ [MImage] [] _ _ eq_refl);
      [apply outline_emit|intros _; apply adds_ret].
  - cbv zeta. destruct (Random.uniform _ _ rng1) as [scale rng2].
    apply adds_bind_nil; [apply (outline_grew no_msg); still|]. intros r.
    apply adds_bind_nil; [apply (outline_grew no_msg); still|].
    intros [dw dh].
    destruct (Random.uniform _ _ rng2) as [x rng3].
    destruct (Random.uniform _ _ rng3) as [y rng4].
    apply (adds_bind_eq outline _ [MImage] [] _ _ eq_refl);
      [apply outline_emit|intros _; apply adds_ret].
Qed.

Lemma outline_draw_images w h cfg positions idxs : forall rng,
  adds outline (repeat MImage (List.length idxs))
       (draw_images w h cfg positions idxs rng).
Proof.
  induction idxs as [|idx idxs IH]; intros rng; simpl.
  - apply adds_ret.
  - apply (adds_bind_eq outline _ [MImage] (repeat MImage (List.length idxs))
             _ _ eq_refl); [apply outline_draw_image|intros; apply IH].
Qed.

Lemma outline_draw_page_images i w h cfg :
  adds outline (repeat MImage (images_per_page cfg))
       (draw_page_images i w h cfg).
Proof.
  unfold draw_page_images, images_per_page.
  destruct (enabled cfg); cbn [andb].
  - destruct (per_page cfg >? 0) eqn:E.
    + apply adds_bind_nil; [apply (outline_grew no_msg); still|].
      intros positions. rewrite <- range_length. apply outline_draw_images.
    + replace (Z.to_nat (per_page cfg)) with 0%nat; [apply adds_ret|].
      assert (~ per_page cfg > 0) by (rewrite <- Z.gtb_gt; congruence). lia.
  - apply adds_ret.
Qed.

Lemma outline_draw_page env i w h font_name font_size with_rects fc cfg :
  adds outline (repeat MImage (images_per_page cfg))
       (draw_page env i w h font_name font_size with_rects fc cfg).
Proof.
  unfold draw_page.
  apply adds_bind_nil;
    [apply (outline_grew no_msg), grew_draw_page_text, inner_unmarked|].
  intros _.
  apply adds_bind_nil;
    [apply (outline_grew no_msg), grew_draw_page_chart, inner_unmarked|].
  intros _.
  apply adds_bind_nil;
    [apply (outline_grew no_msg), grew_draw_page_figures, inner_unmarked|].
  intros _.
  apply adds_bind_nil;
    [apply (outline_grew no_msg), grew_draw_page_rects, inner_unmarked|].
  intros _. apply outline_draw_page_images.
Qed.

Lemma outline_main env args :
  adds outline
    (MCanvas (arg_output args) (page_size_for 1 (arg_vary_sizes args))
             (if arg_fast args then 0 else 1)
     :: flat_map (page_marks (arg_vary_sizes args)
                             (images_per_page (image_config args)))
                 (range2 1 (arg_pages args + 1))
     ++ [MSave])
    (main env args).
Proof.
  unfold main.
  apply adds_bind_nil; [apply (outline_grew no_msg); still|]. intros _.
  apply adds_bind_nil; [apply (outline_grew no_msg); still|]. intros _.
  destruct (page_size_for 1 (arg_vary_sizes args)) as [w h].
  eapply adds_bind_eq; [|apply outline_emit|intros _]; [reflexivity|].
  eapply adds_bind_eq; [reflexivity| |intros _].
  - apply adds_for_each. intros i. unfold page_marks.
    destruct (page_size_for i (arg_vary_sizes args)) as [wi hi].
    eapply adds_bind_eq; [|apply outline_emit|intros _]; [reflexivity|].
    eapply adds_bind_eq; [reflexivity|apply outline_draw_page|intros _].
    eapply adds_bind_eq; [|apply outline_emit|intros _]; [reflexivity|].
    apply (outline_grew any_msg).
    destruct (i mod 500 =? 0); [apply grew_print; exact I|apply grew_ret].
  - eapply adds_bind_eq; [|apply outline_emit|intros _]; [reflexivity|].
    apply (outline_grew any_msg). apply grew_print. exact I.
Qed.

(** X14: the structure of the document a completed run produces.  After
    the canvas is created with the size of page 1, every page from 1 to
    [pages] in turn sets its size from [page_size_for], draws exactly
    as many images as configured (none with [--no-images]) and is
    closed by [showPage]; the document is saved once, at the very
    end. *)
Theorem main_document_outline env args w' :
  main env args fresh = (Ok tt, w') ->
  outline w'
  = MCanvas (arg_output args) (page_size_for 1 (arg_vary_sizes args))
            (if arg_fast args then 0 else 1)
    :: flat_map (page_marks (arg_vary_sizes args)
                            (images_per_page (image_config args)))
                (range2 1 (arg_pages args + 1))
    ++ [MSave].
Proof.
  intros E. pose proof (outline_main env args fresh) as H.
  rewrite E in H. exact (H eq_refl).
Qed.

Lemma main_document_outline_witness :
  exists w',
    main test_env scenario_args fresh = (Ok tt, w')
    /\ outline w'
       = [MCanvas (Text.lit "big.pdf") A4 0;
          MPage A4; MImage; MShow;
          MPage A4; MImage; MShow;
          MPage A4; MImage; MShow;
          MSave].
Proof.
  pose proof (proj1 (scenario_run test_env eq_refl)) as E.
  destruct (main test_env scenario_args fresh) as [o w'] eqn:E'.
  cbn [fst] in E. subst o. exists w'. split; [reflexivity|].
  rewrite (main_document_outline test_env scenario_args w' E').
  reflexivity.
Defined.

(** *** The output *)

Lemma printed_grew P {A} (m : M A) : grew P no_msg m -> adds printed [] m.
Proof.
  intros H. apply adds_same. intros w.
  destruct (H w) as [_ [ms [S HQ]]]. unfold printed. rewrite S.
  destruct HQ as [|m0 ms F _]; [reflexivity|destruct F].
Qed.

Lemma printed_print m : adds printed [m] (print m).
Proof. intros w _. reflexivity. Qed.

Lemma flat_map_filter {A B} (p : A -> bool) (f : A -> B) (l : list A) :
  flat_map (fun a => if p a then [f a] else []) l = map f (filter p l).
Proof.
  induction l as [|a l IH]; simpl; [reflexivity|].
  destruct (p a); simpl; now rewrite IH.
Qed.

Lemma printed_main env args :
  adds printed
    (map (fun i => Progress i (arg_pages args))
         (filter (fun i => i mod 500 =? 0) (range2 1 (arg_pages args + 1)))
     ++ [Done (arg_pages args) (arg_output args)])
    (main env args).
Proof.
  unfold main.
  apply adds_bind_nil; [apply (printed_grew (fun _ => True)); still|].
  intros _.
  apply adds_bind_nil; [apply (printed_grew (fun _ => True)); still|].
  intros _.
  destruct (page_size_for 1 (arg_vary_sizes args)) as [w h].
  apply adds_bind_nil;
    [apply (printed_grew (fun _ => True)), grew_emit; exact I|].
  intros _.
  eapply adds_bind_eq; [reflexivity| |intros _].
  - rewrite <- flat_map_filter. apply adds_for_each. intros i.
    destruct (page_size_for i (arg_vary_sizes args)) as [wi hi].
    apply adds_bind_nil;
      [apply (printed_grew (fun _ => True)), grew_emit; exact I|].
    intros _.
    apply adds_bind_nil.
    { apply (printed_grew (fun _ => True)), grew_draw_page;
        intros; exact I. }
    intros _.
    apply adds_bind_nil;
      [apply (printed_grew (fun _ => True)), grew_emit; exact I|].
    intros _.
    destruct (i mod 500 =? 0); [apply printed_print|apply adds_ret].
  - apply adds_bind_nil;
      [apply (printed_grew (fun _ => True)), grew_emit; exact I|].
    intros _. apply printed_print.
Qed.



(** *** Runs that do not return *)

Lemma inner_unsaved c : inner c -> unsaved c.
Proof. intros H E. subst c. exact H. Qed.

Lemma fail_bind P Q {A B} (m : M A) (f : A -> M B) :
  grew P Q m ->
  (forall a w, is_ok (fst (f a w)) = false -> grows P Q w (snd (f a w))) ->
  forall w, is_ok (fst (bind m f w)) = false ->
            grows P Q w (snd (bind m f w)).
Proof.
  intros Hm Hf w. specialize (Hm w). unfold bind.
  destruct (m w) as [[a| |] w']; simpl in *; intros Hok; try assumption.
  eapply grows_trans; [exact Hm|now apply Hf].
Qed.

Lemma main_fail env args w :
  is_ok (fst (main env args w)) = false ->
  grows unsaved progress_only w (snd (main env args w)).
Proof.
  unfold main. revert w.
  apply fail_bind; [apply grew_random_seed|]. intros _.
  apply fail_bind; [still|]. intros _.
  destruct (page_size_for 1 (arg_vary_sizes args)) as [w h].
  apply fail_bind; [apply grew_emit; discriminate|]. intros _.
  apply fail_bind.
  - apply grew_for_each. intros i.
    destruct (page_size_for i (arg_vary_sizes args)) as [wi hi].
    apply grew_bind; [apply grew_emit; discriminate|]. intros _.
    apply grew_bind.
    { apply grew_draw_page; [exact inner_unsaved|discriminate]. }
    intros _.
    apply grew_bind; [apply grew_emit; discriminate|]. intros _.
    destruct (i mod 500 =? 0); [apply grew_print; exact I|apply grew_ret].
  - intros _ w0 Hok. discriminate Hok.
Qed.

(** X16: a run that does not return normally has not saved the
    document, and it has printed nothing but progress lines: the
    closing line appears only after a successful save. *)
Theorem main_failure_unsaved env args :
  is_ok (fst (main env args fresh)) = false ->
  ~ In save (trace (snd (main env args fresh)))
  /\ Forall progress_only (printed (snd (main env args fresh))).
Proof.
  intros Hok. destruct (main_fail env args fresh Hok)
    as [[cs [C HP]] [ms [S HQ]]].
  unfold trace, printed. rewrite C, S, !app_nil_r. split.
  - rewrite <- in_rev. intros Hin. rewrite Forall_forall in HP.
    now apply (HP save Hin).
  - now apply Forall_rev.
Qed.

Lemma main_failure_unsaved_witness :
  is_ok (fst (main test_env zero_font_args fresh)) = false
  /\ ~ In save (trace (snd (main test_env zero_font_args fresh)))
  /\ Forall progress_only (printed (snd (main test_env zero_font_args fresh))).
Proof.
  assert (H : is_ok (fst (main test_env zero_font_args fresh)) = false)
    by (vm_compute; reflexivity).
  split; [exact H|]. exact (main_failure_unsaved test_env zero_font_args H).
Defined.

(** *** Runs without images *)

Lemma quiet_main_without_images env args :
  arg_no_images args = true \/ arg_images_per_page args <= 0 ->
  quiet (main env args).
Proof.
  intros H. unfold main.
  assert (E : enabled (image_config args)
              && (per_page (image_config args) >? 0) = false).
  { unfold image_config. cbn [enabled per_page].
    destruct H as [-> | H]; [reflexivity|].
    replace (Z.max 0 (arg_images_per_page args) >? 0) with false;
      [apply andb_false_r|].
    symmetry. rewrite Z.gtb_ltb. apply Z.ltb_ge. lia. }
  apply quiet_bind; [apply quiet_random_seed|]. intros _.
  apply quiet_bind.
  { destruct (enabled _); [apply quiet_require_pillow|apply quiet_ret]. }
  intros _.
  destruct (page_size_for 1 (arg_vary_sizes args)) as [w h].
  apply quiet_bind; [apply quiet_emit; exact I|]. intros _.
  apply quiet_bind.
  - apply quiet_for_each. intros i.
    destruct (page_size_for i (arg_vary_sizes args)) as [wi hi].
    apply quiet_bind; [apply quiet_emit; exact I|]. intros _.
    apply quiet_bind.
    { unfold draw_page.
      apply quiet_bind; [apply quiet_draw_page_text|]. intros _.
      apply quiet_bind; [apply quiet_draw_page_chart|]. intros _.
      apply quiet_bind; [apply quiet_draw_page_figures|]. intros _.
      apply quiet_bind; [apply quiet_draw_page_rects|]. intros _.
      unfold draw_page_images. rewrite E. apply quiet_ret. }
    intros _.
    apply quiet_bind; [apply quiet_emit; exact I|]. intros _.
    destruct (i mod 500 =? 0); [apply quiet_print|apply quiet_ret].
  - intros _.
    apply quiet_bind; [apply quiet_emit; exact I|]. intros _.
    apply quiet_print.
Qed.

(** X17: with [--no-images], or with no image per page, a run draws no
    image at all, and the texture generator is never called: the
    texture cache stays empty, however the run ends. *)
Theorem main_without_images env args :
  arg_no_images args = true \/ arg_images_per_page args <= 0 ->
  Forall plain (trace (snd (main env args fresh)))
  /\ image_readers (snd (main env args fresh)) = empty_cache.
Proof.
  intros H.
  destruct (quiet_main_without_images env args H fresh) as [E [cs [C HP]]].
  split; [|exact E].
  unfold trace. rewrite C, app_nil_r. now apply Forall_rev.
Qed.

Lemma main_without_images_witness :
  (arg_no_images no_images_args = true
   \/ arg_images_per_page no_images_args <= 0)
  /\ Forall plain (trace (snd (main bare_env no_images_args fresh)))
  /\ image_readers (snd (main bare_env no_images_args fresh)) = empty_cache.
Proof.
  split; [left; reflexivity|].
  exact (main_without_images bare_env no_images_args (or_introl eq_refl)).
Defined.

(** ** What the caches hand out *)

Section LruFacts.
Context {K V : Type} (keqb : K -> K -> bool).

Lemma lookup_found k (l : list (K * V)) v :
  lookup keqb k l = Some v -> exists k', In (k', v) l /\ keqb k k' = true.
Proof.
  induction l as [|[k' v'] l IH]; simpl; [discriminate|].
  destruct (keqb k k') eqn:E.
  - intros H; injection H as ->. exists k'. split; [now left|exact E].
  - intros H. destruct (IH H) as [k'' [Hin Hk]]. exists k''.
    split; [now right|exact Hk].
Qed.

Lemma remove_sub k (l : list (K * V)) x : In x (remove keqb k l) -> In x l.
Proof.
  induction l as [|[k' v'] l IH]; simpl; [tauto|].
  destruct (keqb k k'); simpl; [tauto|].
  intros [E|Hin]; [now left|right; now apply IH].
Qed.

Lemma remove_found_length k (l : list (K * V)) v :
  lookup keqb k l = Some v ->
  S (List.length (remove keqb k l)) = List.length l.
Proof.
  induction l as [|[k' v'] l IH]; simpl; [discriminate|].
  destruct (keqb k k'); [reflexivity|].
  intros H. simpl. now rewrite IH.
Qed.

(** A value that comes out of the cache is what the function returns
    for the key, or was stored under a key equal to it. *)
Lemma lru_cache_result n f k (c : Lru K V) v :
  fst (lru_cache keqb n f k c) = Ok v ->
  f k = Ok v \/ exists k', In (k', v) (entries c) /\ keqb k k' = true.
Proof.
  unfold lru_cache. destruct (lookup keqb k (entries c)) as [v'|] eqn:L.
  - cbn [fst]. intros E; injection E as ->. right.
    now apply lookup_found.
  - destruct (f k) as [v'| |]; cbn [fst]; intros E;
      [left; exact E|discriminate E|discriminate E].
Qed.

Lemma lru_cache_raise n f k (c : Lru K V) e :
  fst (lru_cache keqb n f k c) = Raise e -> f k = Raise e.
Proof.
  unfold lru_cache. destruct (lookup keqb k (entries c)) as [v'|].
  - discriminate.
  - destruct (f k) as [v'| |]; cbn [fst]; intros E;
      [discriminate E|exact E|discriminate E].
Qed.

(** An entry of the cache after a call was there before, or is the
    result of the call under its key. *)
Lemma lru_cache_entries n f k (c : Lru K V) k1 v1 :
  In (k1, v1) (entries (snd (lru_cache keqb n f k c))) ->
  In (k1, v1) (entries c)
  \/ (k1 = k /\ fst (lru_cache keqb n f k c) = Ok v1).
Proof.
  unfold lru_cache. destruct (lookup keqb k (entries c)) as [v'|].
  - cbn [fst snd entries]. intros [E|Hin].
    + injection E as <- <-. right. now split.
    + left. eapply remove_sub, Hin.
  - destruct (f k) as [v'| |]; cbn [fst snd entries]; try tauto.
    intros Hin. apply in_firstn in Hin. destruct Hin as [E|Hin].
    + injection E as <- <-. right. now split.
    + now left.
Qed.

End LruFacts.

(** ** Invariants of the caches over a run *)

(** A property [I] of the world that drawing and printing do not
    affect, and that each call through a cache preserves when it
    returns, for the arguments the run passes, holds after a run of
    [main] that returns; after a run that fails there holds [J], which
    is what a failing call leaves of [I]. *)
Section Walk.
Variable env : Env.
Variable args : Args.
Variables I J : World -> Prop.

Hypothesis I_J : forall w, I w -> J w.
Hypothesis I_emit : forall c w, I w -> I (snd (emit c w)).
Hypothesis I_print : forall m w, I w -> I (snd (print m w)).
Hypothesis I_seed : forall a w, I w -> I (snd (random_seed a w)).
Hypothesis I_textures : forall v,
  0 <= v < Z.max 1 (variants (image_config args)) ->
  preserves I J
    (_make_image_reader (px (image_config args)) v (arg_seed args)).
Hypothesis I_figures : forall i wi hi,
  page_size_for i (arg_vary_sizes args) = (wi, hi) ->
  preserves I J
    (_figure_variants env wi hi (arg_figure_complexity args) 4
                      (arg_seed args)).
Hypothesis I_rects : forall i wi hi,
  page_size_for i (arg_vary_sizes args) = (wi, hi) ->
  preserves I J (_rects_for_size wi hi (arg_seed args)).
Hypothesis I_positions : forall i wi hi,
  page_size_for i (arg_vary_sizes args) = (wi, hi) ->
  preserves I J
    (_image_positions wi hi (per_page (image_config args)) (arg_seed args)).

Local Abbreviation inv := (preserves I J).

Lemma inv_ret {A} (a : A) : inv (ret a).
Proof. intros w H. exact H. Qed.

Lemma inv_raise {A} e : inv (@raise A e).
Proof. intros w H. apply I_J, H. Qed.

Lemma inv_lift {A} (o : Outcome A) : inv (lift o).
Proof. intros w H. destruct o; [exact H|apply I_J, H|apply I_J, H]. Qed.

Lemma inv_bind_run {A B} (m : M A) (f : A -> M B) :
  inv m -> (forall a w w', m w = (Ok a, w') -> inv (f a)) -> inv (bind m f).
Proof.
  intros Hm Hf w H. pose proof (Hm w H) as H1. unfold bind.
  destruct (m w) as [[a| |] w'] eqn:E; cbn [fst snd is_ok] in *;
    [|exact H1|exact H1].
  exact (Hf a w w' E w' H1).
Qed.

Lemma inv_bind {A B} (m : M A) (f : A -> M B) :
  inv m -> (forall a, inv (f a)) -> inv (bind m f).
Proof. intros Hm Hf. apply inv_bind_run; [exact Hm|]. intros; apply Hf. Qed.

Lemma inv_for_each {A} (l : list A) body :
  (forall a, inv (body a)) -> inv (for_each l body).
Proof.
  intros Hb. induction l as [|a l IH]; simpl.
  - apply inv_ret.
  - apply inv_bind; [apply Hb|intros _; exact IH].
Qed.

Lemma inv_emit c : inv (emit c).
Proof. intros w. apply I_emit. Qed.

Lemma inv_print m : inv (print m).
Proof. intros w. apply I_print. Qed.

Lemma inv_emit_all cs : inv (emit_all cs).
Proof. apply inv_for_each. intros c. apply inv_emit. Qed.

Lemma inv_fdiv a b : inv (fdiv a b).
Proof.
  unfold fdiv. destruct (PrimFloat.eqb b 0); [apply inv_raise|apply inv_ret].
Qed.

Lemma inv_truediv a b : inv (truediv a b).
Proof.
  unfold truediv. destruct (b =? 0); [apply inv_raise|].
  cbv zeta. destruct (PrimFloat.eqb _ _); [apply inv_raise|apply inv_ret].
Qed.

Lemma inv_int x : inv (int x).
Proof.
  unfold int. destruct (int_of_float x); [apply inv_raise|apply inv_ret].
Qed.

Ltac inv_step :=
  lazymatch goal with
  | |- preserves _ _ (bind _ _) => simple apply inv_bind; [|intros ?]
  | |- preserves _ _ (ret _) => simple apply inv_ret
  | |- preserves _ _ (raise _) => simple apply inv_raise
  | |- preserves _ _ (lift _) => simple apply inv_lift
  | |- preserves _ _ (emit _) => simple apply inv_emit
  | |- preserves _ _ (print _) => simple apply inv_print
  | |- preserves _ _ (emit_all _) => simple apply inv_emit_all
  | |- preserves _ _ (fdiv _ _) => simple apply inv_fdiv
  | |- preserves _ _ (truediv _ _) => simple apply inv_truediv
  | |- preserves _ _ (int _) => simple apply inv_int
  | |- preserves _ _ (if ?b then _ else _) => destruct b
  | |- preserves _ _ (match ?x with _ => _ end) => destruct x
  end.

Ltac inv_tac := cbv zeta; repeat inv_step.

Lemma inv_draw_image w h positions idx rng :
  inv (draw_image w h (image_config args) positions idx rng).
Proof.
  unfold draw_image.
  apply inv_bind_run; [apply inv_lift|].
  intros [variant rng1] w0 w1 E. unfold lift in E.
  injection E as E _. apply randrange_range in E.
  apply inv_bind; [now apply I_textures|]. intros img.
  inv_tac.
Qed.

Lemma inv_draw_images w h positions idxs : forall rng,
  inv (draw_images w h (image_config args) positions idxs rng).
Proof.
  induction idxs as [|idx idxs IH]; intros rng; simpl.
  - apply inv_ret.
  - apply inv_bind; [apply inv_draw_image|intros; apply IH].
Qed.

Lemma inv_draw_page i wi hi :
  page_size_for i (arg_vary_sizes args) = (wi, hi) ->
  inv (draw_page env i wi hi (arg_font args) (arg_font_size args)
                 (arg_with_rects args) (arg_figure_complexity args)
                 (image_config args)).
Proof.
  intros Es. unfold draw_page.
  apply inv_bind; [unfold draw_page_text; inv_tac|]. intros _.
  apply inv_bind; [unfold draw_page_chart; inv_tac|]. intros _.
  apply inv_bind.
  { unfold draw_page_figures.
    destruct (arg_figure_complexity args >? 0); [|apply inv_ret].
    unfold draw_heavy_figures.
    apply inv_bind; [apply inv_emit|]. intros _.
    apply inv_bind; [apply inv_emit|]. intros _.
    apply inv_bind; [now apply (I_figures i)|]. intros vs.
    inv_tac. }
  intros _.
  apply inv_bind.
  { unfold draw_page_rects. destruct (arg_with_rects args); [|apply inv_ret].
    destruct (fast (image_config args)); [|inv_tac].
    apply inv_bind; [now apply (I_rects i)|]. intros rs.
    inv_tac. }
  intros _.
  unfold draw_page_images.
  destruct (enabled _ && _); [|apply inv_ret].
  apply inv_bind.
  - destruct (fast (image_config args)); [|apply inv_ret].
    apply inv_bind; [now apply (I_positions i)|]. intros ps.
    apply inv_ret.
  - intros positions. apply inv_draw_images.
Qed.

Lemma inv_main : inv (main env args).
Proof.
  unfold main.
  apply inv_bind; [intros w; apply I_seed|]. intros _.
  apply inv_bind.
  { destruct (enabled _); [|apply inv_ret].
    unfold _require_pillow. destruct (pillow_installed env);
      [apply inv_ret|apply inv_raise]. }
  intros _.
  destruct (page_size_for 1 (arg_vary_sizes args)) as [w h].
  apply inv_bind; [apply inv_emit|]. intros _.
  apply inv_bind.
  - apply inv_for_each. intros i.
    destruct (page_size_for i (arg_vary_sizes args)) as [wi hi] eqn:Es.
    apply inv_bind; [apply inv_emit|]. intros _.
    apply inv_bind; [now apply inv_draw_page|]. intros _.
    inv_tac.
  - intros _. inv_tac.
Qed.

Lemma walk_main w : I w -> J (snd (main env args w)).
Proof.
  intros H. pose proof (inv_main w H) as H1.
  destruct (is_ok _); [apply I_J, H1|exact H1].
Qed.

End Walk.

(** *** One layout for each page size *)

Section LruTidy.
Context {K V : Type} (keqb : K -> K -> bool).
Variable S : list K.
Variable n : nat.
Variable f : K -> Outcome V.

Hypothesis keqb_eq :
  forall a b, In a S -> In b S -> keqb a b = true -> a = b.
Hypothesis keqb_refl : forall a, In a S -> keqb a a = true.
Hypothesis fits : (List.length S <= n)%nat.

Lemma lookup_missing k (l : list (K * V)) :
  In k S -> lookup keqb k l = None -> ~ In k (map fst l).
Proof.
  intros Hk. induction l as [|[k' v] l IH]; simpl; [tauto|].
  destruct (keqb k k') eqn:E; [discriminate|].
  intros H [Hk'|Hin]; [|now apply IH].
  subst k'. rewrite (keqb_refl k Hk) in E. discriminate E.
Qed.

Lemma remove_keys_incl k (l : list (K * V)) :
  incl (map fst (remove keqb k l)) (map fst l).
Proof.
  induction l as [|[k' v] l IH]; simpl; [apply incl_refl|].
  destruct (keqb k k').
  - apply incl_tl, incl_refl.
  - apply incl_cons; [left; reflexivity|]. now apply incl_tl.
Qed.

Lemma remove_tidy k (l : list (K * V)) v :
  In k S -> incl (map fst l) S ->
  lookup keqb k l = Some v ->
  NoDup (map fst l) ->
  NoDup (k :: map fst (remove keqb k l)).
Proof.
  intros Hk. induction l as [|[k' v'] l IH]; simpl; [discriminate|].
  intros Hincl Hl Hnd. inversion Hnd as [|? ? Hnotin Hnd']; subst.
  assert (Hk' : In k' S) by (apply Hincl; now left).
  assert (Hincl' : incl (map fst l) S)
    by (intros x Hx; apply Hincl; now right).
  destruct (keqb k k') eqn:E.
  - rewrite (keqb_eq k k' Hk Hk' E). now constructor.
  - pose proof (IH Hincl' Hl Hnd') as Hn.
    inversion Hn as [|? ? Hkr Hr]; subst.
    constructor.
    + simpl. intros [Hkk|Hin]; [|contradiction].
      subst k'. rewrite (keqb_refl k Hk) in E. discriminate E.
    + constructor; [|assumption].
      intros Hin. apply Hnotin. eapply remove_keys_incl; eassumption.
Qed.

(** A call for a key in [S] that returns leaves the cache tidy; one
    that fails was a call for a key the cache did not hold. *)
Lemma tidy_step k (c : Lru K V) :
  tidy S c -> In k S ->
  if is_ok (fst (lru_cache keqb n f k c))
  then tidy S (snd (lru_cache keqb n f k c))
  else (calls (snd (lru_cache keqb n f k c)) <= List.length S)%nat.
Proof.
  intros [Hnd [Hincl Hc]] Hk. unfold lru_cache.
  destruct (lookup keqb k (entries c)) as [v|] eqn:L.
  - cbn [fst snd is_ok]. unfold tidy. cbn [entries calls map fst List.length].
    split; [now apply (remove_tidy k (entries c) v)|]. split.
    + apply incl_cons; [exact Hk|].
      eapply incl_tran; [apply remove_keys_incl|exact Hincl].
    + rewrite (remove_found_length keqb k _ v L). exact Hc.
  - assert (Hnd' : NoDup (k :: map fst (entries c)))
      by (constructor; [now apply lookup_missing|assumption]).
    assert (Hincl' : incl (k :: map fst (entries c)) S)
      by (apply incl_cons; assumption).
    pose proof (NoDup_incl_length Hnd' Hincl') as Hlen.
    cbn [List.length] in Hlen. rewrite length_map in Hlen.
    destruct (f k) as [v| |]; cbn [fst snd is_ok calls];
      [|now rewrite Hc|now rewrite Hc].
    unfold tidy. cbn [entries calls].
    rewrite firstn_all2 by (cbn [List.length]; lia).
    cbn [map fst List.length]. repeat split; [assumption|assumption|].
    now rewrite Hc.
Qed.

Lemma tidy_calls (c : Lru K V) : tidy S c -> (calls c <= List.length S)%nat.
Proof.
  intros [Hnd [Hincl ->]]. rewrite <- (length_map fst).
  now apply NoDup_incl_length.
Qed.

End LruTidy.

Lemma tidy_empty {K V} (S : list K) : tidy S (@empty_cache K V).
Proof.
  split; [constructor|]. split; [intros x []|reflexivity].
Qed.

Lemma page_sizes_all vary :
  incl (page_sizes vary) [A4; LETTER; landscape A4; landscape LETTER].
Proof.
  destruct vary; [apply incl_refl|]. intros s [<-|[]]. now left.
Qed.

Lemma page_sizes_length vary :
  List.length (page_sizes vary) = if vary then 4%nat else 1%nat.
Proof. now destruct vary. Qed.

Lemma page_size_in i vary : In (page_size_for i vary) (page_sizes vary).
Proof.
  destruct vary; [apply page_size_cases|]. now left.
Qed.

(** On the page sizes, [==] on floats is equality. *)
Lemma size_eqb_eq s1 s2 :
  In s1 [A4; LETTER; landscape A4; landscape LETTER] ->
  In s2 [A4; LETTER; landscape A4; landscape LETTER] ->
  PrimFloat.eqb (fst s1) (fst s2) && PrimFloat.eqb (snd s1) (snd s2) = true ->
  s1 = s2.
Proof.
  intros H1 H2. simpl in H1, H2.
  repeat (destruct H1 as [<-|H1]); try contradiction;
  repeat (destruct H2 as [<-|H2]); try contradiction;
    intros E; try reflexivity; exfalso; revert E; vm_compute; discriminate.
Qed.

Lemma size_eqb_refl s :
  In s [A4; LETTER; landscape A4; landscape LETTER] ->
  PrimFloat.eqb (fst s) (fst s) && PrimFloat.eqb (snd s) (snd s) = true.
Proof.
  intros H. simpl in H.
  repeat (destruct H as [<-|H]); try contradiction; vm_compute; reflexivity.
Qed.

Section Layouts.
Variable env : Env.
Variable args : Args.

Lemma figure_keys_eq a b :
  In a (figure_keys args) -> In b (figure_keys args) ->
  figkey_eqb a b = true -> a = b.
Proof.
  unfold figure_keys. intros Ha Hb.
  apply in_map_iff in Ha. destruct Ha as [s1 [<- H1]].
  apply in_map_iff in Hb. destruct Hb as [s2 [<- H2]].
  apply page_sizes_all in H1. apply page_sizes_all in H2.
  unfold figkey_eqb. rewrite !andb_true_iff. intros [[[[Ew Eh] _] _] _].
  rewrite (size_eqb_eq s1 s2 H1 H2); [reflexivity|].
  now rewrite Ew, Eh.
Qed.

Lemma figure_keys_refl a : In a (figure_keys args) -> figkey_eqb a a = true.
Proof.
  unfold figure_keys. intros Ha.
  apply in_map_iff in Ha. destruct Ha as [s [<- H]].
  apply page_sizes_all, size_eqb_refl in H.
  unfold figkey_eqb. now rewrite H, !Z.eqb_refl.
Qed.

Lemma rect_keys_eq a b :
  In a (rect_keys args) -> In b (rect_keys args) ->
  rectkey_eqb a b = true -> a = b.
Proof.
  unfold rect_keys. intros Ha Hb.
  apply in_map_iff in Ha. destruct Ha as [s1 [<- H1]].
  apply in_map_iff in Hb. destruct Hb as [s2 [<- H2]].
  apply page_sizes_all in H1. apply page_sizes_all in H2.
  unfold rectkey_eqb. rewrite !andb_true_iff. intros [[Ew Eh] _].
  rewrite (size_eqb_eq s1 s2 H1 H2); [reflexivity|].
  now rewrite Ew, Eh.
Qed.

Lemma rect_keys_refl a : In a (rect_keys args) -> rectkey_eqb a a = true.
Proof.
  unfold rect_keys. intros Ha.
  apply in_map_iff in Ha. destruct Ha as [s [<- H]].
  apply page_sizes_all, size_eqb_refl in H.
  unfold rectkey_eqb. now rewrite H, !Z.eqb_refl.
Qed.

Lemma position_keys_eq a b :
  In a (position_keys args) -> In b (position_keys args) ->
  poskey_eqb a b = true -> a = b.
Proof.
  unfold position_keys. intros Ha Hb.
  apply in_map_iff in Ha. destruct Ha as [s1 [<- H1]].
  apply in_map_iff in Hb. destruct Hb as [s2 [<- H2]].
  apply page_sizes_all in H1. apply page_sizes_all in H2.
  unfold poskey_eqb. rewrite !andb_true_iff. intros [[[Ew Eh] _] _].
  rewrite (size_eqb_eq s1 s2 H1 H2); [reflexivity|].
  now rewrite Ew, Eh.
Qed.

Lemma position_keys_refl a :
  In a (position_keys args) -> poskey_eqb a a = true.
Proof.
  unfold position_keys. intros Ha.
  apply in_map_iff in Ha. destruct Ha as [s [<- H]].
  apply page_sizes_all, size_eqb_refl in H.
  unfold poskey_eqb. now rewrite H, !Z.eqb_refl.
Qed.

Lemma keys_fit {K} (g : float * float -> K) :
  (List.length (map g (page_sizes (arg_vary_sizes args))) <= 8)%nat.
Proof.
  rewrite length_map, page_sizes_length.
  destruct (arg_vary_sizes args); lia.
Qed.

Lemma figure_keys_fit : (List.length (figure_keys args) <= 8)%nat.
Proof. apply keys_fit. Qed.

Lemma rect_keys_fit : (List.length (rect_keys args) <= 8)%nat.
Proof. apply keys_fit. Qed.

Lemma position_keys_fit : (List.length (position_keys args) <= 8)%nat.
Proof. apply keys_fit. Qed.

Lemma tidy_once w : layouts_tidy args w -> layouts_once args w.
Proof.
  intros [J1 [J2 J3]].
  split; [|split]; eapply tidy_calls; eassumption.
Qed.

Lemma layouts_once_main :
  layouts_once args (snd (main env args fresh)).
Proof.
  apply (walk_main env args (layouts_tidy args) (layouts_once args)).
  - exact tidy_once.
  - intros c w J. exact J.
  - intros m w J. exact J.
  - intros a w J. exact J.
  - intros v _ w J. unfold _make_image_reader.
    destruct (lru_cache _ _ _ _ _) as [o c]. cbn [fst snd].
    destruct (is_ok o); [exact J|exact (tidy_once _ J)].
  - intros i wi hi Es w [J1 [J2 J3]]. unfold _figure_variants.
    pose proof (tidy_step figkey_eqb (figure_keys args) 8
                  (_figure_variants__wrapped env)
                  figure_keys_eq figure_keys_refl figure_keys_fit
                  (wi, hi, arg_figure_complexity args, 4, arg_seed args)
                  (figure_sets w) J1) as T.
    destruct (lru_cache _ _ _ _ _) as [o c]. cbn [fst snd] in *.
    assert (Hk : In (wi, hi, arg_figure_complexity args, 4, arg_seed args)
                    (figure_keys args)).
    { unfold figure_keys. apply in_map_iff.
      exists (page_size_for i (arg_vary_sizes args)).
      split; [now rewrite Es|apply page_size_in]. }
    specialize (T Hk). destruct (is_ok o).
    + split; [exact T|split; assumption].
    + split; [exact T|]. split; eapply tidy_calls; eassumption.
  - intros i wi hi Es w [J1 [J2 J3]]. unfold _rects_for_size.
    pose proof (tidy_step rectkey_eqb (rect_keys args) 8
                  _rects_for_size__wrapped
                  rect_keys_eq rect_keys_refl rect_keys_fit
                  (wi, hi, arg_seed args) (rect_layouts w) J2) as T.
    destruct (lru_cache _ _ _ _ _) as [o c]. cbn [fst snd] in *.
    assert (Hk : In (wi, hi, arg_seed args) (rect_keys args)).
    { unfold rect_keys. apply in_map_iff.
      exists (page_size_for i (arg_vary_sizes args)).
      split; [now rewrite Es|apply page_size_in]. }
    specialize (T Hk). destruct (is_ok o).
    + split; [assumption|split; [exact T|assumption]].
    + split; [eapply tidy_calls; eassumption|].
      split; [exact T|eapply tidy_calls; eassumption].
  - intros i wi hi Es w [J1 [J2 J3]]. unfold _image_positions.
    pose proof (tidy_step poskey_eqb (position_keys args) 8
                  _image_positions__wrapped
                  position_keys_eq position_keys_refl position_keys_fit
                  (wi, hi, per_page (image_config args), arg_seed args)
                  (image_layouts w) J3) as T.
    destruct (lru_cache _ _ _ _ _) as [o c]. cbn [fst snd] in *.
    assert (Hk : In (wi, hi, per_page (image_config args), arg_seed args)
                    (position_keys args)).
    { unfold position_keys. apply in_map_iff.
      exists (page_size_for i (arg_vary_sizes args)).
      split; [now rewrite Es|apply page_size_in]. }
    specialize (T Hk). destruct (is_ok o).
    + split; [assumption|split; [assumption|exact T]].
    + split; [eapply tidy_calls; eassumption|].
      split; [eapply tidy_calls; eassumption|exact T].
  - split; [apply tidy_empty|]. split; apply tidy_empty.
Qed.

End Layouts.

(** X20: the heavy precomputations are done once for each page size,
    not once for each page.  In every run the figure geometry, the
    rectangle layout (of fast mode) and the image positions (of fast
    mode) are each computed at most 4 times when page sizes vary, and
    at most once when they do not, however many pages there are. *)
Theorem main_layouts_once env args :
  (calls (figure_sets (snd (main env args fresh)))
   <= if arg_vary_sizes args then 4 else 1)%nat
  /\ (calls (rect_layouts (snd (main env args fresh)))
      <= if arg_vary_sizes args then 4 else 1)%nat
  /\ (calls (image_layouts (snd (main env args fresh)))
      <= if arg_vary_sizes args then 4 else 1)%nat.
Proof.
  destruct (layouts_once_main env args) as [J1 [J2 J3]].
  unfold figure_keys, rect_keys, position_keys in *.
  rewrite length_map, page_sizes_length in J1, J2, J3.
  repeat split; assumption.
Qed.

(** ** How a run can fail *)

Lemma figkey_eqb_variants k k' :
  figkey_eqb k k' = true -> snd (fst k) = snd (fst k').
Proof.
  destruct k as [[[[a1 a2] a3] a4] a5], k' as [[[[b1 b2] b3] b4] b5].
  unfold figkey_eqb. rewrite !andb_true_iff, !Z.eqb_eq.
  intros [[[_ _] H] _]. exact H.
Qed.

Lemma poskey_eqb_per_page k k' :
  poskey_eqb k k' = true -> snd (fst k) = snd (fst k').
Proof.
  destruct k as [[[a1 a2] a3] a4], k' as [[[b1 b2] b3] b4].
  unfold poskey_eqb. rewrite !andb_true_iff, !Z.eqb_eq.
  intros [[_ H] _]. exact H.
Qed.

Lemma random_positions_length n w h : forall rng,
  List.length (random_positions n w h rng) = n.
Proof.
  induction n as [|n IH]; intros rng; [reflexivity|].
  cbn [random_positions]. cbv zeta.
  destruct (Random.uniform 0.35 0.7 rng) as [scale rng1].
  destruct (PrimFloat.ltb _ _).
  - destruct (Random.uniform _ _ rng1) as [x rng2].
    destruct (Random.uniform _ _ rng2) as [y rng3].
    cbn [List.length]. now rewrite IH.
  - destruct (Random.uniform _ _ rng1) as [x rng2].
    destruct (Random.uniform _ _ rng2) as [y rng3].
    cbn [List.length]. now rewrite IH.
Qed.

(** [randrange(n)] raises nothing when [n] is positive. *)
Lemma randrange_positive n s e :
  0 < n -> Random.randrange n s <> Raise e.
Proof.
  intros Hn. unfold Random.randrange.
  replace (0 <? n) with true by (symmetry; now apply Z.ltb_lt).
  destruct (Random.randbelow _ _ _) as [[r s1]|]; discriminate.
Qed.

Lemma int_of_float_no_index x : int_of_float x <> inl IndexError.
Proof.
  unfold int_of_float. destruct (Prim2SF x) as [s|s| |s m e]; discriminate.
Qed.

Lemma text_budget_no_index w font_size :
  text_budget w font_size <> Raise IndexError.
Proof.
  unfold text_budget, of_int, and_then.
  destruct (Z.abs font_size <? float_limit); [|discriminate].
  destruct (PrimFloat.eqb _ 0); [discriminate|].
  pose proof (int_of_float_no_index
                ((w - 2 * margin) / (nearest font_size * 0.55))%float) as N.
  destruct (int_of_float _) as [e|n]; [|discriminate].
  intros H. injection H as ->. now apply N.
Qed.

(** The conversion of an [int] to a [float] ends where the nearest
    float would be an infinity. *)
Lemma of_int_limit :
  of_int (float_limit - 1) = Ok 0x1.fffffffffffffp+1023%float
  /\ of_int float_limit = Raise OverflowError
  /\ of_int (- float_limit) = Raise OverflowError
  /\ nearest float_limit = PrimFloat.infinity.
Proof. repeat split; vm_compute; reflexivity. Qed.

(** What the conversions and the trigonometric functions raise. *)
Lemma of_int_raise z e : of_int z = Raise e -> e = OverflowError.
Proof.
  unfold of_int. destruct (Z.abs z <? float_limit); [discriminate|].
  intros H. now injection H as <-.
Qed.

Lemma math_sin_raise env x e : math_sin env x = Raise e -> e = ValueError.
Proof.
  unfold math_sin, math_domain, and_then.
  destruct (PrimFloat.eqb _ _); [|discriminate].
  intros H. now injection H as <-.
Qed.

Lemma math_cos_raise env x e : math_cos env x = Raise e -> e = ValueError.
Proof.
  unfold math_cos, math_domain, and_then.
  destruct (PrimFloat.eqb _ _); [|discriminate].
  intros H. now injection H as <-.
Qed.

Lemma and_then_raise {A B} (o : Outcome A) (f : A -> Outcome B) e :
  and_then o f = Raise e -> o = Raise e \/ exists a, o = Ok a /\ f a = Raise e.
Proof.
  destruct o as [a|e'|]; cbn [and_then]; intros H;
    [right; now exists a|left; now injection H as ->|discriminate H].
Qed.

Lemma chart_point_raise env i cx cy cw ch k e :
  chart_point env i cx cy cw ch k = Raise e ->
  e = OverflowError \/ e = ValueError.
Proof.
  unfold chart_point. cbv zeta. intros H.
  apply and_then_raise in H. destruct H as [H|[fi [_ H]]];
    [left; now apply of_int_raise in H|].
  apply and_then_raise in H. destruct H as [H|[s [_ H]]];
    [right; now apply math_sin_raise in H|discriminate H].
Qed.

Lemma path_point_raise env cx cy radius complexity k t e :
  path_point env cx cy radius complexity k t = Raise e ->
  e = OverflowError \/ e = ValueError \/ e = ZeroDivisionError.
Proof.
  unfold path_point. intros H.
  apply and_then_raise in H. destruct H as [H|[ft [_ H]]];
    [left; now apply of_int_raise in H|].
  apply and_then_raise in H. destruct H as [H|[fc [_ H]]];
    [left; now apply of_int_raise in H|].
  apply and_then_raise in H. destruct H as [H|[a [_ H]]].
  { unfold float_truediv in H. destruct (PrimFloat.eqb fc 0);
      [|discriminate H]. injection H as <-. right. now right. }
  apply and_then_raise in H. destruct H as [H|[s2 [_ H]]];
    [right; left; now apply math_sin_raise in H|].
  cbv zeta in H.
  apply and_then_raise in H. destruct H as [H|[c1 [_ H]]];
    [right; left; now apply math_cos_raise in H|].
  apply and_then_raise in H. destruct H as [H|[s3 [_ H]]];
    [right; left; now apply math_sin_raise in H|discriminate H].
Qed.

(** The figure generator raises nothing but what the conversion to a
    float, the division and the trigonometric functions raise. *)
Lemma figure_variants_raise env k e :
  _figure_variants__wrapped env k = Raise e ->
  e = OverflowError \/ e = ValueError \/ e = ZeroDivisionError.
Proof.
  destruct k as [[[[w h] c] n] s]. unfold _figure_variants__wrapped.
  destruct (grid_rows _ _ _ _ _) as [g|]; [|discriminate].
  intros H. apply for_all_raise in H. destruct H as [v [_ H]].
  unfold figure_variant in H. cbv zeta in H.
  apply and_then_raise in H. destruct H as [H|[ps [_ H]]]; [|discriminate H].
  apply for_all_raise in H. destruct H as [k [_ H]].
  apply for_all_raise in H. destruct H as [t [_ H]].
  now apply path_point_raise in H.
Qed.

Lemma range2_in a b i : In i (range2 a b) -> a <= i < b.
Proof.
  unfold range2. intros H. apply in_map_iff in H.
  destruct H as [k [<- Hk]]. apply in_seq in Hk. lia.
Qed.

Lemma range_below n :
  Forall (fun idx => (Z.to_nat idx < Z.to_nat n)%nat) (range n).
Proof.
  unfold range. apply Forall_forall. intros idx Hin.
  apply in_map_iff in Hin. destruct Hin as [k [<- Hk]].
  apply in_seq in Hk. lia.
Qed.

Section Raises.
Variable env : Env.
Variable cfg : ImageConfig.
Hypothesis px_nonzero : px cfg <> 0.

Local Abbreviation run_inv := (run_inv (px cfg)).
Local Abbreviation raises_in := (raises_in (px cfg)).

Lemma raises_same E {A} (m : M A) :
  (forall w, figure_sets (snd (m w)) = figure_sets w
             /\ image_layouts (snd (m w)) = image_layouts w
             /\ image_readers (snd (m w)) = image_readers w
             /\ forall e, fst (m w) = Raise e -> E e) ->
  raises_in E m.
Proof.
  intros H w [[J1 J2] J3]. destruct (H w) as [E1 [E2 [E3 N]]].
  split; [|exact N]. unfold ScriptMoreProps.run_inv, layouts_inv, squares.
  rewrite E1, E2, E3. repeat split; assumption.
Qed.

Lemma raises_weaken (E E' : Exn -> Prop) {A} (m : M A) :
  (forall e, E e -> E' e) -> raises_in E m -> raises_in E' m.
Proof.
  intros HE H w J. destruct (H w J) as [J' N].
  split; [exact J'|]. intros e He. apply HE, N, He.
Qed.

Lemma raises_ret E {A} (a : A) : raises_in E (ret a).
Proof. apply raises_same. intros w. repeat split. discriminate. Qed.

Lemma raises_raise (E : Exn -> Prop) {A} e : E e -> raises_in E (@raise A e).
Proof.
  intros He. apply raises_same. intros w. repeat split.
  intros e' H. injection H as <-. exact He.
Qed.

Lemma raises_lift E {A} (o : Outcome A) :
  (forall e, o = Raise e -> E e) -> raises_in E (lift o).
Proof. intros Ho. apply raises_same. intros w. repeat split. exact Ho. Qed.

Lemma raises_emit E c : raises_in E (emit c).
Proof. apply raises_same. intros w. repeat split. discriminate. Qed.

Lemma raises_print E m : raises_in E (print m).
Proof. apply raises_same. intros w. repeat split. discriminate. Qed.

Lemma raises_random_seed E a : raises_in E (random_seed a).
Proof. apply raises_same. intros w. repeat split. discriminate. Qed.

Lemma raises_bind_run E {A B} (m : M A) (f : A -> M B) :
  raises_in E m ->
  (forall a w w', run_inv w -> m w = (Ok a, w') -> raises_in E (f a)) ->
  raises_in E (bind m f).
Proof.
  intros Hm Hf w J. destruct (Hm w J) as [J1 N1]. unfold bind.
  destruct (m w) as [[a| |] w'] eqn:Em; simpl in *.
  - exact (Hf a w w' J Em w' J1).
  - split; [assumption|]. intros e' H. apply N1. now injection H as ->.
  - split; [assumption|discriminate].
Qed.

Lemma raises_bind E {A B} (m : M A) (f : A -> M B) :
  raises_in E m -> (forall a, raises_in E (f a)) -> raises_in E (bind m f).
Proof.
  intros Hm Hf. apply raises_bind_run; [exact Hm|]. intros; apply Hf.
Qed.

Lemma raises_bind_ret E {A B} (a : A) (f : A -> M B) :
  raises_in E (f a) -> raises_in E (bind (ret a) f).
Proof. intros H w J. exact (H w J). Qed.

Lemma raises_bind_raise (E : Exn -> Prop) {A B} e (f : A -> M B) :
  E e -> raises_in E (bind (raise e) f).
Proof.
  intros He w J. split; [exact J|]. intros e' H. injection H as <-. exact He.
Qed.

Lemma raises_for_each E {A} (l : list A) body :
  (forall a, raises_in E (body a)) -> raises_in E (for_each l body).
Proof.
  intros Hb. induction l as [|a l IH]; simpl.
  - apply raises_ret.
  - apply raises_bind; [apply Hb|intros _; exact IH].
Qed.

Lemma raises_for_each_in E {A} (l : list A) body :
  (forall a, In a l -> raises_in E (body a)) -> raises_in E (for_each l body).
Proof.
  induction l as [|a l IH]; intros Hb; simpl.
  - apply raises_ret.
  - apply raises_bind; [apply Hb; now left|intros _].
    apply IH. intros a' Hin. apply Hb. now right.
Qed.

Lemma raises_bind_lift (E : Exn -> Prop) {A B} (o : Outcome A)
      (f : A -> M B) :
  (forall e, o = Raise e -> E e) ->
  (forall a, o = Ok a -> raises_in E (f a)) ->
  raises_in E (bind (lift o) f).
Proof.
  intros Ho Hf. destruct o as [a|e|].
  - intros w J. exact (Hf a eq_refl w J).
  - intros w J. split; [exact J|]. intros e' H. injection H as <-.
    now apply Ho.
  - intros w J. split; [exact J|]. discriminate.
Qed.

Lemma raises_emit_all E cs : raises_in E (emit_all cs).
Proof. apply raises_for_each. intros c. apply raises_emit. Qed.

Lemma raises_rects_for_size E w h s : raises_in E (_rects_for_size w h s).
Proof.
  apply raises_same. intros wd. unfold _rects_for_size.
  pose proof (lru_cache_raise rectkey_eqb 8 _rects_for_size__wrapped
                (w, h, s) (rect_layouts wd)) as R.
  destruct (lru_cache _ _ _ _ _) as [o c]. cbn [fst snd] in *.
  repeat split. intros e He. specialize (R e He). discriminate R.
Qed.

(** The texture cache hands out [px] by [px] readers and raises
    nothing. *)
Lemma make_image_reader_sound v wd :
  run_inv wd ->
  run_inv (snd (_make_image_reader (px cfg) v (seed cfg) wd))
  /\ (forall e, fst (_make_image_reader (px cfg) v (seed cfg) wd) <> Raise e)
  /\ forall img, fst (_make_image_reader (px cfg) v (seed cfg) wd) = Ok img ->
                 reader_size img = (px cfg, px cfg).
Proof.
  intros [J Hs]. unfold _make_image_reader.
  pose proof (lru_cache_result key3_eqb 8 _make_image_reader__wrapped
                (px cfg, v, seed cfg) (image_readers wd)) as R.
  pose proof (lru_cache_entries key3_eqb 8 _make_image_reader__wrapped
                (px cfg, v, seed cfg) (image_readers wd)) as N.
  pose proof (lru_cache_raise key3_eqb 8 _make_image_reader__wrapped
                (px cfg, v, seed cfg) (image_readers wd)) as X.
  destruct (lru_cache _ _ _ _ _) as [o c]. cbn [fst snd] in *.
  assert (G : forall img, o = Ok img -> reader_size img = (px cfg, px cfg)).
  { intros img E. destruct (R img E) as [H|[k' [Hin _]]].
    - injection H as <-. reflexivity.
    - exact (Hs _ _ Hin). }
  split; [split; [exact J|]|split; [|exact G]].
  - intros k r Hin. cbn [image_readers] in Hin.
    destruct (N k r Hin) as [H|[_ E]]; [exact (Hs _ _ H)|now apply G].
  - intros e E. specialize (X e E). discriminate X.
Qed.

(** The cache of figure variants hands out as many variants as asked
    for and raises nothing but what the generator raises for the key. *)
Lemma figure_variants_sound w h c n s wd :
  run_inv wd ->
  run_inv (snd (_figure_variants env w h c n s wd))
  /\ (forall e, fst (_figure_variants env w h c n s wd) = Raise e ->
                _figure_variants__wrapped env (w, h, c, n, s) = Raise e)
  /\ forall vs, fst (_figure_variants env w h c n s wd) = Ok vs ->
                List.length vs = Z.to_nat n.
Proof.
  intros [[J1 J2] Hs]. unfold _figure_variants.
  pose proof (lru_cache_result figkey_eqb 8 (_figure_variants__wrapped env)
                (w, h, c, n, s) (figure_sets wd)) as R.
  pose proof (lru_cache_entries figkey_eqb 8 (_figure_variants__wrapped env)
                (w, h, c, n, s) (figure_sets wd)) as N.
  pose proof (lru_cache_raise figkey_eqb 8 (_figure_variants__wrapped env)
                (w, h, c, n, s) (figure_sets wd)) as X.
  destruct (lru_cache _ _ _ _ _) as [o cache]. cbn [fst snd] in *.
  assert (G : forall vs, o = Ok vs -> List.length vs = Z.to_nat n).
  { intros vs E. destruct (R vs E) as [H|[k' [Hin Hk]]].
    - exact (figure_variants_length _ _ _ _ _ _ _ H).
    - rewrite (J1 _ _ Hin). apply figkey_eqb_variants in Hk.
      now rewrite <- Hk. }
  split; [split; [split|exact Hs]|split; [|exact G]].
  - cbn [figure_sets]. intros k vs Hin.
    destruct (N k vs Hin) as [H|[-> E]]; [now apply J1|now apply G].
  - exact J2.
  - exact X.
Qed.

(** The cache of image positions hands out one position per image and
    raises nothing. *)
Lemma image_positions_sound w h n s wd :
  run_inv wd ->
  run_inv (snd (_image_positions w h n s wd))
  /\ (forall e, fst (_image_positions w h n s wd) <> Raise e)
  /\ forall ps, fst (_image_positions w h n s wd) = Ok ps ->
                List.length ps = Z.to_nat n.
Proof.
  intros [[J1 J2] Hs]. unfold _image_positions.
  pose proof (lru_cache_result poskey_eqb 8 _image_positions__wrapped
                (w, h, n, s) (image_layouts wd)) as R.
  pose proof (lru_cache_entries poskey_eqb 8 _image_positions__wrapped
                (w, h, n, s) (image_layouts wd)) as N.
  pose proof (lru_cache_raise poskey_eqb 8 _image_positions__wrapped
                (w, h, n, s) (image_layouts wd)) as X.
  destruct (lru_cache _ _ _ _ _) as [o cache]. cbn [fst snd] in *.
  assert (G : forall ps, o = Ok ps -> List.length ps = Z.to_nat n).
  { intros ps E. destruct (R ps E) as [H|[k' [Hin Hk]]].
    - injection H as <-. apply random_positions_length.
    - rewrite (J2 _ _ Hin). apply poskey_eqb_per_page in Hk.
      now rewrite <- Hk. }
  split; [split; [split|exact Hs]|split; [|exact G]].
  - exact J1.
  - cbn [image_layouts]. intros k ps Hin.
    destruct (N k ps Hin) as [H|[-> E]]; [now apply J2|now apply G].
  - intros e E. specialize (X e E). discriminate X.
Qed.

Ltac raises_step :=
  lazymatch goal with
  | |- ScriptMoreProps.raises_in _ _ (bind _ _) =>
      simple apply raises_bind; [|intros ?]
  | |- ScriptMoreProps.raises_in _ _ (ret _) => simple apply raises_ret
  | |- ScriptMoreProps.raises_in _ _ (emit _) => simple apply raises_emit
  | |- ScriptMoreProps.raises_in _ _ (print _) => simple apply raises_print
  | |- ScriptMoreProps.raises_in _ _ (random_seed _) =>
      simple apply raises_random_seed
  | |- ScriptMoreProps.raises_in _ _ (emit_all _) =>
      simple apply raises_emit_all
  | |- ScriptMoreProps.raises_in _ _ (_rects_for_size _ _ _) =>
      simple apply raises_rects_for_size
  | |- ScriptMoreProps.raises_in _ _ (if ?b then _ else _) => destruct b
  | |- ScriptMoreProps.raises_in _ _ (match ?x with _ => _ end) => destruct x
  end.

Ltac raises_tac := cbv zeta; repeat raises_step.

(** The text of a page fails exactly as its budget does. *)
Lemma raises_draw_page_text i w h font_name font_size :
  raises_in (fun e => text_budget w font_size = Raise e)
            (draw_page_text i w h font_name font_size).
Proof.
  unfold draw_page_text. cbv zeta.
  apply raises_bind; [apply raises_emit|]. intros _.
  apply raises_bind; [apply raises_emit|]. intros _.
  apply raises_bind; [apply raises_emit|]. intros _.
  apply raises_bind; [apply raises_emit|]. intros _.
  unfold text_budget.
  destruct (of_int font_size) as [f|e0|]; cbn [and_then].
  - apply raises_bind_lift; [discriminate|]. intros f' Ef. injection Ef as <-.
    unfold fdiv, int. destruct (PrimFloat.eqb _ 0).
    + now apply raises_bind_raise.
    + apply raises_bind_ret.
      destruct (int_of_float _) as [e0|z] eqn:Eq.
      * now apply raises_bind_raise.
      * apply raises_bind_ret.
        apply raises_bind_lift; [discriminate|]. intros f' _.
        apply raises_emit_all.
  - apply raises_bind_lift; [|discriminate]. intros e E.
    now injection E as ->.
  - apply raises_bind_lift; discriminate.
Qed.

(** The chart fails as it does in a new process, and only for a page
    number too large for a float or an angle that is not finite. *)
Lemma raises_draw_page_chart i w h font_name font_size :
  raises_in (fun e => fst (draw_page_chart env i w h font_name font_size
                                           fresh) = Raise e
                      /\ (e = OverflowError \/ e = ValueError))
            (draw_page_chart env i w h font_name font_size).
Proof.
  unfold draw_page_chart. cbv zeta.
  assert (K : forall e,
            for_all (chart_point env i margin (margin + 20)
                       (fmin (140 * mm) (w - 2 * margin)) (35 * mm))
                    (range (120 + 1)) = Raise e ->
            e = OverflowError \/ e = ValueError).
  { intros e H. apply for_all_raise in H. destruct H as [k [_ H]].
    now apply chart_point_raise in H. }
  revert K. generalize (for_all (chart_point env i margin (margin + 20)
                                   (fmin (140 * mm) (w - 2 * margin))
                                   (35 * mm)) (range (120 + 1))).
  intros o K.
  apply raises_bind; [apply raises_emit|]. intros _.
  apply raises_bind_lift.
  - intros e ->. split; [reflexivity|now apply K].
  - intros pts _.
    apply raises_bind; [apply raises_emit_all|]. intros _.
    apply raises_bind; [apply raises_emit|]. intros _. apply raises_emit.
Qed.

Lemma raises_draw_heavy_figures w h complexity variant seed :
  raises_in (fun e => _figure_variants__wrapped env
                        (w, h, complexity, 4, seed) = Raise e)
            (draw_heavy_figures env w h complexity variant seed).
Proof.
  unfold draw_heavy_figures.
  apply raises_bind; [apply raises_emit|]. intros _.
  apply raises_bind; [apply raises_emit|]. intros _.
  apply raises_bind_run.
  { intros wd J.
    destruct (figure_variants_sound w h complexity 4 seed wd J)
      as [J' [N _]].
    split; [exact J'|exact N]. }
  intros vs w0 w1 J E.
  assert (Hlen : List.length vs = 4%nat).
  { apply (proj2 (proj2 (figure_variants_sound w h complexity 4 seed w0 J))).
    now rewrite E. }
  rewrite Hlen. change (Z.of_nat 4 =? 0) with false. cbv iota zeta.
  apply raises_bind_ret.
  destruct (nth_error vs (Z.to_nat (variant mod Z.of_nat 4))) as [fv|] eqn:Hn.
  - raises_tac.
  - exfalso. apply nth_error_None in Hn. rewrite Hlen in Hn.
    pose proof (Z.mod_pos_bound variant 4 ltac:(lia)).
    change (Z.of_nat 4) with 4 in Hn. lia.
Qed.

Lemma raises_draw_image w h positions idx rng :
  (forall ps, positions = Some ps -> (Z.to_nat idx < List.length ps)%nat) ->
  raises_in never (draw_image w h cfg positions idx rng).
Proof.
  intros Hidx. unfold draw_image.
  apply raises_bind.
  { apply raises_lift. intros e E.
    now apply (randrange_positive (Z.max 1 (variants cfg)) rng e ltac:(lia)). }
  intros [variant rng1].
  apply raises_bind_run.
  { intros wd J. destruct (make_image_reader_sound variant wd J)
      as [J' [N _]].
    split; [exact J'|]. intros e E. now apply (N e). }
  intros img w0 w1 J E.
  assert (Hsq : reader_size img = (px cfg, px cfg)).
  { apply (proj2 (proj2 (make_image_reader_sound variant w0 J))).
    now rewrite E. }
  unfold getSize. rewrite Hsq. cbv beta iota.
  rewrite !truediv_self.
  replace (px cfg =? 0) with false by (symmetry; now apply Z.eqb_neq).
  destruct positions as [ps|].
  - destruct (nth_error ps (Z.to_nat idx)) as [[[[x y] dw] dh]|] eqn:Hn.
    + raises_tac.
    + exfalso. apply nth_error_None in Hn.
      specialize (Hidx ps eq_refl). lia.
  - raises_tac.
Qed.

Lemma raises_draw_images w h positions idxs : forall rng,
  (forall ps, positions = Some ps ->
     Forall (fun idx => (Z.to_nat idx < List.length ps)%nat) idxs) ->
  raises_in never (draw_images w h cfg positions idxs rng).
Proof.
  induction idxs as [|idx idxs IH]; intros rng H; simpl.
  - apply raises_ret.
  - apply raises_bind.
    + apply raises_draw_image. intros ps E.
      specialize (H ps E). now inversion H.
    + intros rng'. apply IH. intros ps E.
      specialize (H ps E). now inversion H.
Qed.

Lemma raises_draw_page_images i w h :
  raises_in never (draw_page_images i w h cfg).
Proof.
  unfold draw_page_images.
  destruct (enabled cfg && (per_page cfg >? 0)); [|apply raises_ret].
  cbv zeta. apply raises_bind_run.
  - destruct (fast cfg); [|apply raises_ret].
    apply raises_bind; [|intros ps; apply raises_ret].
    intros wd J.
    destruct (image_positions_sound w h (per_page cfg) (seed cfg) wd J)
      as [J' [N _]].
    split; [exact J'|]. intros e E. now apply (N e).
  - intros positions w0 w1 J E. apply raises_draw_images.
    intros ps ->. destruct (fast cfg); [|discriminate E].
    unfold bind in E.
    pose proof (proj2 (proj2 (image_positions_sound w h (per_page cfg)
                                (seed cfg) w0 J))) as G.
    destruct (_image_positions w h (per_page cfg) (seed cfg) w0)
      as [[ps'| |] w2]; cbn [fst] in *; try discriminate E.
    unfold ret in E. injection E as E _. subst ps'.
    rewrite (G ps eq_refl). apply range_below.
Qed.

Lemma never_any (E : Exn -> Prop) e : never e -> E e.
Proof. intros []. Qed.

(** A page fails in one of three places: the text budget, the chart
    and the figure generator. *)
Lemma raises_draw_page i w h font_name font_size with_rects fc :
  raises_in (fun e =>
               text_budget w font_size = Raise e
               \/ (fst (draw_page_chart env i w h font_name font_size fresh)
                   = Raise e
                   /\ (e = OverflowError \/ e = ValueError))
               \/ (0 < fc
                   /\ _figure_variants__wrapped env (w, h, fc, 4, seed cfg)
                      = Raise e))
            (draw_page env i w h font_name font_size with_rects fc cfg).
Proof.
  unfold draw_page.
  apply raises_bind.
  { eapply raises_weaken; [|apply raises_draw_page_text].
    intros e He. now left. }
  intros _. apply raises_bind.
  { eapply raises_weaken; [|apply raises_draw_page_chart].
    intros e He. right. now left. }
  intros _. apply raises_bind.
  { unfold draw_page_figures. destruct (fc >? 0) eqn:Hfc;
      [|apply raises_ret].
    eapply raises_weaken; [|apply raises_draw_heavy_figures].
    intros e He. right. right. split; [lia|exact He]. }
  intros _.
  apply (raises_weaken never); [apply never_any|].
  apply raises_bind; [unfold draw_page_rects; raises_tac|]. intros _.
  apply raises_draw_page_images.
Qed.

End Raises.

(** Where a run can fail, and with what. *)
Lemma raises_main env args :
  raises_in (px (image_config args))
            (fun e => main_failure env args e /\ e <> IndexError)
            (main env args).
Proof.
  assert (Hpx : px (image_config args) <> 0)
    by (unfold image_config; cbn [px]; lia).
  unfold main.
  assert (Hen : enabled (image_config args) = negb (arg_no_images args))
    by reflexivity.
  set (cfg := image_config args) in *.
  apply raises_bind; [apply raises_random_seed|]. intros _.
  apply raises_bind.
  { rewrite Hen.
    destruct (arg_no_images args) eqn:En; cbn [negb]; [apply raises_ret|].
    unfold _require_pillow. destruct (pillow_installed env) eqn:Ep;
      [apply raises_ret|].
    apply raises_raise. split; [|discriminate].
    left. repeat split; assumption. }
  intros _.
  destruct (page_size_for 1 (arg_vary_sizes args)) as [w h].
  apply raises_bind; [apply raises_emit|]. intros _.
  apply raises_bind.
  - apply raises_for_each_in. intros i Hi. apply range2_in in Hi.
    destruct (page_size_for i (arg_vary_sizes args)) as [wi hi] eqn:Es.
    assert (Hs : In (wi, hi) (page_sizes (arg_vary_sizes args)))
      by (rewrite <- Es; apply page_size_in).
    apply raises_bind; [apply raises_emit|]. intros _.
    apply raises_bind.
    { eapply raises_weaken; [|now apply raises_draw_page].
      cbv beta. intros e [He|[[He Hk]|[Hfc He]]].
      - split.
        + right. left. exists (wi, hi). split; [exact Hs|exact He].
        + intros ->. now apply (text_budget_no_index wi (arg_font_size args)).
      - split.
        + right. right. left. exists i. split; [lia|].
          unfold chart_outcome. rewrite Es. exact He.
        + destruct Hk as [-> | ->]; discriminate.
      - split.
        + right. right. right. split; [exact Hfc|].
          exists (wi, hi, arg_figure_complexity args, 4, arg_seed args).
          split; [|exact He].
          unfold figure_keys. apply in_map_iff. exists (wi, hi).
          split; [reflexivity|exact Hs].
        + apply figure_variants_raise in He.
          destruct He as [-> | [-> | ->]]; discriminate. }
    intros _.
    apply raises_bind; [apply raises_emit|]. intros _.
    destruct (i mod 500 =? 0); [apply raises_print|apply raises_ret].
  - intros _.
    apply raises_bind; [apply raises_emit|]. intros _. apply raises_print.
Qed.

Lemma run_inv_fresh px : run_inv px fresh.
Proof. split; [split|]; intros k v []. Qed.

(** X18: [main] never raises [IndexError].  Every list that comes out
    of the caches of figure variants and of image positions has an
    element for each index the page loop asks for: four variants for
    [variant % len(variants)], and one position for each of the
    [per_page] images. *)
Theorem main_never_index_error env args :
  fst (main env args fresh) <> Raise IndexError.
Proof.
  intros E.
  now destruct (proj2 (raises_main env args fresh (run_inv_fresh _)) _ E).
Qed.

(** X21: where the script's own code makes a run fail.  The calls into
    reportlab and Pillow are taken not to fail, and memory not to run
    out.  If [main] raises, then the exception comes from one of four
    places: images are enabled and Pillow is missing (the exit with the
    installation hint); or it comes out of the character budget
    [int((w - 2 * margin) / (font_size * 0.55))] of one of the page
    sizes in use, the conversion of the font size to a float included;
    or out of a point of the chart of one of the pages, where the page
    number is converted to a float; or, when figures are asked for, out
    of [_figure_variants] for one of the page sizes in use, where the
    complexity is converted to a float.  Nothing else raises: the
    variant index and the image index are always in range, [randrange]
    is always given a positive bound, and the aspect ratio of a texture
    never divides by zero. *)
Theorem main_failures env args e :
  fst (main env args fresh) = Raise e ->
  main_failure env args e.
Proof.
  intros E.
  exact (proj1 (proj2 (raises_main env args fresh (run_inv_fresh _)) e E)).
Qed.

Lemma main_failures_witness :
  fst (main test_env zero_font_args fresh) = Raise ZeroDivisionError
  /\ main_failure test_env zero_font_args ZeroDivisionError.
Proof.
  assert (H : fst (main test_env zero_font_args fresh)
              = Raise ZeroDivisionError) by (vm_compute; reflexivity).
  split; [exact H|].
  exact (main_failures test_env zero_font_args ZeroDivisionError H).
Defined.

(** ** Pages do not depend on one another *)

Section LruFaithful.
Context {K V : Type} (keqb : K -> K -> bool).
Variable inS : K -> Prop.
Variable f : K -> Outcome V.

Hypothesis reflect :
  forall a b, inS a -> inS b -> keqb a b = true -> a = b.

(** Through a cache that holds results of [f] only, a call returns what
    [f] returns. *)
Lemma lru_cache_faithful n k (c : Lru K V) :
  inS k ->
  (forall k' v, In (k', v) (entries c) -> inS k' /\ f k' = Ok v) ->
  fst (lru_cache keqb n f k c) = f k
  /\ forall k' v, In (k', v) (entries (snd (lru_cache keqb n f k c))) ->
                  inS k' /\ f k' = Ok v.
Proof.
  intros Hk Hc. unfold lru_cache.
  destruct (lookup keqb k (entries c)) as [v|] eqn:L.
  - destruct (lookup_found keqb k _ v L) as [k' [Hin Ek]].
    destruct (Hc k' v Hin) as [Hk' Hf].
    rewrite <- (reflect k k' Hk Hk' Ek) in Hf.
    cbn [fst snd entries]. split; [now rewrite Hf|].
    intros k1 v1 [E|Hin1].
    + injection E as <- <-. now split.
    + eapply Hc, remove_sub, Hin1.
  - destruct (f k) as [v| |] eqn:Ef; cbn [fst snd entries];
      (split; [reflexivity|]); try exact Hc.
    intros k1 v1 Hin. apply in_firstn in Hin. destruct Hin as [E|Hin].
    + injection E as <- <-. now split.
    + now apply Hc.
Qed.

End LruFaithful.

Section Agree.
Variable env : Env.
Variable args : Args.

Local Abbreviation F := (caches_faithful env args).
Local Abbreviation agree := (agree (caches_faithful env args)).

(** A step that does not look at the caches. *)
Lemma agree_blind {A} (o : Outcome A) cs (m : M A) :
  (forall w, fst (m w) = o
             /\ canvas (snd (m w)) = cs ++ canvas w
             /\ image_readers (snd (m w)) = image_readers w
             /\ figure_sets (snd (m w)) = figure_sets w
             /\ rect_layouts (snd (m w)) = rect_layouts w
             /\ image_layouts (snd (m w)) = image_layouts w) ->
  agree m.
Proof.
  intros H w1 w2 [J1 [J2 [J3 J4]]] _.
  destruct (H w1) as [O1 [C1 [E1 [E2 [E3 E4]]]]].
  destruct (H w2) as [O2 [C2 _]].
  split; [|split; [congruence|exists cs; now split]].
  unfold caches_faithful. rewrite E1, E2, E3, E4.
  split; [exact J1|]. split; [exact J2|]. split; [exact J3|exact J4].
Qed.

Lemma agree_ret {A} (a : A) : agree (ret a).
Proof. apply (agree_blind (Ok a) []). intros w. repeat split. Qed.

Lemma agree_raise {A} e : agree (@raise A e).
Proof. apply (agree_blind (Raise e) []). intros w. repeat split. Qed.

Lemma agree_lift {A} (o : Outcome A) : agree (lift o).
Proof. apply (agree_blind o []). intros w. repeat split. Qed.

Lemma agree_emit c : agree (emit c).
Proof. apply (agree_blind (Ok tt) [c]). intros w. repeat split. Qed.

Lemma agree_bind {A B} (m : M A) (f : A -> M B) :
  agree m -> (forall a, agree (f a)) -> agree (bind m f).
Proof.
  intros Hm Hf w1 w2 J1 J2.
  destruct (Hm w1 w2 J1 J2) as [J1' [O [cs [C1 C2]]]].
  destruct (Hm w2 w1 J2 J1) as [J2' _].
  unfold bind.
  destruct (m w1) as [o1 w1'], (m w2) as [o2 w2']. cbn [fst snd] in *.
  subst o2. destruct o1 as [a| |].
  - destruct (Hf a w1' w2' J1' J2') as [J1'' [O' [cs' [C1' C2']]]].
    split; [exact J1''|]. split; [exact O'|].
    exists (cs' ++ cs). rewrite C1', C2', C1, C2. now rewrite !app_assoc.
  - split; [exact J1'|]. split; [reflexivity|]. exists cs. now split.
  - split; [exact J1'|]. split; [reflexivity|]. exists cs. now split.
Qed.

Lemma agree_for_each {A} (l : list A) body :
  (forall a, agree (body a)) -> agree (for_each l body).
Proof.
  intros Hb. induction l as [|a l IH]; simpl.
  - apply agree_ret.
  - apply agree_bind; [apply Hb|intros _; exact IH].
Qed.

Lemma agree_emit_all cs : agree (emit_all cs).
Proof. apply agree_for_each. intros c. apply agree_emit. Qed.

Lemma agree_fdiv a b : agree (fdiv a b).
Proof.
  unfold fdiv. destruct (PrimFloat.eqb b 0);
    [apply agree_raise|apply agree_ret].
Qed.

Lemma agree_truediv a b : agree (truediv a b).
Proof.
  unfold truediv. destruct (b =? 0); [apply agree_raise|].
  cbv zeta. destruct (PrimFloat.eqb _ _); [apply agree_raise|apply agree_ret].
Qed.

Lemma agree_int x : agree (int x).
Proof.
  unfold int. destruct (int_of_float x); [apply agree_raise|apply agree_ret].
Qed.

(** The caches are transparent: from any two worlds with faithful
    caches a call through a cache gives the same result. *)
Lemma agree_make_image_reader px v s : agree (_make_image_reader px v s).
Proof.
  intros w1 w2 [J1 [J2 [J3 J4]]] [K1 _]. unfold _make_image_reader.
  destruct (lru_cache_faithful key3_eqb (fun _ => True)
              _make_image_reader__wrapped
              (fun a b _ _ E => proj1 (key3_eqb_eq a b) E)
              8 (px, v, s) (image_readers w1) I
              (fun k r H => conj I (J1 k r H))) as [R1 N1].
  destruct (lru_cache_faithful key3_eqb (fun _ => True)
              _make_image_reader__wrapped
              (fun a b _ _ E => proj1 (key3_eqb_eq a b) E)
              8 (px, v, s) (image_readers w2) I
              (fun k r H => conj I (K1 k r H))) as [R2 _].
  destruct (lru_cache key3_eqb 8 _ _ (image_readers w1)) as [o1 c1].
  destruct (lru_cache key3_eqb 8 _ _ (image_readers w2)) as [o2 c2].
  cbn [fst snd] in *. split; [|split; [congruence|exists []; now split]].
  split; [|split; [exact J2|split; [exact J3|exact J4]]].
  cbn [image_readers]. intros k r H. apply (N1 k r H).
Qed.

Lemma agree_figure_variants w h :
  In (w, h, arg_figure_complexity args, 4, arg_seed args) (figure_keys args) ->
  agree (_figure_variants env w h (arg_figure_complexity args) 4
                          (arg_seed args)).
Proof.
  intros Hk w1 w2 [J1 [J2 [J3 J4]]] [_ [K2 _]]. unfold _figure_variants.
  destruct (lru_cache_faithful figkey_eqb (fun k => In k (figure_keys args))
              (_figure_variants__wrapped env) (figure_keys_eq args)
              8 _ (figure_sets w1) Hk J2) as [R1 N1].
  destruct (lru_cache_faithful figkey_eqb (fun k => In k (figure_keys args))
              (_figure_variants__wrapped env) (figure_keys_eq args)
              8 _ (figure_sets w2) Hk K2) as [R2 _].
  destruct (lru_cache figkey_eqb 8 _ _ (figure_sets w1)) as [o1 c1].
  destruct (lru_cache figkey_eqb 8 _ _ (figure_sets w2)) as [o2 c2].
  cbn [fst snd] in *. split; [|split; [congruence|exists []; now split]].
  split; [exact J1|]. split; [exact N1|]. split; assumption.
Qed.

Lemma agree_rects_for_size w h :
  In (w, h, arg_seed args) (rect_keys args) ->
  agree (_rects_for_size w h (arg_seed args)).
Proof.
  intros Hk w1 w2 [J1 [J2 [J3 J4]]] [_ [_ [K3 _]]]. unfold _rects_for_size.
  destruct (lru_cache_faithful rectkey_eqb (fun k => In k (rect_keys args))
              _rects_for_size__wrapped (rect_keys_eq args)
              8 _ (rect_layouts w1) Hk J3) as [R1 N1].
  destruct (lru_cache_faithful rectkey_eqb (fun k => In k (rect_keys args))
              _rects_for_size__wrapped (rect_keys_eq args)
              8 _ (rect_layouts w2) Hk K3) as [R2 _].
  destruct (lru_cache rectkey_eqb 8 _ _ (rect_layouts w1)) as [o1 c1].
  destruct (lru_cache rectkey_eqb 8 _ _ (rect_layouts w2)) as [o2 c2].
  cbn [fst snd] in *. split; [|split; [congruence|exists []; now split]].
  split; [exact J1|]. split; [exact J2|]. split; assumption.
Qed.

Lemma agree_image_positions w h :
  In (w, h, per_page (image_config args), arg_seed args)
     (position_keys args) ->
  agree (_image_positions w h (per_page (image_config args)) (arg_seed args)).
Proof.
  intros Hk w1 w2 [J1 [J2 [J3 J4]]] [_ [_ [_ K4]]]. unfold _image_positions.
  destruct (lru_cache_faithful poskey_eqb (fun k => In k (position_keys args))
              _image_positions__wrapped (position_keys_eq args)
              8 _ (image_layouts w1) Hk J4) as [R1 N1].
  destruct (lru_cache_faithful poskey_eqb (fun k => In k (position_keys args))
              _image_positions__wrapped (position_keys_eq args)
              8 _ (image_layouts w2) Hk K4) as [R2 _].
  destruct (lru_cache poskey_eqb 8 _ _ (image_layouts w1)) as [o1 c1].
  destruct (lru_cache poskey_eqb 8 _ _ (image_layouts w2)) as [o2 c2].
  cbn [fst snd] in *. split; [|split; [congruence|exists []; now split]].
  split; [exact J1|]. split; [exact J2|]. split; assumption.
Qed.

Ltac agree_step :=
  lazymatch goal with
  | |- ScriptMoreProps.agree _ (bind _ _) =>
      simple apply agree_bind; [|intros ?]
  | |- ScriptMoreProps.agree _ (ret _) => simple apply agree_ret
  | |- ScriptMoreProps.agree _ (raise _) => simple apply agree_raise
  | |- ScriptMoreProps.agree _ (lift _) => simple apply agree_lift
  | |- ScriptMoreProps.agree _ (emit _) => simple apply agree_emit
  | |- ScriptMoreProps.agree _ (emit_all _) => simple apply agree_emit_all
  | |- ScriptMoreProps.agree _ (fdiv _ _) => simple apply agree_fdiv
  | |- ScriptMoreProps.agree _ (truediv _ _) => simple apply agree_truediv
  | |- ScriptMoreProps.agree _ (int _) => simple apply agree_int
  | |- ScriptMoreProps.agree _ (_make_image_reader _ _ _) =>
      simple apply agree_make_image_reader
  | |- ScriptMoreProps.agree _ (if ?b then _ else _) => destruct b
  | |- ScriptMoreProps.agree _ (match ?x with _ => _ end) => destruct x
  end.

Ltac agree_tac := cbv zeta; repeat agree_step.

Lemma agree_draw_image w h positions idx rng :
  agree (draw_image w h (image_config args) positions idx rng).
Proof. unfold draw_image. agree_tac. Qed.

Lemma agree_draw_images w h positions idxs : forall rng,
  agree (draw_images w h (image_config args) positions idxs rng).
Proof.
  induction idxs as [|idx idxs IH]; intros rng; simpl.
  - apply agree_ret.
  - apply agree_bind; [apply agree_draw_image|intros; apply IH].
Qed.

Lemma agree_draw_page_text i w h :
  agree (draw_page_text i w h (arg_font args) (arg_font_size args)).
Proof. unfold draw_page_text. agree_tac. Qed.

Lemma agree_draw_page_chart i w h :
  agree (draw_page_chart env i w h (arg_font args) (arg_font_size args)).
Proof. unfold draw_page_chart. agree_tac. Qed.

Lemma agree_draw_page_figures i wi hi :
  In (wi, hi) (page_sizes (arg_vary_sizes args)) ->
  agree (draw_page_figures env i wi hi (arg_figure_complexity args)
                           (image_config args)).
Proof.
  intros Hs. unfold draw_page_figures.
  destruct (arg_figure_complexity args >? 0); [|apply agree_ret].
  unfold draw_heavy_figures.
  apply agree_bind; [apply agree_emit|]. intros _.
  apply agree_bind; [apply agree_emit|]. intros _.
  apply agree_bind.
  - apply agree_figure_variants. unfold figure_keys.
    apply in_map_iff. exists (wi, hi). now split.
  - intros vs. agree_tac.
Qed.

Lemma agree_draw_page_rects i wi hi :
  In (wi, hi) (page_sizes (arg_vary_sizes args)) ->
  agree (draw_page_rects i wi hi (arg_with_rects args) (image_config args)).
Proof.
  intros Hs. unfold draw_page_rects.
  destruct (arg_with_rects args); [|apply agree_ret].
  destruct (fast (image_config args)); [|agree_tac].
  apply agree_bind; [|intros rs; agree_tac].
  apply agree_rects_for_size. unfold rect_keys.
  apply in_map_iff. exists (wi, hi). now split.
Qed.

Lemma position_key_in wi hi :
  In (wi, hi) (page_sizes (arg_vary_sizes args)) ->
  In (wi, hi, per_page (image_config args), arg_seed args)
     (position_keys args).
Proof.
  intros Hs. unfold position_keys. apply in_map_iff.
  exists (wi, hi). now split.
Qed.

Lemma agree_draw_page_images i wi hi :
  In (wi, hi) (page_sizes (arg_vary_sizes args)) ->
  agree (draw_page_images i wi hi (image_config args)).
Proof.
  intros Hs. unfold draw_page_images.
  destruct (enabled _ && _); [|apply agree_ret].
  apply agree_bind.
  - destruct (fast (image_config args)); [|apply agree_ret].
    apply agree_bind; [|intros ps; apply agree_ret].
    now apply agree_image_positions, position_key_in.
  - intros positions. apply agree_draw_images.
Qed.

(** Page [i] is drawn in the same way whatever the caches hold. *)
Lemma agree_draw_page i wi hi :
  page_size_for i (arg_vary_sizes args) = (wi, hi) ->
  agree (draw_page env i wi hi (arg_font args) (arg_font_size args)
                   (arg_with_rects args) (arg_figure_complexity args)
                   (image_config args)).
Proof.
  intros Es.
  assert (Hs : In (wi, hi) (page_sizes (arg_vary_sizes args)))
    by (rewrite <- Es; apply page_size_in).
  unfold draw_page.
  apply agree_bind; [apply agree_draw_page_text|]. intros _.
  apply agree_bind; [apply agree_draw_page_chart|]. intros _.
  apply agree_bind; [now apply agree_draw_page_figures|]. intros _.
  apply agree_bind; [now apply agree_draw_page_rects|]. intros _.
  now apply agree_draw_page_images.
Qed.

Lemma faithful_fresh : F fresh.
Proof.
  split; [intros k r []|]. split; [intros k r []|].
  split; intros k r [].
Qed.

Local Abbreviation draws := (draws (caches_faithful env args)).

Lemma draws_agree {A} (m : M A) :
  agree m -> draws (trace (snd (m fresh))) m.
Proof.
  intros H w J. destruct (H w fresh J faithful_fresh) as [J' [_ [cs [C1 C2]]]].
  split; [exact J'|]. intros _. unfold trace. rewrite C1, C2.
  cbn [canvas fresh]. now rewrite app_nil_r, rev_app_distr.
Qed.

Lemma draws_bind_eq {A B} s s1 s2 (m : M A) (f : A -> M B) :
  s = s1 ++ s2 ->
  draws s1 m -> (forall a, draws s2 (f a)) -> draws s (bind m f).
Proof.
  intros -> Hm Hf w J. destruct (Hm w J) as [J1 T1]. unfold bind.
  destruct (m w) as [[a| |] w']; cbn [fst snd] in *.
  - destruct (Hf a w' J1) as [J2 T2]. split; [exact J2|].
    intros Hok. rewrite (T2 Hok), (T1 eq_refl). now rewrite app_assoc.
  - split; [exact J1|discriminate].
  - split; [exact J1|discriminate].
Qed.

Lemma draws_nil {A} (m : M A) :
  (forall w, canvas (snd (m w)) = canvas w
             /\ image_readers (snd (m w)) = image_readers w
             /\ figure_sets (snd (m w)) = figure_sets w
             /\ rect_layouts (snd (m w)) = rect_layouts w
             /\ image_layouts (snd (m w)) = image_layouts w) ->
  draws [] m.
Proof.
  intros H w [J1 [J2 [J3 J4]]]. destruct (H w) as [C [E1 [E2 [E3 E4]]]].
  split.
  - unfold caches_faithful. rewrite E1, E2, E3, E4.
    split; [exact J1|]. split; [exact J2|]. split; [exact J3|exact J4].
  - intros _. unfold trace. now rewrite C, app_nil_r.
Qed.

Lemma draws_emit c : draws [c] (emit c).
Proof. intros w J. split; [exact J|]. intros _. reflexivity. Qed.

Lemma draws_for_each {A} (g : A -> list Cmd) (l : list A) body :
  (forall a, draws (g a) (body a)) ->
  draws (flat_map g l) (for_each l body).
Proof.
  intros Hb. induction l as [|a l IH]; simpl.
  - apply draws_nil. intros w. repeat split.
  - eapply draws_bind_eq; [reflexivity|apply Hb|intros _; exact IH].
Qed.

Lemma draws_main :
  draws
    (Canvas (arg_output args) (page_size_for 1 (arg_vary_sizes args))
            (if arg_fast args then 0 else 1)
     :: flat_map (fun i => setPageSize (page_size_for i (arg_vary_sizes args))
                           :: page_commands env args i ++ [showPage])
                 (range2 1 (arg_pages args + 1))
     ++ [save])
    (main env args).
Proof.
  unfold main.
  eapply draws_bind_eq; [| |intros _].
  { change (?x :: ?l) with ([] ++ x :: l). reflexivity. }
  { apply draws_nil. intros w. repeat split. }
  eapply draws_bind_eq; [| |intros _].
  { change (?x :: ?l) with ([] ++ x :: l). reflexivity. }
  { apply draws_nil. intros w.
    destruct (enabled _); [|repeat split].
    unfold _require_pillow. destruct (pillow_installed env); repeat split. }
  destruct (page_size_for 1 (arg_vary_sizes args)) as [w h].
  eapply draws_bind_eq; [|apply draws_emit|intros _]; [reflexivity|].
  eapply draws_bind_eq; [reflexivity| |intros _].
  - apply draws_for_each. intros i. unfold page_commands.
    destruct (page_size_for i (arg_vary_sizes args)) as [wi hi] eqn:Es.
    cbn [fst snd].
    eapply draws_bind_eq; [|apply draws_emit|intros _]; [reflexivity|].
    eapply draws_bind_eq; [reflexivity| |intros _].
    { apply draws_agree. now apply agree_draw_page. }
    eapply draws_bind_eq; [|apply draws_emit|intros _]; [reflexivity|].
    apply draws_nil. intros w0.
    destruct (i mod 500 =? 0); repeat split.
  - eapply draws_bind_eq; [|apply draws_emit|intros _]; [reflexivity|].
    apply draws_nil. intros w0. repeat split.
Qed.

End Agree.

(** X11: pages do not depend on one another.  What a completed run has
    sent to the canvas is the canvas creation, then for each page from
    1 to [pages] its page size, exactly the commands that [draw_page]
    sends for that page when it is run on its own in a new process,
    and [showPage], then [save].  So the four caches never change what
    is drawn, and page [i] is the same in every run of the same
    configuration, whatever the page count.  (A texture is known here
    by its pixel size and the arguments it was rendered from; its
    pixels are not part of a command.) *)
Theorem main_pages_independent env args w' :
  main env args fresh = (Ok tt, w') ->
  trace w'
  = Canvas (arg_output args) (page_size_for 1 (arg_vary_sizes args))
           (if arg_fast args then 0 else 1)
    :: flat_map (fun i => setPageSize (page_size_for i (arg_vary_sizes args))
                          :: page_commands env args i ++ [showPage])
                (range2 1 (arg_pages args + 1))
    ++ [save].
Proof.
  intros E.
  destruct (draws_main env args fresh (faithful_fresh env args)) as [_ H].
  rewrite E in H. exact (H eq_refl).
Qed.

Lemma main_pages_independent_witness :
  exists w',
    main test_env scenario_args fresh = (Ok tt, w')
    /\ trace w'
       = Canvas (Text.lit "big.pdf") A4 0
         :: flat_map (fun i => setPageSize A4
                               :: page_commands test_env scenario_args i
                                  ++ [showPage])
                     [1; 2; 3]
         ++ [save].
Proof.
  pose proof (proj1 (scenario_run test_env eq_refl)) as E.
  destruct (main test_env scenario_args fresh) as [o w'] eqn:E'.
  cbn [fst] in E. subst o. exists w'. split; [reflexivity|].
  exact (main_pages_independent test_env scenario_args w' E').
Defined.

(** ** Images stay within the page *)

Lemma ltb_irrefl (x : float) : PrimFloat.ltb x x = false.
Proof.
  rewrite ltb_spec. unfold SFltb.
  destruct (Prim2SF x) as [s|s| |s m e]; simpl.
  - reflexivity.
  - destruct s; reflexivity.
  - reflexivity.
  - destruct s; rewrite Z.compare_refl, Pos.compare_cont_refl; reflexivity.
Qed.

Lemma random_positions_capped n w h : forall rng,
  Forall (position_capped h) (random_positions n w h rng).
Proof.
  induction n as [|n IH]; intros rng; [constructor|].
  cbn [random_positions]. cbv zeta.
  destruct (Random.uniform 0.35 0.7 rng) as [scale rng1].
  destruct (PrimFloat.ltb _ _) eqn:T.
  - destruct (Random.uniform _ _ rng1) as [x rng2].
    destruct (Random.uniform _ _ rng2) as [y rng3].
    constructor; [apply ltb_irrefl|apply IH].
  - destruct (Random.uniform _ _ rng1) as [x rng2].
    destruct (Random.uniform _ _ rng2) as [y rng3].
    constructor; [exact T|apply IH].
Qed.

Lemma inner_capped h c : inner c -> capped h c.
Proof. destruct c; simpl; intros H; (exact I || contradiction). Qed.

Section Capped.
Variable env : Env.
Variable args : Args.

Local Abbreviation F := (caches_faithful env args).
Local Abbreviation cfg := (image_config args).

Lemma fits_of P Q {A} (m : M A) :
  agree F m -> grew P Q m -> fits F P m.
Proof.
  intros H G w J. destruct (H w w J J) as [J' _].
  split; [exact J'|]. apply (G w).
Qed.

Lemma fits_ret P {A} (a : A) : fits F P (ret a).
Proof. apply (fits_of P no_msg); [apply agree_ret|apply grew_ret]. Qed.

Lemma fits_raise P {A} e : fits F P (@raise A e).
Proof. apply (fits_of P no_msg); [apply agree_raise|apply grew_raise]. Qed.

Lemma fits_lift P {A} (o : Outcome A) : fits F P (lift o).
Proof. apply (fits_of P no_msg); [apply agree_lift|apply grew_lift]. Qed.

Lemma fits_emit (P : Cmd -> Prop) c : P c -> fits F P (emit c).
Proof.
  intros Hc. apply (fits_of P no_msg); [apply agree_emit|now apply grew_emit].
Qed.

Lemma fits_bind_run P {A B} (m : M A) (f : A -> M B) :
  fits F P m ->
  (forall a w w', F w -> m w = (Ok a, w') -> fits F P (f a)) ->
  fits F P (bind m f).
Proof.
  intros Hm Hf w J. destruct (Hm w J) as [J1 [cs [C HP]]]. unfold bind.
  destruct (m w) as [[a| |] w'] eqn:E; simpl in *.
  - destruct (Hf a w w' J E w' J1) as [J2 [cs' [C' HP']]].
    split; [exact J2|]. exists (cs' ++ cs). split.
    + rewrite C', C. apply app_assoc.
    + apply Forall_app. now split.
  - split; [exact J1|]. exists cs. now split.
  - split; [exact J1|]. exists cs. now split.
Qed.

Lemma fits_bind P {A B} (m : M A) (f : A -> M B) :
  fits F P m -> (forall a, fits F P (f a)) -> fits F P (bind m f).
Proof. intros Hm Hf. apply fits_bind_run; [exact Hm|]. intros; apply Hf. Qed.

Lemma fits_bind_ret P {A B} (a : A) (f : A -> M B) :
  fits F P (f a) -> fits F P (bind (ret a) f).
Proof. intros H w J. exact (H w J). Qed.

Lemma fits_bind_raise P {A B} e (f : A -> M B) :
  fits F P (bind (raise e) f).
Proof. intros w J. split; [exact J|]. exists []. now split. Qed.

(** What the caches return, whatever they hold. *)
Lemma make_image_reader_value px v s w :
  F w ->
  fst (_make_image_reader px v s w)
  = Ok {| reader_size := (px, px); reader_source := (px, v, s) |}.
Proof.
  intros [J1 _]. unfold _make_image_reader.
  destruct (lru_cache_faithful key3_eqb (fun _ => True)
              _make_image_reader__wrapped
              (fun a b _ _ E => proj1 (key3_eqb_eq a b) E)
              8 (px, v, s) (image_readers w) I
              (fun k r H => conj I (J1 k r H))) as [R _].
  destruct (lru_cache key3_eqb 8 _ _ (image_readers w)) as [o c].
  exact R.
Qed.

Lemma image_positions_value wi hi w :
  In (wi, hi) (page_sizes (arg_vary_sizes args)) ->
  F w ->
  fst (_image_positions wi hi (per_page cfg) (arg_seed args) w)
  = Ok (random_positions (Z.to_nat (per_page cfg)) wi hi
          (Random.seed (arg_seed args))).
Proof.
  intros Hs [_ [_ [_ J4]]]. unfold _image_positions.
  destruct (lru_cache_faithful poskey_eqb (fun k => In k (position_keys args))
              _image_positions__wrapped (position_keys_eq args)
              8 _ (image_layouts w) (position_key_in args wi hi Hs) J4)
    as [R _].
  destruct (lru_cache poskey_eqb 8 _ _ (image_layouts w)) as [o c].
  exact R.
Qed.

Lemma fits_draw_image w h positions idx rng :
  (forall ps, positions = Some ps -> Forall (position_capped h) ps) ->
  fits F (capped h) (draw_image w h cfg positions idx rng).
Proof.
  intros Hps. unfold draw_image.
  generalize (px cfg) (seed cfg) (Z.max 1 (variants cfg)). intros p sd nv.
  apply fits_bind; [apply fits_lift|]. intros [variant rng1].
  apply fits_bind_run.
  { apply (fits_of _ no_msg);
      [apply agree_make_image_reader|apply grew_make_image_reader]. }
  intros img w0 w1 J0 E.
  pose proof (make_image_reader_value p variant sd w0 J0) as V.
  rewrite E in V. cbn [fst] in V. injection V as ->.
  unfold getSize. cbn [reader_size]. cbv beta iota.
  rewrite !truediv_self.
  destruct (p =? 0) eqn:Hpx.
  { destruct positions as [ps|].
    - destruct (nth_error ps (Z.to_nat idx)) as [[[[x y] dw] dh]|];
        [apply fits_bind_raise|apply fits_raise].
    - destruct (Random.uniform _ _ rng1) as [scale rng2].
      apply fits_bind_raise. }
  destruct positions as [ps|].
  - destruct (nth_error ps (Z.to_nat idx)) as [[[[x y] dw] dh]|] eqn:Hn;
      [|apply fits_raise].
    apply fits_bind_ret. rewrite mul_one.
    apply fits_bind; [|intros; apply fits_ret].
    apply fits_emit. apply nth_error_In in Hn.
    specialize (Hps ps eq_refl). rewrite Forall_forall in Hps.
    exact (Hps _ Hn).
  - destruct (Random.uniform _ _ rng1) as [scale rng2].
    apply fits_bind_ret. rewrite !mul_one.
    set (dw0 := fmin _ _). set (mh := ((h - 2 * margin) * 0.8)%float).
    apply fits_bind_run.
    + destruct (PrimFloat.ltb mh dw0);
        [apply fits_bind_ret|]; apply fits_ret.
    + intros [dw dh] w2 w3 _ E2.
      assert (Hd : PrimFloat.ltb mh dh = false).
      { destruct (PrimFloat.ltb mh dw0) eqn:T; unfold bind, ret in E2;
          injection E2 as _ <- _; [apply ltb_irrefl|exact T]. }
      destruct (Random.uniform _ _ rng2) as [x rng3].
      destruct (Random.uniform _ _ rng3) as [y rng4].
      apply fits_bind; [|intros; apply fits_ret].
      apply fits_emit. exact Hd.
Qed.

Lemma fits_draw_images w h positions idxs : forall rng,
  (forall ps, positions = Some ps -> Forall (position_capped h) ps) ->
  fits F (capped h) (draw_images w h cfg positions idxs rng).
Proof.
  induction idxs as [|idx idxs IH]; intros rng Hps; simpl.
  - apply fits_ret.
  - apply fits_bind; [now apply fits_draw_image|]. intros; now apply IH.
Qed.

Lemma fits_draw_page i wi hi :
  page_size_for i (arg_vary_sizes args) = (wi, hi) ->
  fits F (capped hi)
       (draw_page env i wi hi (arg_font args) (arg_font_size args)
                  (arg_with_rects args) (arg_figure_complexity args) cfg).
Proof.
  intros Es.
  assert (Hs : In (wi, hi) (page_sizes (arg_vary_sizes args)))
    by (rewrite <- Es; apply page_size_in).
  unfold draw_page.
  apply fits_bind.
  { apply (fits_of _ no_msg);
      [apply agree_draw_page_text
      |apply grew_draw_page_text, inner_capped]. }
  intros _. apply fits_bind.
  { apply (fits_of _ no_msg);
      [apply agree_draw_page_chart
      |apply grew_draw_page_chart, inner_capped]. }
  intros _. apply fits_bind.
  { apply (fits_of _ no_msg);
      [now apply agree_draw_page_figures
      |apply grew_draw_page_figures, inner_capped]. }
  intros _. apply fits_bind.
  { apply (fits_of _ no_msg);
      [now apply agree_draw_page_rects
      |apply grew_draw_page_rects, inner_capped]. }
  intros _. unfold draw_page_images.
  destruct (enabled _ && _); [|apply fits_ret].
  apply fits_bind_run.
  - destruct (fast cfg); [|apply fits_ret].
    apply fits_bind; [|intros ps; apply fits_ret].
    apply (fits_of _ no_msg);
      [now apply agree_image_positions, position_key_in
      |apply grew_image_positions].
  - intros positions w0 w1 J E. apply fits_draw_images.
    intros ps ->. destruct (fast cfg); [|discriminate E].
    change (seed cfg) with (arg_seed args) in E. unfold bind in E.
    pose proof (image_positions_value wi hi w0 Hs J) as V.
    destruct (_image_positions wi hi (per_page cfg) (arg_seed args) w0)
      as [[ps'| |] w2]; cbn [fst] in *; try discriminate E.
    unfold ret in E. injection E as E _. subst ps'.
    injection V as ->. apply random_positions_capped.
Qed.

End Capped.

(** X22: no image is drawn taller than 80% of the height between the
    margins of its page.  In fast mode and in slow mode alike, every
    [drawImage] among the commands of page [i] has a height that does
    not exceed [(h - 2 * margin) * 0.8], [h] being the height of that
    page. *)
Theorem page_images_capped env args i :
  Forall (capped (snd (page_size_for i (arg_vary_sizes args))))
         (page_commands env args i).
Proof.
  unfold page_commands, trace.
  destruct (page_size_for i (arg_vary_sizes args)) as [wi hi] eqn:Es.
  cbn [fst snd].
  destruct (fits_draw_page env args i wi hi Es fresh (faithful_fresh env args))
    as [_ [cs [C HP]]].
  rewrite C. cbn [canvas fresh]. rewrite app_nil_r. now apply Forall_rev.
Qed.

(** ** Each image is the texture that was asked for *)

Lemma images_app cs1 cs2 : images (cs1 ++ cs2) = images cs1 ++ images cs2.
Proof.
  induction cs1 as [|c cs1 IH]; [reflexivity|].
  destruct c; cbn [app images]; now rewrite ?IH.
Qed.

Lemma images_inner cs : Forall inner cs -> images cs = [].
Proof.
  induction 1 as [|c cs Hc _ IH]; [reflexivity|].
  destruct c; cbn [images inner] in *; (exact IH || contradiction).
Qed.

Lemma bind_ret_eq {A B} (a : A) (f : A -> M B) : bind (ret a) f = f a.
Proof. reflexivity. Qed.

Lemma uniform_state a b s :
  snd (Random.uniform a b s) = snd (Random.random s).
Proof. unfold Random.uniform. now destruct (Random.random s). Qed.

Lemma flat_map_map {A B C} (g : B -> C) (f : A -> list B) l :
  flat_map (fun a => map g (f a)) l = map g (flat_map f l).
Proof.
  induction l as [|a l IH]; [reflexivity|].
  cbn [flat_map]. now rewrite map_app, IH.
Qed.

Lemma for_all_map {A B} (g : A -> B) l :
  for_all (fun a => Ok (g a)) l = Ok (map g l).
Proof.
  induction l as [|a l IH]; [reflexivity|].
  cbn [for_all and_then map]. now rewrite IH.
Qed.

Section Requested.
Variable env : Env.
Variable args : Args.

Local Abbreviation F := (caches_faithful env args).
Local Abbreviation cfg := (image_config args).
Local Abbreviation shows := (shows (caches_faithful env args)).
Local Abbreviation made :=
  (fun v => {| reader_size := (px (image_config args), px (image_config args));
               reader_source := (px (image_config args), v, arg_seed args) |}).

Lemma shows_fits {A} (m : M A) : fits F inner m -> shows [] m.
Proof.
  intros H w J. destruct (H w J) as [J' [cs [C HP]]].
  split; [exact J'|]. intros _. unfold trace.
  rewrite C, rev_app_distr, images_app.
  now rewrite (images_inner (rev cs)) by now apply Forall_rev.
Qed.

Lemma shows_inner Q {A} (m : M A) : agree F m -> grew inner Q m -> shows [] m.
Proof. intros H G. apply shows_fits. now apply (fits_of env args inner Q). Qed.

Lemma shows_ret {A} (a : A) : shows [] (ret a).
Proof. apply shows_fits, fits_ret. Qed.

Lemma shows_emit c : shows (images [c]) (emit c).
Proof.
  intros w J. split; [exact J|]. intros _.
  rewrite trace_emit. apply images_app.
Qed.

Lemma shows_bind_run {A B} s s1 s2 (m : M A) (f : A -> M B) :
  s = s1 ++ s2 ->
  shows s1 m ->
  (forall a w w', F w -> m w = (Ok a, w') -> shows s2 (f a)) ->
  shows s (bind m f).
Proof.
  intros -> Hm Hf w J. destruct (Hm w J) as [J1 T1]. unfold bind.
  destruct (m w) as [[a| |] w'] eqn:E; cbn [fst snd] in *.
  - destruct (Hf a w w' J E w' J1) as [J2 T2]. split; [exact J2|].
    intros Hok. rewrite (T2 Hok), (T1 eq_refl). now rewrite app_assoc.
  - split; [exact J1|discriminate].
  - split; [exact J1|discriminate].
Qed.

Lemma shows_bind {A B} s s1 s2 (m : M A) (f : A -> M B) :
  s = s1 ++ s2 ->
  shows s1 m -> (forall a, shows s2 (f a)) -> shows s (bind m f).
Proof.
  intros E Hm Hf. apply (shows_bind_run s s1 s2); [exact E|exact Hm|].
  intros; apply Hf.
Qed.

Lemma shows_for_each {A} (g : A -> list ImageReader) (l : list A) body :
  (forall a, shows (g a) (body a)) ->
  shows (flat_map g l) (for_each l body).
Proof.
  intros Hb. induction l as [|a l IH]; simpl.
  - apply shows_ret.
  - eapply shows_bind; [reflexivity|apply Hb|intros _; exact IH].
Qed.

(** A step that does not return shows anything. *)
Lemma shows_stuck s {A} (m : M A) :
  agree F m -> (forall w, is_ok (fst (m w)) = false) -> shows s m.
Proof.
  intros H N w J. destruct (H w w J J) as [J' _].
  split; [exact J'|]. rewrite N. discriminate.
Qed.

Lemma make_image_reader_run v wd :
  F wd ->
  exists wd',
    _make_image_reader (px cfg) v (arg_seed args) wd = (Ok (made v), wd')
    /\ canvas wd' = canvas wd.
Proof.
  intros J.
  pose proof (make_image_reader_value env args (px cfg) v (arg_seed args)
                wd J) as V.
  unfold _make_image_reader in *.
  destruct (lru_cache key3_eqb 8 _ _ (image_readers wd)) as [o c].
  cbn [fst] in V. subst o. eexists. split; reflexivity.
Qed.

(** One round of the image loop draws the texture of the variant it
    picked, and leaves the generator as [picks] has it. *)
Lemma draw_image_round w h positions idx rng v rng1 wd :
  Random.randrange (Z.max 1 (variants cfg)) rng = Ok (v, rng1) ->
  F wd ->
  forall rng',
    fst (draw_image w h cfg positions idx rng wd) = Ok rng' ->
    rng' = match positions with
           | Some _ => rng1
           | None => snd (Random.random
                            (snd (Random.random (snd (Random.random rng1)))))
           end
    /\ images (trace (snd (draw_image w h cfg positions idx rng wd)))
       = images (trace wd) ++ [made v].
Proof.
  intros R J. unfold draw_image. rewrite bind_lift, R. cbv beta iota.
  destruct (make_image_reader_run v wd J) as [w1 [E1 C1]].
  change (seed cfg) with (arg_seed args).
  rewrite (bind_ok _ _ _ _ _ E1).
  assert (T1 : trace w1 = trace wd) by (unfold trace; now rewrite C1).
  unfold getSize. cbn [reader_size]. cbv beta iota.
  rewrite !truediv_self.
  assert (Hpx : (px cfg =? 0) = false)
    by (apply Z.eqb_neq; unfold image_config; cbn [px]; lia).
  rewrite Hpx.
  destruct positions as [ps|].
  - destruct (nth_error ps (Z.to_nat idx)) as [[[[x y] dw] dh]|];
      [|discriminate].
    rewrite bind_ret, bind_emit. unfold ret. cbn [fst snd].
    intros rng' H. injection H as <-. split; [reflexivity|].
    rewrite trace_emit, images_app, T1. reflexivity.
  - destruct (Random.uniform 0.35 0.7 rng1) as [scale rng2] eqn:U1.
    rewrite bind_ret.
    apply (f_equal snd) in U1. rewrite uniform_state in U1. cbn [snd] in U1.
    assert (K : forall dw dh rng',
              fst ((let '(x, rng3) :=
                      Random.uniform margin (fmax margin (w - margin - dw))
                                     rng2 in
                    let '(y, rng4) :=
                      Random.uniform (margin + 20)
                                     (fmax (margin + 20) (h - margin - dh))
                                     rng3 in
                    emit (drawImage (made v) x y dw dh) ;; ret rng4) w1)
              = Ok rng' ->
              rng' = snd (Random.random (snd (Random.random rng2)))
              /\ images
                   (trace
                      (snd ((let '(x, rng3) :=
                               Random.uniform margin
                                 (fmax margin (w - margin - dw)) rng2 in
                             let '(y, rng4) :=
                               Random.uniform (margin + 20)
                                 (fmax (margin + 20) (h - margin - dh))
                                 rng3 in
                             emit (drawImage (made v) x y dw dh) ;;
                             ret rng4) w1)))
                 = images (trace wd) ++ [made v]).
    { intros dw dh rng'.
      destruct (Random.uniform _ _ rng2) as [x rng3] eqn:U2.
      destruct (Random.uniform _ _ rng3) as [y rng4] eqn:U3.
      apply (f_equal snd) in U2, U3. rewrite uniform_state in U2, U3.
      cbn [snd] in U2, U3.
      rewrite bind_emit. unfold ret. cbn [fst snd].
      intros H. injection H as <-. split; [congruence|].
      rewrite trace_emit, images_app, T1. reflexivity. }
    subst rng2.
    destruct (PrimFloat.ltb _ _); rewrite !bind_ret_eq; apply K.
Qed.

Lemma draw_image_stuck w h positions idx rng wd :
  (forall v rng1,
     Random.randrange (Z.max 1 (variants cfg)) rng <> Ok (v, rng1)) ->
  is_ok (fst (draw_image w h cfg positions idx rng wd)) = false.
Proof.
  intros N. unfold draw_image. rewrite bind_lift.
  destruct (Random.randrange _ rng) as [[v rng1]| |]; [|reflexivity..].
  now contradiction (N v rng1).
Qed.

Lemma shows_draw_images w h (positions : option (list Rect)) idxs :
  forall rng,
  match positions with Some _ => true | None => false end = fast cfg ->
  shows (map made (picks cfg (List.length idxs) rng))
        (draw_images w h cfg positions idxs rng).
Proof.
  induction idxs as [|idx idxs IH]; intros rng Hp; cbn [draw_images].
  - apply shows_ret.
  - cbn [List.length picks].
    destruct (Random.randrange (Z.max 1 (variants cfg)) rng)
      as [[v rng1]| |] eqn:R.
    + cbn [map].
      match goal with
      | |- ScriptMoreProps.shows _ (_ :: ?s) _ =>
          apply (shows_bind_run (made v :: s) [made v] s); [reflexivity| |]
      end.
      * intros wd J.
        destruct (agree_draw_image env args w h positions idx rng wd wd J J)
          as [J' _].
        split; [exact J'|]. intros Hok.
        destruct (fst (draw_image w h cfg positions idx rng wd))
          as [rng'| |] eqn:E; [|discriminate Hok|discriminate Hok].
        exact (proj2 (draw_image_round w h positions idx rng v rng1 wd R J
                        rng' E)).
      * intros rng' w0 w1 J E.
        assert (E' : fst (draw_image w h cfg positions idx rng w0) = Ok rng')
          by now rewrite E.
        destruct (draw_image_round w h positions idx rng v rng1 w0 R J
                    rng' E') as [-> _].
        rewrite <- Hp. destruct positions; now apply IH.
    + apply shows_bind_run with (s1 := []) (s2 := []); [reflexivity| |].
      * apply shows_stuck; [apply agree_draw_image|]. intros wd.
        apply draw_image_stuck. intros v rng1. rewrite R. discriminate.
      * intros rng' w0 w1 _ E. exfalso.
        pose proof (draw_image_stuck w h positions idx rng w0) as N.
        rewrite E in N. discriminate N.
        intros v rng1. rewrite R. discriminate.
    + apply shows_bind_run with (s1 := []) (s2 := []); [reflexivity| |].
      * apply shows_stuck; [apply agree_draw_image|]. intros wd.
        apply draw_image_stuck. intros v rng1. rewrite R. discriminate.
      * intros rng' w0 w1 _ E. exfalso.
        pose proof (draw_image_stuck w h positions idx rng w0) as N.
        rewrite E in N. discriminate N.
        intros v rng1. rewrite R. discriminate.
Qed.

Lemma shows_draw_page i wi hi :
  page_size_for i (arg_vary_sizes args) = (wi, hi) ->
  shows (map made (requested cfg i))
        (draw_page env i wi hi (arg_font args) (arg_font_size args)
                   (arg_with_rects args) (arg_figure_complexity args) cfg).
Proof.
  intros Es.
  assert (Hs : In (wi, hi) (page_sizes (arg_vary_sizes args)))
    by (rewrite <- Es; apply page_size_in).
  unfold draw_page.
  remember (map made (requested cfg i)) as S eqn:ES.
  apply (shows_bind S [] S); [reflexivity| |intros _].
  { apply (shows_inner no_msg);
      [apply agree_draw_page_text|apply grew_draw_page_text; auto]. }
  apply (shows_bind S [] S); [reflexivity| |intros _].
  { apply (shows_inner no_msg);
      [apply agree_draw_page_chart|apply grew_draw_page_chart; auto]. }
  apply (shows_bind S [] S); [reflexivity| |intros _].
  { apply (shows_inner no_msg);
      [now apply agree_draw_page_figures
      |apply grew_draw_page_figures; auto]. }
  apply (shows_bind S [] S); [reflexivity| |intros _].
  { apply (shows_inner no_msg);
      [now apply agree_draw_page_rects|apply grew_draw_page_rects; auto]. }
  subst S. unfold draw_page_images, requested.
  destruct (enabled cfg && (per_page cfg >? 0)); [|apply shows_ret].
  match goal with
  | |- ScriptMoreProps.shows _ ?s _ =>
      apply (shows_bind_run s [] s); [reflexivity| |]
  end.
  - destruct (fast cfg); [|apply shows_ret].
    apply (shows_bind [] [] []); [reflexivity| |intros ps; apply shows_ret].
    apply (shows_inner no_msg);
      [now apply agree_image_positions, position_key_in
      |apply grew_image_positions].
  - intros positions w0 w1 _ E.
    rewrite <- (range_length (per_page cfg)).
    apply shows_draw_images.
    destruct (fast cfg).
    + unfold bind in E.
      destruct (_image_positions _ _ _ _ w0) as [[ps| |] w2];
        try discriminate E.
      unfold ret in E. now injection E as <- _.
    + unfold ret in E. now injection E as <- _.
Qed.

Lemma shows_main :
  shows (map made (flat_map (requested cfg) (range2 1 (arg_pages args + 1))))
        (main env args).
Proof.
  rewrite <- flat_map_map. unfold main.
  remember (flat_map (fun a => map made (requested cfg a))
                     (range2 1 (arg_pages args + 1))) as S eqn:ES.
  apply (shows_bind S [] S); [reflexivity| |intros _].
  { apply (shows_inner any_msg);
      [apply agree_blind with (o := Ok tt) (cs := []); intros w; repeat split
      |apply grew_random_seed]. }
  apply (shows_bind S [] S); [reflexivity| |intros _].
  { destruct (enabled _); [|apply shows_ret].
    unfold _require_pillow. destruct (pillow_installed env);
      [apply shows_ret|].
    apply (shows_inner no_msg); [apply agree_raise|apply grew_raise]. }
  destruct (page_size_for 1 (arg_vary_sizes args)) as [w h].
  apply (shows_bind S [] S); [reflexivity|apply shows_emit|intros _].
  apply (shows_bind S S []); [symmetry; apply app_nil_r| |intros _].
  - subst S. apply shows_for_each. intros i.
    destruct (page_size_for i (arg_vary_sizes args)) as [wi hi] eqn:Es.
    generalize (shows_draw_page i wi hi Es).
    generalize (map made (requested cfg i)). intros Si Hi.
    apply (shows_bind Si [] Si); [reflexivity|apply shows_emit|intros _].
    apply (shows_bind Si Si []); [symmetry; apply app_nil_r|exact Hi|].
    intros _.
    apply (shows_bind [] [] []); [reflexivity|apply shows_emit|intros _].
    destruct (i mod 500 =? 0); [|apply shows_ret].
    apply (shows_inner any_msg);
      [apply agree_blind with (o := Ok tt) (cs := []); intros w0; repeat split
      |apply grew_print; exact I].
  - apply (shows_bind [] [] []); [reflexivity|apply shows_emit|intros _].
    apply (shows_inner any_msg);
      [apply agree_blind with (o := Ok tt) (cs := []); intros w0; repeat split
      |apply grew_print; exact I].
Qed.

End Requested.

(** X10: memoisation never mixes textures up.  A texture is known here
    by its pixel size and by the arguments it was rendered from.  The
    variants a page asks for are the successive results of
    [randrange(max(1, variants))] on its generator
    [Random(seed + i * 7919)].  In a completed run the images the
    canvas has received are, in order and page after page, exactly what
    [_make_image_reader] renders for the variants asked for: each
    [drawImage] gets the texture of the variant picked for it, whether
    the texture was rendered for this call or came out of the cache,
    and whatever the cache has evicted in between. *)
Theorem main_draws_requested env args w' :
  main env args fresh = (Ok tt, w') ->
  for_all (texture (image_config args))
          (flat_map (requested (image_config args))
                    (range2 1 (arg_pages args + 1)))
  = Ok (images (trace w')).
Proof.
  intros E.
  destruct (shows_main env args fresh (faithful_fresh env args)) as [_ H].
  rewrite E in H. cbn [fst snd] in H. rewrite (H eq_refl).
  cbn [images trace fresh canvas rev app].
  apply (for_all_map
           (fun v => {| reader_size := (px (image_config args),
                                        px (image_config args));
                        reader_source := (px (image_config args), v,
                                          arg_seed args) |})).
Qed.

Lemma main_draws_requested_witness :
  exists w',
    main test_env scenario_args fresh = (Ok tt, w')
    /\ flat_map (requested (image_config scenario_args)) [1; 2; 3] = [0; 1; 0]
    /\ for_all (texture (image_config scenario_args)) [0; 1; 0]
       = Ok (images (trace w')).
Proof.
  pose proof (proj1 (scenario_run test_env eq_refl)) as E.
  destruct (main test_env scenario_args fresh) as [o w'] eqn:E'.
  cbn [fst] in E. subst o. exists w'. split; [reflexivity|].
  assert (R : flat_map (requested (image_config scenario_args)) [1; 2; 3]
              = [0; 1; 0]) by (vm_compute; reflexivity).
  split; [exact R|]. rewrite <- R.
  exact (main_draws_requested test_env scenario_args w' E').
Defined.

(** ** A figure complexity beyond the range of floats *)

Lemma float_limit_pos : 0 < float_limit.
Proof. reflexivity. Qed.

Lemma range_head n : 0 < n -> exists l, range n = 0 :: l.
Proof.
  intros H. unfold range. destruct (Z.to_nat n) as [|k] eqn:E; [lia|].
  cbn [seq map]. eexists. reflexivity.
Qed.

(** The first point of a path already needs the complexity as a
    float. *)
Lemma path_point_overflow env cx cy radius c k :
  float_limit <= c ->
  path_point env cx cy radius c k 0 = Raise OverflowError.
Proof.
  intros Hc. pose proof float_limit_pos as Hl. unfold path_point.
  change (of_int 0) with (Ok (nearest 0)). cbn [and_then]. unfold of_int.
  replace (Z.abs c <? float_limit) with false
    by (symmetry; apply Z.ltb_ge; lia).
  reflexivity.
Qed.

Lemma figure_variants_overflow env w h c n s :
  grid_rows grid_fuel (h * 0.15) (fmax 6.0 (fmin w h / 80.0)) w h <> None ->
  0 < n ->
  float_limit <= c ->
  _figure_variants__wrapped env (w, h, c, n, s) = Raise OverflowError.
Proof.
  intros G Hn Hc. pose proof float_limit_pos as Hl.
  unfold _figure_variants__wrapped. cbv zeta.
  destruct (grid_rows _ _ _ _ _) as [g|]; [|now contradiction G].
  destruct (range_head n Hn) as [l ->]. cbn [for_all].
  unfold figure_variant at 1. cbv zeta.
  change (range 4) with [0; 1; 2; 3]. cbn [for_all].
  destruct (range_head c ltac:(lia)) as [l' ->]. cbn [for_all].
  now rewrite path_point_overflow.
Qed.

Lemma figure_grid_returns s :
  In s [A4; LETTER; landscape A4; landscape LETTER] ->
  grid_rows grid_fuel (snd s * 0.15)
    (fmax 6.0 (fmin (fst s) (snd s) / 80.0)) (fst s) (snd s) <> None.
Proof.
  intros Hs. simpl in Hs.
  repeat (destruct Hs as [<-|Hs]; [vm_compute; discriminate|]).
  destruct Hs.
Qed.

Lemma draw_page_figures_overflow env i w h c cfg wd :
  grid_rows grid_fuel (h * 0.15) (fmax 6.0 (fmin w h / 80.0)) w h <> None ->
  float_limit <= c ->
  entries (figure_sets wd) = [] ->
  exists wd',
    draw_page_figures env i w h c cfg wd = (Raise OverflowError, wd').
Proof.
  intros G Hc Hempty. pose proof float_limit_pos as Hl.
  unfold draw_page_figures.
  replace (c >? 0) with true by (symmetry; apply Z.gtb_lt; lia).
  unfold draw_heavy_figures. rewrite !bind_emit.
  eexists. apply bind_raise.
  unfold _figure_variants, lru_cache. cbn [figure_sets emit snd].
  rewrite Hempty. cbn [lookup].
  rewrite (figure_variants_overflow env w h c 4 (seed cfg) G ltac:(lia) Hc).
  reflexivity.
Qed.

(** The text of a page is drawn when its budget can be computed. *)
Lemma draw_page_text_returns i w h font_name font_size wd :
  is_ok (text_budget w font_size) = true ->
  exists wd',
    draw_page_text i w h font_name font_size wd = (Ok tt, wd')
    /\ figure_sets wd' = figure_sets wd.
Proof.
  unfold text_budget, draw_page_text. cbv zeta. rewrite !bind_emit, bind_lift.
  destruct (of_int font_size) as [f| |]; cbn [and_then];
    [|discriminate|discriminate].
  unfold fdiv. destruct (PrimFloat.eqb _ 0); [discriminate|].
  rewrite bind_ret. unfold int.
  destruct (int_of_float _) as [e|n]; [discriminate|]. intros _.
  rewrite bind_ret, bind_lift.
  match goal with
  | |- context [emit_all ?cs ?w0] =>
      destruct (emit_all_run cs w0) as [w5 [E5 [_ [_ [_ [_ [F5 _]]]]]]]
  end.
  exists w5. split; [exact E5|]. rewrite F5. reflexivity.
Qed.

Lemma chart_first_page s c p cx cy cw ch :
  is_ok (for_all (chart_point {| sin := s; cos := c; pillow_installed := p |}
                    1 cx cy cw ch) (range (120 + 1))) = true.
Proof. vm_compute. reflexivity. Qed.

(** The chart of the first page is always drawn. *)
Lemma draw_page_chart_first env w h font_name font_size wd :
  exists wd',
    draw_page_chart env 1 w h font_name font_size wd = (Ok tt, wd')
    /\ figure_sets wd' = figure_sets wd.
Proof.
  unfold draw_page_chart. cbv zeta. rewrite bind_emit, bind_lift.
  destruct env as [s c p].
  pose proof (chart_first_page s c p margin (margin + 20)
                (fmin (140 * mm) (w - 2 * margin)) (35 * mm)) as K.
  destruct (for_all _ (range (120 + 1))) as [pts| |];
    [|discriminate K|discriminate K].
  match goal with
  | |- context [bind (emit_all ?cs) _ ?w0] =>
      destruct (emit_all_run cs w0) as [w5 [E5 [_ [_ [_ [_ [F5 _]]]]]]]
  end.
  rewrite (bind_ok _ _ _ _ _ E5), bind_emit.
  eexists. split; [reflexivity|]. cbn [emit snd figure_sets]. rewrite F5.
  reflexivity.
Qed.

(** X23: a figure complexity that does not fit a float makes the run
    fail on its first page.  With at least one page, Pillow installed
    or images off, and a text budget that can be computed for the first
    page, [main] raises [OverflowError]: after the text and the chart of
    page 1, [_figure_variants] divides [2 * math.pi * t] by the
    complexity at [t = 0], and the conversion of the complexity to a
    float fails. *)
Theorem main_complexity_overflow env args :
  float_limit <= arg_figure_complexity args ->
  1 <= arg_pages args ->
  arg_no_images args = true \/ pillow_installed env = true ->
  is_ok (text_budget (fst (page_size_for 1 (arg_vary_sizes args)))
                     (arg_font_size args)) = true ->
  fst (main env args fresh) = Raise OverflowError.
Proof.
  intros Hc Hp Hi Ht.
  pose proof (figure_grid_returns _ (page_size_cases 1 (arg_vary_sizes args)))
    as G.
  destruct (page_size_for 1 (arg_vary_sizes args)) as [w h] eqn:Es.
  cbn [fst snd] in *.
  set (w0 := snd (random_seed (arg_seed args) fresh)).
  set (w1 := snd (emit (Canvas (arg_output args) (w, h)
                          (if arg_fast args then 0 else 1)) w0)).
  set (w2 := snd (emit (setPageSize (w, h)) w1)).
  destruct (draw_page_text_returns 1 w h (arg_font args) (arg_font_size args)
              w2 Ht) as [w3 [E3 F3]].
  destruct (draw_page_chart_first env w h (arg_font args) (arg_font_size args)
              w3) as [w4 [E4 F4]].
  destruct (draw_page_figures_overflow env 1 w h (arg_figure_complexity args)
              (image_config args) w4 G Hc) as [w5 E5].
  { rewrite F4, F3. reflexivity. }
  assert (E : main env args fresh = (Raise OverflowError, w5)).
  { unfold main.
    rewrite (range2_cons 1 (arg_pages args + 1)) by lia.
    assert (E : (if enabled (image_config args) then _require_pillow env
                 else ret tt) = ret tt).
    { unfold image_config, _require_pillow; simpl.
      destruct Hi as [-> | ->]; [reflexivity|].
      now destruct (arg_no_images args). }
    rewrite E, Es. clear E. cbn [for_each]. rewrite Es.
    rewrite (bind_ok (random_seed _) _ fresh tt w0 eq_refl).
    rewrite bind_ret, bind_emit. fold w0 w1.
    apply bind_raise, bind_raise. rewrite bind_emit. fold w2.
    apply bind_raise. unfold draw_page.
    rewrite (bind_ok _ _ _ _ _ E3), (bind_ok _ _ _ _ _ E4).
    apply bind_raise. exact E5. }
  now rewrite E.
Qed.

Lemma main_complexity_overflow_witness :
  fst (main test_env huge_complexity_args fresh) = Raise OverflowError.
Proof.
  apply (main_complexity_overflow test_env huge_complexity_args).
  - vm_compute. discriminate.
  - vm_compute. discriminate.
  - right. reflexivity.
  - vm_compute. reflexivity.
Defined.

End ScriptMore.
